(** * async_toolkit: memory pool, lock-free queues and schedulers

    A shallow embedding of the core of the toolkit:
    - [memory/memory_pool.hpp]                  ([MemoryPool])
    - [lockfree/mpmc_queue.hpp]                 ([MPMCQueue])
    - [lockfree/mpmc_channel.hpp]               ([MPMCChannel])
    - [scheduler/priority_scheduler.hpp]        ([PriorityScheduler])
    - [executor/thread_pool_executor.hpp]       ([ThreadPoolExecutor])
    - [scheduler/work_stealing_scheduler.hpp]   ([WorkStealingQueue])

    Conventions.  A pointer is an [option addr], [None] being [nullptr].
    A [size_t] is a [Z] in [0, 2^64) and its arithmetic wraps.  A member
    function becomes a function from the object's state to a result and
    the next state; where the C++ dereferences a pointer, the model looks
    the object up and yields [None] when there is none.  A [while (true)]
    loop takes a bound on its number of iterations and yields [None] when
    the bound is reached; the theorems show which bound is enough. *)

From Stdlib Require Import ZArith Lia List Permutation.
From stdpp Require Import base option list sorting strings gmap.

Open Scope Z_scope.

(** ** Machine integers and pointers *)

Definition addr := nat.
Definition ptr := option addr.
Definition nullptr : ptr := None.

Definition size_t_modulus : Z := 2 ^ 64.
Definition wrap (z : Z) : Z := z mod size_t_modulus.

(** [std::atomic<size_t>::fetch_add(1)] and [fetch_sub(1)]: the value
    stored afterwards. *)
Definition fetch_add1 (z : Z) : Z := wrap (z + 1).
Definition fetch_sub1 (z : Z) : Z := wrap (z - 1).

(** [a.compare_exchange(expected, desired)] on an atomic that holds [cur]:
    whether it succeeded, the value the atomic holds afterwards and the
    value left in [expected].  In a run of one thread a weak exchange is
    taken to fail only when the values differ. *)
Definition compare_exchange {A} `{EqDecision A} (cur expected desired : A)
  : bool * A * A :=
  if decide (cur = expected) then (true, desired, expected)
  else (false, cur, cur).

Lemma wrap_small z : 0 ≤ z < size_t_modulus → wrap z = z.
Proof. intros. unfold wrap. by apply Z.mod_small. Qed.

Lemma compare_exchange_eq {A} `{EqDecision A} (cur desired : A) :
  compare_exchange cur cur desired = (true, desired, cur).
Proof. unfold compare_exchange. by rewrite decide_True. Qed.

(** ** memory/memory_pool.hpp *)

Module MemoryPool.

Definition BlockSize : nat := 4096.
Definition chunk_size : nat := 64 * 1024.

(** [sizeof(Block)]: [BlockSize] bytes of storage followed by the [next]
    pointer, rounded up to the alignment of [std::max_align_t] (16). *)
Definition sizeof_Block : nat := BlockSize + 16.

(** [Chunk::blocks.size()] *)
Definition blocks_per_chunk : nat := (chunk_size / sizeof_Block)%nat.

(** The pool.  The intrusive free list ([free_list_] and the [next] field
    of every free block) is kept as the list of the block addresses on it,
    from [free_list_] to [nullptr].  Block [i] of the [k]-th chunk has
    address [k * blocks_per_chunk + i].  [objects] holds the [T] that
    lives in a block between its construction and its destruction, and
    [destroyed] lists the destructor calls made by [deallocate]. *)
Record t (T : Type) := mk {
  free_list_ : list addr;
  chunks_ : list nat;
  objects : gmap addr T;
  destroyed : list addr
}.
Arguments mk {T}.
Arguments free_list_ {T}.
Arguments chunks_ {T}.
Arguments objects {T}.
Arguments destroyed {T}.

Section Ops.
Context {T : Type}.
Implicit Type p : t T.

(** [MemoryPool() noexcept : free_list_(nullptr) {}] *)
Definition new : t T := mk [] [] ∅ [].

Definition allocated_size p : nat := (length (chunks_ p) * chunk_size)%nat.

(** The first address past the chunks allocated so far. *)
Definition limit p : addr := (length (chunks_ p) * blocks_per_chunk)%nat.

Definition allocate_chunk p : t T :=
  let k := length (chunks_ p) in
  mk (seq (k * blocks_per_chunk) blocks_per_chunk ++ free_list_ p)
     (chunks_ p ++ [k]) (objects p) (destroyed p).

Definition allocate_block p : option (addr * t T) :=
  let p1 := match free_list_ p with [] => allocate_chunk p | _ => p end in
  match free_list_ p1 with
  | block :: rest => Some (block, mk rest (chunks_ p1) (objects p1) (destroyed p1))
  | [] => None
  end.

(** [allocate(args...)]: [x] is the object [T(args...)] built in place. *)
Definition allocate (x : T) p : option (addr * t T) :=
  '(a, p1) ← allocate_block p;
  Some (a, mk (free_list_ p1) (chunks_ p1) (<[a := x]> (objects p1)) (destroyed p1)).

Definition deallocate (q : ptr) p : t T :=
  match q with
  | None => p
  | Some a =>
      mk (a :: free_list_ p) (chunks_ p) (delete a (objects p)) (destroyed p ++ [a])
  end.

(** Reading and writing the object a pointer refers to. *)
Definition load (q : ptr) p : option T := a ← q; objects p !! a.

Definition store (a : addr) (x : T) p : t T :=
  mk (free_list_ p) (chunks_ p) (<[a := x]> (objects p)) (destroyed p).

(** The pool invariant: the free blocks are distinct, lie inside the
    chunks and hold no object; every object lies inside the chunks. *)
Record wf p : Prop := {
  wf_free_nodup : NoDup (free_list_ p);
  wf_free_limit : ∀ a, a ∈ free_list_ p → (a < limit p)%nat;
  wf_free_dead : ∀ a, a ∈ free_list_ p → objects p !! a = None;
  wf_live_limit : ∀ a, is_Some (objects p !! a) → (a < limit p)%nat
}.

Lemma blocks_per_chunk_eq : blocks_per_chunk = 15%nat.
Proof. reflexivity. Qed.

Lemma new_wf : wf new.
Proof.
  split; simpl.
  - constructor.
  - intros a Ha. by apply elem_of_nil in Ha.
  - intros a _. apply lookup_empty.
  - intros a [x Hx]. by rewrite lookup_empty in Hx.
Qed.

Lemma allocate_block_eq p :
  allocate_block p =
  match free_list_ p with
  | b :: rest => Some (b, mk rest (chunks_ p) (objects p) (destroyed p))
  | [] => Some (limit p, mk (seq (S (limit p)) 14)
                            (chunks_ p ++ [length (chunks_ p)])
                            (objects p) (destroyed p))
  end.
Proof.
  unfold allocate_block. destruct (free_list_ p) as [|b rest] eqn:Hfree.
  - unfold allocate_chunk; cbn [free_list_ chunks_ objects destroyed].
    rewrite Hfree, app_nil_r. reflexivity.
  - cbv zeta. by rewrite Hfree.
Qed.

(** A block taken from the pool carries no object; the pool stays well
    formed, no chunk is ever released and no destructor runs. *)
Lemma allocate_block_spec p :
  wf p →
  ∃ a p', allocate_block p = Some (a, p')
    ∧ objects p !! a = None
    ∧ objects p' = objects p
    ∧ destroyed p' = destroyed p
    ∧ (a ∉ free_list_ p')
    ∧ (a < limit p')%nat
    ∧ NoDup (free_list_ p')
    ∧ (∀ b, b ∈ free_list_ p' → (b < limit p')%nat ∧ objects p !! b = None)
    ∧ (limit p ≤ limit p')%nat.
Proof.
  intros [Hnd Hlim Hdead Hlive]. rewrite allocate_block_eq.
  destruct (free_list_ p) as [|b rest] eqn:Hfree.
  - assert (Hnone : ∀ c, (limit p ≤ c)%nat → objects p !! c = None).
    { intros c Hc. destruct (objects p !! c) eqn:E; [|done].
      assert (c < limit p)%nat by (apply Hlive; eauto). lia. }
    eexists _, _. split; [reflexivity|].
    cbn [objects free_list_ destroyed].
    match goal with |- context [limit ?q] =>
      lazymatch q with
      | mk _ _ _ _ => assert (Hlm : limit q = (limit p + 15)%nat)
      end
    end.
    { unfold limit; cbn [chunks_]. rewrite length_app, blocks_per_chunk_eq; simpl. lia. }
    rewrite Hlm. repeat split.
    + apply Hnone. lia.
    + rewrite elem_of_seq. lia.
    + lia.
    + apply NoDup_seq.
    + apply elem_of_seq in H. lia.
    + apply Hnone. apply elem_of_seq in H. lia.
    + lia.
  - eexists _, _. split; [reflexivity|]. cbn [objects free_list_ destroyed].
    apply NoDup_cons in Hnd as [Hb Hnd].
    unfold limit in *; cbn [chunks_].
    repeat split; auto.
    + apply Hdead. by left.
    + apply Hlim. by left.
    + apply Hlim. by right.
    + apply Hdead. by right.
Qed.

Lemma allocate_spec (x : T) p :
  wf p →
  ∃ a p', allocate x p = Some (a, p')
    ∧ objects p !! a = None
    ∧ objects p' = <[a := x]> (objects p)
    ∧ destroyed p' = destroyed p
    ∧ wf p'.
Proof.
  intros Hwf. destruct (allocate_block_spec p Hwf)
    as (a & p1 & Hal & Hnone & Hobj & Hdes & Hnin & Halim & Hnd & Hfree & Hle).
  unfold allocate. rewrite Hal. simpl.
  eexists _, _. split; [reflexivity|]. cbn [objects destroyed].
  rewrite Hobj. repeat split; auto; cbn [free_list_ objects chunks_].
  - intros b Hb. by apply Hfree.
  - intros b Hb. rewrite lookup_insert_ne; [by apply Hfree|]. intros ->. done.
  - intros b [y Hy]. destruct (decide (a = b)) as [->|Hne]; [done|].
    rewrite lookup_insert_ne in Hy by done.
    destruct Hwf as [_ _ _ Hlive].
    assert (b < limit p)%nat by (apply Hlive; eauto).
    unfold limit in *. cbn [chunks_]. lia.
Qed.

Lemma store_wf a (x : T) p :
  wf p → is_Some (objects p !! a) → wf (store a x p).
Proof.
  intros [Hnd Hlim Hdead Hlive] Ha. split; cbn [store free_list_ objects]; auto.
  - intros b Hb. rewrite lookup_insert_ne; [by apply Hdead|].
    intros ->. rewrite (Hdead b Hb) in Ha. by destruct Ha.
  - intros b [y Hy]. unfold limit; cbn [chunks_]. fold (limit p).
    destruct (decide (a = b)) as [->|Hne]; [by apply Hlive|].
    rewrite lookup_insert_ne in Hy by done. apply Hlive. eauto.
Qed.

Lemma deallocate_wf a p :
  wf p → is_Some (objects p !! a) → wf (deallocate (Some a) p).
Proof.
  intros [Hnd Hlim Hdead Hlive] Ha. split; cbn [deallocate free_list_ objects].
  - apply NoDup_cons. split; [|done].
    intros Hin. rewrite (Hdead a Hin) in Ha. by destruct Ha.
  - intros b Hb. unfold limit; cbn [chunks_]. fold (limit p).
    apply elem_of_cons in Hb as [->|Hb]; [by apply Hlive | by apply Hlim].
  - intros b Hb. apply elem_of_cons in Hb as [->|Hb].
    + apply lookup_delete_eq.
    + destruct (decide (a = b)) as [->|Hne]; [apply lookup_delete_eq|].
      rewrite lookup_delete_ne by done. by apply Hdead.
  - intros b [y Hy]. unfold limit; cbn [chunks_]. fold (limit p).
    destruct (decide (a = b)) as [->|Hne]; [by apply Hlive|].
    rewrite lookup_delete_ne in Hy by done. apply Hlive. eauto.
Qed.

End Ops.
Arguments new : clear implicits.

(** C10.  [deallocate(nullptr)] returns at once: the pool it leaves is the
    pool it found, so no destructor has run and the free list, the chunk
    list and [allocated_size] are what they were. *)
Theorem deallocate_nullptr_noop {T} (p : t T) :
  deallocate nullptr p = p
  ∧ destroyed (deallocate nullptr p) = destroyed p
  ∧ free_list_ (deallocate nullptr p) = free_list_ p
  ∧ chunks_ (deallocate nullptr p) = chunks_ p
  ∧ allocated_size (deallocate nullptr p) = allocated_size p.
Proof. repeat split. Qed.

(** ** More on the pool: reuse, growth and accounting *)

Section Usage.
Context {T : Type}.
Implicit Type p : t T.

(** The two ways of [allocate]: it takes the first free block, or, with
    no free block left, the first block of a fresh chunk. *)
Lemma allocate_cases (x : T) p :
  (∃ b rest, free_list_ p = b :: rest
     ∧ allocate x p = Some (b, mk rest (chunks_ p) (<[b := x]> (objects p)) (destroyed p)))
  ∨ (free_list_ p = []
     ∧ allocate x p = Some (limit p,
         mk (seq (S (limit p)) 14) (chunks_ p ++ [length (chunks_ p)])
            (<[limit p := x]> (objects p)) (destroyed p))).
Proof.
  unfold allocate. rewrite allocate_block_eq.
  destruct (free_list_ p) as [|b rest]; [right|left; exists b, rest]; done.
Qed.

(** Every block of every chunk is on the free list or holds an object. *)
Definition accounted p : Prop :=
  (length (free_list_ p) + size (objects p) = limit p)%nat.

Lemma new_accounted : accounted (new T).
Proof. unfold accounted, limit. cbn. by rewrite map_size_empty. Qed.

Lemma limit_grown p (x : list addr) (o : gmap addr T) (d : list addr) :
  limit (mk x (chunks_ p ++ [length (chunks_ p)]) o d) = (limit p + 15)%nat.
Proof. unfold limit; cbn [chunks_]. rewrite length_app, blocks_per_chunk_eq; simpl. lia. Qed.

Lemma allocate_accounted (x : T) p a p' :
  wf p → accounted p → allocate x p = Some (a, p') → accounted p'.
Proof.
  intros Hwf Hacc Hal. unfold accounted in *.
  destruct (allocate_cases x p) as [(b & rest & Hf & E)|[Hf E]];
    rewrite E in Hal; injection Hal as <- <-; cbn [free_list_ objects].
  - rewrite map_size_insert_None by (apply (wf_free_dead _ Hwf); rewrite Hf; left).
    rewrite Hf in Hacc. cbn in Hacc. unfold limit in *. cbn [chunks_]. lia.
  - rewrite limit_grown. cbn [length].
    rewrite map_size_insert_None.
    + rewrite Hf in Hacc. cbn in Hacc. lia.
    + destruct (objects p !! limit p) eqn:E'; [|done].
      assert (limit p < limit p)%nat by (apply (wf_live_limit _ Hwf); eauto). lia.
Qed.

Lemma deallocate_accounted a p :
  accounted p → is_Some (objects p !! a) → accounted (deallocate (Some a) p).
Proof.
  intros Hacc [x Hx]. unfold accounted in *. cbn [deallocate free_list_ objects].
  assert (size (objects p) ≠ 0%nat) by (by eapply map_size_ne_0_lookup_2).
  rewrite map_size_delete_Some by eauto. unfold limit in *. cbn [chunks_ length]. lia.
Qed.

(** What a client asks of the pool.  A pointer handed to [deallocate]
    must come from [allocate] and not have been given back yet. *)
Inductive request :=
  | Allocate (x : T)
  | Deallocate (a : addr).

Definition serve (r : request) p : option (t T) :=
  match r with
  | Allocate x => snd <$> allocate x p
  | Deallocate a =>
      if decide (is_Some (objects p !! a)) then Some (deallocate (Some a) p) else None
  end.

Fixpoint serve_all (rs : list request) p : option (t T) :=
  match rs with
  | [] => Some p
  | r :: rs => p1 ← serve r p; serve_all rs p1
  end.

Lemma serve_keeps (r : request) p p' :
  wf p → accounted p → serve r p = Some p' →
  wf p' ∧ accounted p' ∧ chunks_ p `prefix_of` chunks_ p'.
Proof.
  intros Hwf Hacc Hs. destruct r as [x|a]; cbn in Hs.
  - destruct (allocate x p) as [[a p1]|] eqn:Hal; [|done]. injection Hs as <-.
    destruct (allocate_spec x p Hwf) as (a' & p1' & E & _ & _ & _ & Hwf').
    rewrite Hal in E. injection E as <- <-.
    split_and!; [done|exact (allocate_accounted x p a p1 Hwf Hacc Hal)|].
    destruct (allocate_cases x p) as [(b & rest & _ & E)|[_ E]];
      rewrite E in Hal; injection Hal as <- <-; cbn; [done|by apply prefix_app_r].
  - case_decide; [|done]. injection Hs as <-.
    split_and!; [by apply deallocate_wf|by apply deallocate_accounted|done].
Qed.

(** X1.  Over any sequence of allocations and matching deallocations
    the pool stays well formed, every block of every chunk stays on the
    free list or in use, and no chunk is given up. *)
Theorem pool_accounts_for_every_block (rs : list request) p p' :
  wf p → accounted p → serve_all rs p = Some p' →
  wf p' ∧ accounted p' ∧ chunks_ p `prefix_of` chunks_ p'
  ∧ (allocated_size p ≤ allocated_size p')%nat.
Proof.
  revert p. induction rs as [|r rs IH]; intros p Hwf Hacc Hs; cbn in Hs.
  - injection Hs as <-. done.
  - destruct (serve r p) as [p1|] eqn:Hr; [|done]. cbn in Hs.
    destruct (serve_keeps r p p1 Hwf Hacc Hr) as (Hwf1 & Hacc1 & Hpre1).
    destruct (IH p1 Hwf1 Hacc1 Hs) as (Hwf' & Hacc' & Hpre' & Hsz).
    split_and!; [done|done|by etrans|].
    apply prefix_length in Hpre1. unfold allocated_size in *.
    assert (length (chunks_ p) * chunk_size ≤ length (chunks_ p1) * chunk_size)%nat
      by (apply Nat.mul_le_mono_r; lia).
    lia.
Qed.

(** X2.  [allocate] takes a new chunk exactly when every block of every
    chunk holds an object; otherwise [allocated_size] stays as it is. *)
Theorem pool_grows_only_when_full (x : T) p :
  wf p → accounted p →
  ∃ a p', allocate x p = Some (a, p')
    ∧ ((size (objects p) = limit p
        ∧ allocated_size p' = (allocated_size p + chunk_size)%nat)
       ∨ ((size (objects p) < limit p)%nat
          ∧ allocated_size p' = allocated_size p)).
Proof.
  intros Hwf Hacc. unfold accounted in Hacc.
  destruct (allocate_cases x p) as [(b & rest & Hf & E)|[Hf E]];
    rewrite E; eexists _, _; (split; [reflexivity|]).
  - right. rewrite Hf in Hacc. cbn in Hacc. split; [lia|done].
  - left. rewrite Hf in Hacc. cbn in Hacc. split; [lia|].
    unfold allocated_size. cbn [chunks_]. rewrite length_app. cbn [length].
    generalize chunk_size. intros c. lia.
Qed.

(** X3.  Two allocations with no deallocation between them return
    different blocks, each holds its own object afterwards, and the
    objects that were there before are untouched. *)
Theorem allocations_do_not_alias (x y : T) p :
  wf p →
  ∃ a b p1 p2,
    allocate x p = Some (a, p1) ∧ allocate y p1 = Some (b, p2)
    ∧ a ≠ b
    ∧ objects p2 !! a = Some x ∧ objects p2 !! b = Some y
    ∧ ∀ c z, objects p !! c = Some z →
        c ≠ a ∧ c ≠ b ∧ objects p2 !! c = Some z.
Proof.
  intros Hwf.
  destruct (allocate_spec x p Hwf) as (a & p1 & Ha & Hna & Ho1 & _ & Hwf1).
  destruct (allocate_spec y p1 Hwf1) as (b & p2 & Hb & Hnb & Ho2 & _ & Hwf2).
  exists a, b, p1, p2.
  assert (Hab : a ≠ b).
  { intros ->. by rewrite Ho1, lookup_insert_eq in Hnb. }
  split_and!; [done..| | |].
  - by rewrite Ho2, lookup_insert_ne, Ho1, lookup_insert_eq.
  - by rewrite Ho2, lookup_insert_eq.
  - intros c z Hc.
    assert (c ≠ a) by (intros ->; congruence).
    assert (c ≠ b).
    { intros ->. rewrite Ho1, lookup_insert_ne in Hnb by done. congruence. }
    split_and!; [done..|]. by rewrite Ho2, lookup_insert_ne, Ho1, lookup_insert_ne.
Qed.

(** X4.  Giving a block back undoes its allocation: the objects are
    what they were before the allocation, and if the pool had a free
    block then its free list and chunks are what they were as well.  The
    block given back is the one the next allocation returns, and that
    allocation takes no new chunk. *)
Theorem deallocate_undoes_allocate (x y : T) p :
  wf p →
  ∃ a p1,
    allocate x p = Some (a, p1)
    ∧ objects (deallocate (Some a) p1) = objects p
    ∧ destroyed (deallocate (Some a) p1) = destroyed p ++ [a]
    ∧ (free_list_ p ≠ [] →
       free_list_ (deallocate (Some a) p1) = free_list_ p
       ∧ chunks_ (deallocate (Some a) p1) = chunks_ p)
    ∧ ∃ p3, allocate y (deallocate (Some a) p1) = Some (a, p3)
        ∧ chunks_ p3 = chunks_ p1.
Proof.
  intros Hwf.
  assert (Hfresh : ∀ a p1, allocate x p = Some (a, p1) → objects p !! a = None).
  { intros a p1 E. destruct (allocate_spec x p Hwf) as (a' & p1' & E' & Hn & _).
    rewrite E in E'. by injection E' as <- <-. }
  destruct (allocate_cases x p) as [(b & rest & Hf & E)|[Hf E]];
    rewrite E; eexists _, _; (split; [reflexivity|]);
    pose proof (Hfresh _ _ E) as Hn;
    cbn [deallocate objects destroyed free_list_ chunks_].
  - split_and!; [by rewrite delete_insert_eq, delete_id|done|by rewrite Hf|].
    eexists. split; [unfold allocate; rewrite allocate_block_eq; cbn; reflexivity|done].
  - split_and!; [by rewrite delete_insert_eq, delete_id|done|done|].
    eexists. split; [unfold allocate; rewrite allocate_block_eq; cbn; reflexivity|done].
Qed.

End Usage.

Lemma pool_accounts_for_every_block_witness :
  ∃ p', serve_all [Allocate 7; Allocate 8; Deallocate 0%nat; Allocate 9] (new Z) = Some p'
    ∧ wf p' ∧ accounted p' ∧ chunks_ (new Z) `prefix_of` chunks_ p'
    ∧ (allocated_size (new Z) ≤ allocated_size p')%nat.
Proof.
  eexists. split; [vm_compute; reflexivity|].
  eapply (pool_accounts_for_every_block
            [Allocate 7; Allocate 8; Deallocate 0%nat; Allocate 9] (new Z)).
  - apply new_wf.
  - apply new_accounted.
  - vm_compute. reflexivity.
Defined.

Lemma pool_grows_only_when_full_witness :
  ∃ a p', allocate 7 (new Z) = Some (a, p')
    ∧ ((size (objects (new Z)) = limit (new Z)
        ∧ allocated_size p' = (allocated_size (new Z) + chunk_size)%nat)
       ∨ ((size (objects (new Z)) < limit (new Z))%nat
          ∧ allocated_size p' = allocated_size (new Z))).
Proof. exact (pool_grows_only_when_full 7 (new Z) new_wf new_accounted). Defined.

Lemma allocations_do_not_alias_witness :
  ∃ a b p1 p2,
    allocate 7 (new Z) = Some (a, p1) ∧ allocate 8 p1 = Some (b, p2)
    ∧ a ≠ b
    ∧ objects p2 !! a = Some 7 ∧ objects p2 !! b = Some 8
    ∧ ∀ c z, objects (new Z) !! c = Some z →
        c ≠ a ∧ c ≠ b ∧ objects p2 !! c = Some z.
Proof. exact (allocations_do_not_alias 7 8 (new Z) new_wf). Defined.

Lemma deallocate_undoes_allocate_witness :
  ∃ a p1,
    allocate 7 (new Z) = Some (a, p1)
    ∧ objects (deallocate (Some a) p1) = objects (new Z)
    ∧ destroyed (deallocate (Some a) p1) = destroyed (new Z) ++ [a]
    ∧ (free_list_ (new Z) ≠ [] →
       free_list_ (deallocate (Some a) p1) = free_list_ (new Z)
       ∧ chunks_ (deallocate (Some a) p1) = chunks_ (new Z))
    ∧ ∃ p3, allocate 8 (deallocate (Some a) p1) = Some (a, p3)
        ∧ chunks_ p3 = chunks_ p1.
Proof. exact (deallocate_undoes_allocate 7 8 (new Z) new_wf). Defined.

End MemoryPool.

(** ** memory/memory_pool.hpp: [PoolPtr]

    A [PoolPtr] is a variable that holds a pointer into a pool and a
    pointer to that pool.  The variables and the pools live in a store,
    under their names, so that two handles can refer to one pool and a
    move can tell [this] from [other]. *)

Module PoolPtr.

Record t := mk { ptr_ : ptr; pool_ : option nat }.

Record store (T : Type) := mkStore {
  pools : gmap nat (MemoryPool.t T);
  handles : gmap nat t
}.
Arguments mkStore {T}.
Arguments pools {T}.
Arguments handles {T}.

Section Ops.
Context {T : Type}.
Implicit Type w : store T.

(** [PoolPtr() : ptr_(nullptr), pool_(nullptr) {}] *)
Definition null : t := mk None None.

(** [PoolPtr()] for a new variable [h]. *)
Definition default (h : nat) w : option (store T) :=
  if decide (is_Some (handles w !! h)) then None
  else Some (mkStore (pools w) (<[h := null]> (handles w))).

(** [auto h = PoolPtr::make(pool, args...)], [x] being [T(args...)]. *)
Definition make (pool : nat) (x : T) (h : nat) w : option (store T) :=
  if decide (is_Some (handles w !! h)) then None
  else
    p ← pools w !! pool;
    '(a, p1) ← MemoryPool.allocate x p;
    Some (mkStore (<[pool := p1]> (pools w)) (<[h := mk (Some a) (Some pool)]> (handles w))).

(** [if (ptr_ && pool_) pool_->deallocate(ptr_);] *)
Definition release (hd : t) (ps : gmap nat (MemoryPool.t T))
  : option (gmap nat (MemoryPool.t T)) :=
  match ptr_ hd, pool_ hd with
  | Some a, Some pool =>
      p ← ps !! pool;
      Some (<[pool := MemoryPool.deallocate (Some a) p]> ps)
  | _, _ => Some ps
  end.

(** [~PoolPtr()], at the end of the life of the variable [h]. *)
Definition destroy (h : nat) w : option (store T) :=
  hd ← handles w !! h;
  ps ← release hd (pools w);
  Some (mkStore ps (delete h (handles w))).

(** [PoolPtr h(std::move(other))] for a new variable [h]. *)
Definition move_construct (h other : nat) w : option (store T) :=
  if decide (is_Some (handles w !! h)) then None
  else
    od ← handles w !! other;
    Some (mkStore (pools w) (<[other := null]> (<[h := od]> (handles w)))).

(** [this = std::move(other)] *)
Definition move_assign (this other : nat) w : option (store T) :=
  td ← handles w !! this;
  od ← handles w !! other;
  if decide (this ≠ other) then
    ps ← release td (pools w);
    Some (mkStore ps (<[other := null]> (<[this := od]> (handles w))))
  else Some w.

Definition get (h : nat) w : option ptr := ptr_ <$> handles w !! h.

(** [explicit operator bool()] *)
Definition to_bool (h : nat) w : option bool :=
  (λ hd, bool_decide (ptr_ hd ≠ None)) <$> handles w !! h.

(** The statements of a program over handles. *)
Inductive statement :=
  | Default (h : nat)
  | Make (pool : nat) (x : T) (h : nat)
  | Destroy (h : nat)
  | MoveConstruct (h other : nat)
  | MoveAssign (this other : nat).

Definition exec (c : statement) w : option (store T) :=
  match c with
  | Default h => default h w
  | Make pool x h => make pool x h w
  | Destroy h => destroy h w
  | MoveConstruct h other => move_construct h other w
  | MoveAssign this other => move_assign this other w
  end.

Fixpoint exec_all (cs : list statement) w : option (store T) :=
  match cs with
  | [] => Some w
  | c :: cs => w1 ← exec c w; exec_all cs w1
  end.

(** The handle [h] holds the object at [a] of the pool [k]. *)
Definition owner w (k : nat) (a : addr) (h : nat) : Prop :=
  ∃ hd, handles w !! h = Some hd ∧ ptr_ hd = Some a ∧ pool_ hd = Some k.

(** Every pool is well formed; every handle that is not null holds an
    object that is there; no two handles hold the same object; and every
    object is held by a handle. *)
Record owned w : Prop := {
  owned_wf : ∀ k p, pools w !! k = Some p → MemoryPool.wf p;
  owned_live : ∀ k a h, owner w k a h →
    ∃ p, pools w !! k = Some p ∧ is_Some (MemoryPool.objects p !! a);
  owned_once : ∀ k a h1 h2, owner w k a h1 → owner w k a h2 → h1 = h2;
  owned_all : ∀ k p a, pools w !! k = Some p → is_Some (MemoryPool.objects p !! a) →
    ∃ h, owner w k a h
}.

End Ops.
Section Facts.
Context {T : Type}.
Implicit Type w : store T.

(** The handle [h] holds nothing. *)
Definition idle w (h : nat) : Prop := ∀ k a, ¬ owner w k a h.

Lemma owner_insert ps (H : gmap nat t) h hd k a h' :
  owner (mkStore (T := T) ps (<[h := hd]> H)) k a h'
  ↔ (h' = h ∧ ptr_ hd = Some a ∧ pool_ hd = Some k)
    ∨ (h' ≠ h ∧ owner (mkStore ps H) k a h').
Proof.
  unfold owner; cbn. destruct (decide (h' = h)) as [->|Hne].
  - rewrite lookup_insert_eq. naive_solver.
  - rewrite lookup_insert_ne by done. naive_solver.
Qed.

Lemma owner_delete ps (H : gmap nat t) h k a h' :
  owner (mkStore (T := T) ps (delete h H)) k a h'
  ↔ h' ≠ h ∧ owner (mkStore ps H) k a h'.
Proof.
  unfold owner; cbn. destruct (decide (h' = h)) as [->|Hne].
  - rewrite lookup_delete_eq. naive_solver.
  - rewrite lookup_delete_ne by done. naive_solver.
Qed.

Lemma owned_empty (ps : gmap nat (MemoryPool.t T)) :
  (∀ k p, ps !! k = Some p → p = MemoryPool.new T) → owned (mkStore ps ∅).
Proof.
  intros Hnew. split; cbn.
  - intros k p Hp. rewrite (Hnew k p Hp). apply MemoryPool.new_wf.
  - intros k a h (hd & Hh & _). cbn in Hh. by rewrite lookup_empty in Hh.
  - intros k a h1 h2 (hd & Hh & _). cbn in Hh. by rewrite lookup_empty in Hh.
  - intros k p a Hp [x Hx]. rewrite (Hnew k p Hp) in Hx. cbn in Hx.
    by rewrite lookup_empty in Hx.
Qed.

(** Releasing what a handle holds and setting the handle to null. *)
Lemma release_owned w h hd ps :
  owned w → handles w !! h = Some hd → release hd (pools w) = Some ps →
  owned (mkStore ps (<[h := null]> (handles w)))
  ∧ idle (mkStore ps (<[h := null]> (handles w))) h.
Proof.
  intros [Hwf Hlive Honce Hall] Hh Hrel.
  assert (Hidle : idle (mkStore ps (<[h := null]> (handles w))) h).
  { intros k a Ho. apply owner_insert in Ho as [(_ & Hp & _)|[Hne _]]; done. }
  split; [|done].
  assert (Hsame : ∀ k a h', owner (mkStore ps (<[h := null]> (handles w))) k a h'
                            ↔ h' ≠ h ∧ owner w k a h').
  { intros k a h'. rewrite owner_insert. destruct w. cbn. naive_solver. }
  unfold release in Hrel.
  destruct (ptr_ hd) as [a|] eqn:Hptr; [destruct (pool_ hd) as [k|] eqn:Hpool|].
  - assert (Hown : owner w k a h) by (by exists hd).
    destruct (Hlive k a h Hown) as (p & Hp & Ha). rewrite Hp in Hrel. cbn in Hrel.
    injection Hrel as <-. split; cbn.
    + intros k' p' Hp'. destruct (decide (k = k')) as [<-|Hne].
      * rewrite lookup_insert_eq in Hp'. injection Hp' as <-.
        apply MemoryPool.deallocate_wf; eauto.
      * rewrite lookup_insert_ne in Hp' by done. eauto.
    + intros k' a' h' [Hne Ho]%Hsame. destruct (Hlive k' a' h' Ho) as (p' & Hp' & Ha').
      destruct (decide (k = k')) as [<-|Hk].
      * rewrite lookup_insert_eq. eexists. split; [done|]. cbn.
        rewrite lookup_delete_ne; [congruence|].
        intros <-. apply Hne. by eapply Honce.
      * rewrite lookup_insert_ne by done. eauto.
    + intros k' a' h1 h2 [_ H1]%Hsame [_ H2]%Hsame. by eapply Honce.
    + intros k' p' a' Hp' Ha'. destruct (decide (k = k')) as [<-|Hk].
      * rewrite lookup_insert_eq in Hp'. injection Hp' as <-. cbn in Ha'.
        assert (a ≠ a') by (intros <-; rewrite lookup_delete_eq in Ha'; by destruct Ha').
        rewrite lookup_delete_ne in Ha' by done.
        destruct (Hall k p a' Hp Ha') as [h' Ho]. exists h'. apply Hsame. split; [|done].
        intros ->. destruct Ho as (hd' & Hh' & Hp' & _). congruence.
      * rewrite lookup_insert_ne in Hp' by done.
        destruct (Hall k' p' a' Hp' Ha') as [h' Ho]. exists h'. apply Hsame. split; [|done].
        intros ->. destruct Ho as (hd' & Hh' & _ & Hk'). congruence.
  - injection Hrel as <-.
    assert (Hno : ∀ k b, ¬ owner w k b h).
    { intros k b (hd' & Hh' & _ & Hk). congruence. }
    split; cbn.
    + done.
    + intros k' a' h' [_ Ho]%Hsame. eauto.
    + intros k' a' h1 h2 [_ H1]%Hsame [_ H2]%Hsame. by eapply Honce.
    + intros k' p' a' Hp' Ha'. destruct (Hall k' p' a' Hp' Ha') as [h' Ho].
      exists h'. apply Hsame. split; [|done]. intros ->. by eapply Hno.
  - injection Hrel as <-.
    assert (Hno : ∀ k a, ¬ owner w k a h).
    { intros k a (hd' & Hh' & Hp & _). congruence. }
    split; cbn.
    + done.
    + intros k' a' h' [_ Ho]%Hsame. eauto.
    + intros k' a' h1 h2 [_ H1]%Hsame [_ H2]%Hsame. by eapply Honce.
    + intros k' p' a' Hp' Ha'. destruct (Hall k' p' a' Hp' Ha') as [h' Ho].
      exists h'. apply Hsame. split; [|done]. intros ->. by eapply Hno.
Qed.

(** The end of a handle that holds nothing. *)
Lemma forget_owned w h :
  owned w → idle w h → owned (mkStore (pools w) (delete h (handles w))).
Proof.
  intros [Hwf Hlive Honce Hall] Hidle.
  assert (Hsame : ∀ k a h', owner (mkStore (pools w) (delete h (handles w))) k a h'
                            ↔ owner w k a h').
  { intros k a h'. rewrite owner_delete. destruct w; cbn in *. split; [naive_solver|].
    intros Ho. split; [|done]. intros ->. by eapply Hidle. }
  split; cbn.
  - done.
  - intros k a h' Ho%Hsame. eauto.
  - intros k a h1 h2 H1%Hsame H2%Hsame. by eapply Honce.
  - intros k p a Hp Ha. destruct (Hall k p a Hp Ha) as [h' Ho]. exists h'. by apply Hsame.
Qed.

(** What [other] holds passes to [h], which held nothing. *)
Lemma transfer_owned w h other od :
  owned w → h ≠ other → handles w !! other = Some od →
  idle w h →
  owned (mkStore (pools w) (<[other := null]> (<[h := od]> (handles w)))).
Proof.
  intros [Hwf Hlive Honce Hall] Hne Hod Hidle.
  assert (Hsame : ∀ k a h',
    owner (mkStore (pools w) (<[other := null]> (<[h := od]> (handles w)))) k a h'
    ↔ (h' = h ∧ owner w k a other) ∨ (h' ≠ h ∧ h' ≠ other ∧ owner w k a h')).
  { intros k a h'. rewrite owner_insert, owner_insert. destruct w; cbn in *.
    unfold owner; cbn. split.
    - intros [(_ & Hn & _)|(Ho & [(-> & Hp & Hk)|[Hh Hown]])]; [done| |].
      + left. split; [done|]. by exists od.
      + right. done.
    - intros [(-> & (od' & Hod' & Hp & Hk))|(Hh & Ho & Hown)].
      + right. split; [done|]. left. split; [done|]. split; congruence.
      + right. split; [done|]. right. done. }
  split; cbn.
  - done.
  - intros k a h' [[_ Ho]|(_ & _ & Ho)]%Hsame; eauto.
  - intros k a h1 h2 [[-> H1]|(Hn1 & Hm1 & H1)]%Hsame [[-> H2]|(Hn2 & Hm2 & H2)]%Hsame.
    + done.
    + exfalso. apply Hm2. by eapply Honce.
    + exfalso. apply Hm1. by eapply Honce.
    + by eapply Honce.
  - intros k p a Hp Ha. destruct (Hall k p a Hp Ha) as [h' Ho].
    destruct (decide (h' = other)) as [->|Hno].
    + exists h. apply Hsame. left. done.
    + exists h'. apply Hsame. right. split_and!; [|done..].
      intros ->. by eapply Hidle.
Qed.

Lemma absent_idle w h : handles w !! h = None → idle w h.
Proof. intros Hn k a (hd & Hh & _). congruence. Qed.

Lemma default_owned h w w' : owned w → default h w = Some w' → owned w'.
Proof.
  unfold default. intros Ho Hd. case_decide as Hs; [done|]. injection Hd as <-.
  apply eq_None_not_Some in Hs.
  destruct Ho as [Hwf Hlive Honce Hall].
  pose proof (absent_idle _ _ Hs) as Hidle.
  assert (Hsame : ∀ k a h', owner (mkStore (pools w) (<[h := null]> (handles w))) k a h'
                            ↔ owner w k a h').
  { intros k a h'. rewrite owner_insert. destruct w; cbn in *. split; [naive_solver|].
    intros Hown. right. split; [|done]. intros ->. by eapply Hidle. }
  split; cbn.
  - done.
  - intros k a h' Hown%Hsame. eauto.
  - intros k a h1 h2 H1%Hsame H2%Hsame. by eapply Honce.
  - intros k p a Hp Ha. destruct (Hall k p a Hp Ha) as [h' Hown]. exists h'. by apply Hsame.
Qed.

Lemma make_owned pool (x : T) h w w' : owned w → make pool x h w = Some w' → owned w'.
Proof.
  unfold make. intros Ho Hm. case_decide as Hs; [done|].
  apply eq_None_not_Some in Hs.
  destruct (pools w !! pool) as [p|] eqn:Hp; [|done]. cbn in Hm.
  destruct Ho as [Hwf Hlive Honce Hall].
  destruct (MemoryPool.allocate_spec x p (Hwf _ _ Hp)) as (a & p1 & Hal & Hfresh & Hobj & _ & Hwf1).
  rewrite Hal in Hm. cbn in Hm. injection Hm as <-.
  assert (Hsame : ∀ k a' h',
    owner (mkStore (<[pool := p1]> (pools w)) (<[h := mk (Some a) (Some pool)]> (handles w))) k a' h'
    ↔ (h' = h ∧ a' = a ∧ k = pool) ∨ (h' ≠ h ∧ owner w k a' h')).
  { intros k a' h'. rewrite owner_insert. destruct w; cbn in *. naive_solver. }
  split; cbn.
  - intros k p' Hp'. destruct (decide (pool = k)) as [<-|Hne].
    + rewrite lookup_insert_eq in Hp'. by injection Hp' as <-.
    + rewrite lookup_insert_ne in Hp' by done. eauto.
  - intros k a' h' [(-> & -> & ->)|[Hne Hown]]%Hsame.
    + rewrite lookup_insert_eq. eexists. split; [done|]. rewrite Hobj, lookup_insert_eq. eauto.
    + destruct (Hlive k a' h' Hown) as (p' & Hp' & Ha').
      destruct (decide (pool = k)) as [<-|Hk].
      * rewrite lookup_insert_eq. eexists. split; [done|]. rewrite Hobj.
        assert (p' = p) as -> by congruence.
        destruct (decide (a = a')) as [<-|]; [rewrite lookup_insert_eq; eauto|].
        by rewrite lookup_insert_ne.
      * rewrite lookup_insert_ne by done. eauto.
  - assert (Hnew : ∀ h', ¬ owner w pool a h').
    { intros h' Hown. destruct (Hlive pool a h' Hown) as (p' & Hp' & [y Hy]). congruence. }
    intros k a' h1 h2 [(E1 & Ea1 & Ek1)|[Hn1 H1]]%Hsame [(E2 & Ea2 & Ek2)|[Hn2 H2]]%Hsame.
    + congruence.
    + subst. by apply Hnew in H2.
    + subst. by apply Hnew in H1.
    + by eapply Honce.
  - intros k p' a' Hp' Ha'. destruct (decide (pool = k)) as [<-|Hk].
    + rewrite lookup_insert_eq in Hp'. injection Hp' as <-. rewrite Hobj in Ha'.
      destruct (decide (a = a')) as [<-|Hne].
      * exists h. apply Hsame. by left.
      * rewrite lookup_insert_ne in Ha' by done.
        destruct (Hall pool p a' Hp Ha') as [h' Hown]. exists h'. apply Hsame. right.
        split; [|done]. intros ->. by eapply (absent_idle _ _ Hs).
    + rewrite lookup_insert_ne in Hp' by done.
      destruct (Hall k p' a' Hp' Ha') as [h' Hown]. exists h'. apply Hsame. right.
      split; [|done]. intros ->. by eapply (absent_idle _ _ Hs).
Qed.

Lemma destroy_owned h w w' : owned w → destroy h w = Some w' → owned w'.
Proof.
  unfold destroy. intros Ho Hd.
  destruct (handles w !! h) as [hd|] eqn:Hh; [|done]. cbn in Hd.
  destruct (release hd (pools w)) as [ps|] eqn:Hrel; [|done]. injection Hd as <-.
  destruct (release_owned w h hd ps Ho Hh Hrel) as [Ho1 Hidle].
  pose proof (forget_owned _ h Ho1 Hidle) as Ho2. cbn in Ho2.
  by rewrite delete_insert_eq in Ho2.
Qed.

Lemma move_construct_owned h other w w' :
  owned w → move_construct h other w = Some w' → owned w'.
Proof.
  unfold move_construct. intros Ho Hm. case_decide as Hs; [done|].
  apply eq_None_not_Some in Hs.
  destruct (handles w !! other) as [od|] eqn:Hod; [|done]. injection Hm as <-.
  apply transfer_owned; [done|congruence|done|by apply absent_idle].
Qed.

Lemma move_assign_owned this other w w' :
  owned w → move_assign this other w = Some w' → owned w'.
Proof.
  unfold move_assign. intros Ho Hm.
  destruct (handles w !! this) as [td|] eqn:Htd; [|done]. cbn in Hm.
  destruct (handles w !! other) as [od|] eqn:Hod; [|done]. cbn in Hm.
  case_decide as Hne; [|by injection Hm as <-].
  destruct (release td (pools w)) as [ps|] eqn:Hrel; [|done]. injection Hm as <-.
  destruct (release_owned w this td ps Ho Htd Hrel) as [Ho1 Hidle].
  pose proof (transfer_owned _ this other od Ho1 Hne) as Ho2. cbn in Ho2.
  rewrite insert_insert_eq in Ho2. apply Ho2; [|done].
  by rewrite lookup_insert_ne.
Qed.

Lemma exec_all_owned (cs : list statement) w w' :
  owned w → exec_all cs w = Some w' → owned w'.
Proof.
  revert w. induction cs as [|c cs IH]; intros w Ho He; cbn in He.
  - by injection He as <-.
  - destruct (exec c w) as [w1|] eqn:Hc; [|done]. cbn in He.
    apply (IH w1); [|done].
    destruct c; cbn in Hc;
      eauto using default_owned, make_owned, destroy_owned,
                  move_construct_owned, move_assign_owned.
Qed.

(** X5.  Whatever a program does with handles (create, make, move,
    destroy), every object in a pool is held by one handle and one only,
    and every handle that is not null holds an object that is there: no
    object is released twice or used after its release.  And none is
    left behind: once every handle has been destroyed the pools hold no
    object. *)
Theorem handles_own_their_objects (cs : list statement) w w' :
  owned w → exec_all cs w = Some w' →
  owned w'
  ∧ (handles w' = ∅ → ∀ k p, pools w' !! k = Some p → MemoryPool.objects p = ∅).
Proof.
  intros Ho He. pose proof (exec_all_owned cs w w' Ho He) as Ho'.
  split; [done|]. intros Hnone k p Hp. apply map_empty. intros a.
  destruct (MemoryPool.objects p !! a) eqn:Ha; [|done].
  destruct (owned_all _ Ho' k p a Hp) as (h & hd & Hh & _); [eauto|].
  by rewrite Hnone, lookup_empty in Hh.
Qed.

End Facts.

(** One pool, named 0, and no handle. *)
Definition one_pool : store Z := mkStore {[0%nat := MemoryPool.new Z]} ∅.

Lemma one_pool_owned : owned one_pool.
Proof.
  apply owned_empty. intros k p Hp.
  apply lookup_singleton_Some in Hp as [_ <-]. done.
Qed.

Lemma handles_own_their_objects_witness :
  ∃ w', exec_all [Make 0 7 1; Default 2; MoveAssign 2 1; MoveConstruct 3 2;
                  MoveAssign 3 3; Destroy 1; Destroy 2] one_pool = Some w'
    ∧ owned w'
    ∧ (handles w' = ∅ → ∀ k p, pools w' !! k = Some p → MemoryPool.objects p = ∅).
Proof.
  eexists. split; [vm_compute; reflexivity|].
  eapply (handles_own_their_objects
            [Make 0 7 1; Default 2; MoveAssign 2 1; MoveConstruct 3 2;
             MoveAssign 3 3; Destroy 1; Destroy 2] one_pool).
  - apply one_pool_owned.
  - vm_compute. reflexivity.
Defined.

End PoolPtr.

(** ** Chains of nodes

    Both lock-free containers keep their elements in a singly linked
    chain of pool nodes.  [chain nxt m a l] says that, in the object map
    [m], following [nxt] from the node at [a] visits the addresses [l] in
    order and then reaches [nullptr]. *)

Section Chain.
Context {N : Type} (nxt : N → ptr).
Implicit Type m : gmap addr N.

Fixpoint chain m (a : addr) (l : list addr) : Prop :=
  match l with
  | [] => ∃ n, m !! a = Some n ∧ nxt n = None
  | b :: l' => ∃ n, m !! a = Some n ∧ nxt n = Some b ∧ chain m b l'
  end.

(** The last address of the chain that starts at [a]. *)
Fixpoint lastaddr (a : addr) (l : list addr) : addr :=
  match l with
  | [] => a
  | b :: l' => lastaddr b l'
  end.

Lemma lastaddr_cons a b l : lastaddr a (b :: l) = lastaddr b l.
Proof. reflexivity. Qed.

Lemma lastaddr_snoc a l c : lastaddr a (l ++ [c]) = c.
Proof. revert a. induction l as [|b l IH]; intros a; [done|]. apply IH. Qed.

Lemma lastaddr_elem a l : lastaddr a l ∈ a :: l.
Proof.
  revert a. induction l as [|b l IH]; intros a; [left|].
  rewrite lastaddr_cons. right. apply IH.
Qed.

Lemma chain_head m a l : chain m a l → is_Some (m !! a).
Proof. destruct l; intros (n & Hn & _); eauto. Qed.

Lemma chain_live m a l b : chain m a l → b ∈ a :: l → is_Some (m !! b).
Proof.
  revert a. induction l as [|c l IH]; intros a Hc Hb.
  - apply list_elem_of_singleton in Hb as ->. by eapply chain_head.
  - apply elem_of_cons in Hb as [->|Hb]; [by eapply chain_head|].
    destruct Hc as (n & _ & _ & Hc). by eapply IH.
Qed.

Lemma chain_last m a l : chain m a l → ∃ n, m !! lastaddr a l = Some n ∧ nxt n = None.
Proof.
  revert a. induction l as [|b l IH]; intros a Hc.
  - exact Hc.
  - rewrite lastaddr_cons. destruct Hc as (n & _ & _ & Hc). by apply IH.
Qed.

(** Writing a node outside the chain leaves the chain as it is. *)
Lemma chain_insert_other m a l c x :
  chain m a l → c ∉ a :: l → chain (<[c := x]> m) a l.
Proof.
  revert a. induction l as [|b l IH]; intros a Hc Hnin.
  - destruct Hc as (n & Hn & Hnx). exists n. split; [|done].
    rewrite lookup_insert_ne; [done|]. intros ->. apply Hnin. left.
  - destruct Hc as (n & Hn & Hnx & Hc). exists n. split_and!; [|done|].
    + rewrite lookup_insert_ne; [done|]. intros ->. apply Hnin. left.
    + apply IH; [done|]. intros Hin. apply Hnin. by right.
Qed.

Lemma chain_delete_other m a l c :
  chain m a l → c ∉ a :: l → chain (delete c m) a l.
Proof.
  revert a. induction l as [|b l IH]; intros a Hc Hnin.
  - destruct Hc as (n & Hn & Hnx). exists n. split; [|done].
    rewrite lookup_delete_ne; [done|]. intros ->. apply Hnin. left.
  - destruct Hc as (n & Hn & Hnx & Hc). exists n. split_and!; [|done|].
    + rewrite lookup_delete_ne; [done|]. intros ->. apply Hnin. left.
    + apply IH; [done|]. intros Hin. apply Hnin. by right.
Qed.

(** Linking a node [c] that ends a chain of its own behind the last node
    of the chain extends the chain by [c]. *)
Lemma chain_link m a l c n' :
  chain m a l → NoDup (a :: l) → c ∉ a :: l →
  (∃ x, m !! c = Some x ∧ nxt x = None) →
  nxt n' = Some c →
  chain (<[lastaddr a l := n']> m) a (l ++ [c]).
Proof.
  revert a. induction l as [|b l IH]; intros a Hc Hnd Hnin (x & Hx & Hxn) Hn'.
  - cbn. exists n'. rewrite lookup_insert_eq. split_and!; [done..|].
    exists x. split; [|done]. rewrite lookup_insert_ne; [done|].
    intros ->. apply Hnin. left.
  - destruct Hc as (n & Hn & Hnx & Hc). rewrite lastaddr_cons. cbn.
    apply NoDup_cons in Hnd as [Ha Hnd].
    exists n. split_and!; [|done|].
    + rewrite lookup_insert_ne; [done|]. intros <-. apply Ha, lastaddr_elem.
    + apply IH; eauto. intros Hin. apply Hnin. by right.
Qed.

(** Replacing a node by one with the same successor keeps the chain. *)
Lemma chain_update m a l c n n' :
  chain m a l → m !! c = Some n → nxt n' = nxt n → chain (<[c := n']> m) a l.
Proof.
  revert a. induction l as [|b l IH]; intros a Hc Hn Hnx.
  - destruct Hc as (x & Hx & Hxn). destruct (decide (c = a)) as [->|Hne].
    + exists n'. rewrite lookup_insert_eq. split; [done|]. congruence.
    + exists x. by rewrite lookup_insert_ne.
  - destruct Hc as (x & Hx & Hxn & Hc). destruct (decide (c = a)) as [->|Hne].
    + exists n'. rewrite lookup_insert_eq. split_and!; [done|congruence|by apply IH].
    + exists x. rewrite lookup_insert_ne by done. split_and!; [done|done|by apply IH].
Qed.

(** A node of the chain points into the chain. *)
Lemma chain_next_elem m a l b n x :
  chain m a l → b ∈ a :: l → m !! b = Some n → nxt n = Some x → x ∈ l.
Proof.
  revert a. induction l as [|c l IH]; intros a Hc Hb Hn Hx.
  - apply list_elem_of_singleton in Hb as ->. destruct Hc as (n0 & Hn0 & Hnx). congruence.
  - destruct Hc as (n0 & Hn0 & Hnx & Hc). apply elem_of_cons in Hb as [->|Hb].
    + assert (x = c) as -> by congruence. left.
    + right. by eapply IH.
Qed.

(** Dropping the first node leaves the chain of its successor. *)
Lemma chain_tail m a b l :
  chain m a (b :: l) → NoDup (a :: b :: l) → chain (delete a m) b l.
Proof.
  intros (n & _ & _ & Hc) Hnd. apply chain_delete_other; [done|].
  by apply NoDup_cons in Hnd as [Ha _].
Qed.

End Chain.

(** ** lockfree/mpmc_queue.hpp *)

Module MPMCQueue.

Record Node (T : Type) := mkNode { next : ptr; data : T }.
Arguments mkNode {T}.
Arguments next {T}.
Arguments data {T}.

Record t (T : Type) := mk {
  capacity_ : Z;
  size_ : Z;
  head_ : ptr;
  tail_ : ptr;
  pool_ : MemoryPool.t (Node T)
}.
Arguments mk {T}.
Arguments capacity_ {T}.
Arguments size_ {T}.
Arguments head_ {T}.
Arguments tail_ {T}.
Arguments pool_ {T}.

Section Ops.
Context {T : Type}.
(** The value-initialised [T{}] a node built by [pool_.allocate()] holds. *)
Variable T_default : T.
Implicit Type q : t T.

Definition with_pool (p : MemoryPool.t (Node T)) q : t T :=
  mk (capacity_ q) (size_ q) (head_ q) (tail_ q) p.
Definition with_size (z : Z) q : t T :=
  mk (capacity_ q) z (head_ q) (tail_ q) (pool_ q).
Definition with_head (h : ptr) q : t T :=
  mk (capacity_ q) (size_ q) h (tail_ q) (pool_ q).
Definition with_tail (tl : ptr) q : t T :=
  mk (capacity_ q) (size_ q) (head_ q) tl (pool_ q).

(** [explicit MPMCQueue(size_t capacity = 1024)] *)
Definition new (capacity : Z) : option (t T) :=
  '(dummy, pool) ← MemoryPool.allocate (mkNode None T_default) (MemoryPool.new (Node T));
  Some (mk capacity 0 (Some dummy) (Some dummy) pool).

Definition default_capacity : Z := 1024.

(** [at->next.compare_exchange_weak(expected, desired)] *)
Definition cas_next (at_ : ptr) (expected desired : ptr) q : option (bool * t T) :=
  a ← at_;
  n ← MemoryPool.objects (pool_ q) !! a;
  let '(ok, v, _) := compare_exchange (next n) expected desired in
  Some (ok, with_pool (MemoryPool.store a (mkNode v (data n)) (pool_ q)) q).

(** [tail_.compare_exchange_weak(expected, desired)]: success, the value
    left in [expected], the queue. *)
Definition cas_tail (expected desired : ptr) q : bool * ptr * t T :=
  let '(ok, v, e) := compare_exchange (tail_ q) expected desired in
  (ok, e, with_tail v q).

Definition cas_head (expected desired : ptr) q : bool * ptr * t T :=
  let '(ok, v, e) := compare_exchange (head_ q) expected desired in
  (ok, e, with_head v q).

(** The loop of [try_enqueue]; it ends at the [break] and yields the
    local [tail] with the queue. *)
Fixpoint enqueue_loop (fuel : nat) (node : addr) (tail : ptr) q : option (ptr * t T) :=
  match fuel with
  | O => None
  | S fuel =>
      tn ← MemoryPool.load tail (pool_ q);
      let next := next tn in
      if decide (tail = tail_ q) then
        match next with
        | None =>
            '(ok, q1) ← cas_next tail next (Some node) q;
            if ok : bool then Some (tail, q1)
            else enqueue_loop fuel node (tail_ q1) q1
        | Some _ =>
            let '(_, _, q1) := cas_tail tail next q in
            enqueue_loop fuel node (tail_ q1) q1
        end
      else enqueue_loop fuel node (tail_ q) q
  end.

Definition try_enqueue (fuel : nat) (value : T) q : option (bool * t T) :=
  if decide (capacity_ q ≤ size_ q) then Some (false, q)
  else
    '(node, pool1) ← MemoryPool.allocate (mkNode None T_default) (pool_ q);
    let pool2 := MemoryPool.store node (mkNode None value) pool1 in
    let q1 := with_pool pool2 q in
    '(tail, q2) ← enqueue_loop fuel node (tail_ q1) q1;
    let '(_, _, q3) := cas_tail tail (Some node) q2 in
    Some (true, with_size (fetch_add1 (size_ q3)) q3).

(** The loop of [try_dequeue].  [value] is the caller's variable, which
    every pass through the [else] branch overwrites.  The loop ends at
    [return false] ([None]) or at the [break], with the local [head]. *)
Fixpoint dequeue_loop (fuel : nat) (value : T) (head tail : ptr) q
  : option (option ptr * T * t T) :=
  match fuel with
  | O => None
  | S fuel =>
      hn ← MemoryPool.load head (pool_ q);
      let next := next hn in
      if decide (head = head_ q) then
        if decide (head = tail) then
          match next with
          | None => Some (None, value, q)
          | Some _ =>
              let '(_, tail1, q1) := cas_tail tail next q in
              dequeue_loop fuel value (head_ q1) tail1 q1
          end
        else
          nn ← MemoryPool.load next (pool_ q);
          let value := data nn in
          let '(ok, _, q1) := cas_head head next q in
          if ok : bool then Some (Some head, value, q1)
          else dequeue_loop fuel value (head_ q1) tail q1
      else dequeue_loop fuel value (head_ q) tail q
  end.

(** [bool try_dequeue(T& value)]: the result, the caller's variable
    afterwards, the queue. *)
Definition try_dequeue (fuel : nat) (value : T) q : option (bool * T * t T) :=
  if decide (size_ q = 0) then Some (false, value, q)
  else
    '(r, value, q1) ← dequeue_loop fuel value (head_ q) (tail_ q) q;
    match r with
    | None => Some (false, value, q1)
    | Some head =>
        let q2 := with_pool (MemoryPool.deallocate head (pool_ q1)) q1 in
        Some (true, value, with_size (fetch_sub1 (size_ q2)) q2)
    end.

Definition size q : Z := size_ q.
Definition empty q : bool := bool_decide (size q = 0).

End Ops.

Section Facts.
Context {T : Type}.
Variable T_default : T.
Implicit Type q : t T.
Implicit Type m : gmap addr (Node T).

(** The node at [a] carries the value [v]. *)
Definition holds m (a : addr) (v : T) : Prop :=
  ∃ n, m !! a = Some n ∧ data n = v.

(** The queue of one thread at rest: [h] is the sentinel, [l] the nodes
    behind it, oldest first, and [vs] their values. *)
Record rep q (h : addr) (l : list addr) (vs : list T) : Prop := {
  rep_head : head_ q = Some h;
  rep_tail : tail_ q = Some (lastaddr h l);
  rep_chain : chain next (MemoryPool.objects (pool_ q)) h l;
  rep_nodup : NoDup (h :: l);
  rep_values : Forall2 (holds (MemoryPool.objects (pool_ q))) l vs;
  rep_size : size_ q = Z.of_nat (length l);
  rep_capacity : 0 ≤ capacity_ q < size_t_modulus;
  rep_bound : size_ q ≤ capacity_ q;
  rep_pool : MemoryPool.wf (pool_ q)
}.

Definition is_queue q (vs : list T) : Prop := ∃ h l, rep q h l vs.

Lemma holds_mono m m' (l : list addr) vs :
  Forall2 (holds m) l vs →
  (∀ a v, a ∈ l → holds m a v → holds m' a v) →
  Forall2 (holds m') l vs.
Proof.
  induction 1 as [|a v l vs Hav _ IH]; intros Hm; constructor.
  - apply Hm; [left | done].
  - apply IH. intros b w Hb. apply Hm. by right.
Qed.

Lemma is_queue_size q vs : is_queue q vs → size_ q = Z.of_nat (length vs).
Proof.
  intros (h & l & R). rewrite (rep_size _ _ _ _ R).
  by rewrite (Forall2_length _ _ _ (rep_values _ _ _ _ R)).
Qed.

Lemma new_is_queue (capacity : Z) :
  0 ≤ capacity < size_t_modulus →
  ∃ q, new T_default capacity = Some q ∧ is_queue q [] ∧ capacity_ q = capacity.
Proof.
  intros Hc. unfold new.
  destruct (MemoryPool.allocate_spec (mkNode None T_default) (MemoryPool.new (Node T)))
    as (a & p & -> & _ & Hobj & _ & Hwf); [apply MemoryPool.new_wf|].
  eexists. split; [reflexivity|]. split; [|done].
  exists a, []. split; cbn; try done.
  - rewrite Hobj. eexists. by rewrite lookup_insert_eq.
  - apply NoDup_singleton.
  - lia.
Qed.

(** With the queue at rest the loop of [try_enqueue] links the node
    behind the last one on its first pass. *)
Lemma enqueue_loop_rest fuel node q h l tn :
  tail_ q = Some (lastaddr h l) →
  MemoryPool.objects (pool_ q) !! lastaddr h l = Some tn →
  next tn = None →
  enqueue_loop (S fuel) node (tail_ q) q =
    Some (tail_ q,
          with_pool (MemoryPool.store (lastaddr h l)
                       (mkNode (Some node) (data tn)) (pool_ q)) q).
Proof.
  intros Htl Htn Hnx. cbn [enqueue_loop].
  rewrite Htl. cbn [MemoryPool.load mbind option_bind]. rewrite Htn. cbn.
  rewrite decide_True by done. rewrite Hnx. cbn.
  rewrite Htn. cbn. rewrite Hnx, compare_exchange_eq. reflexivity.
Qed.

Lemma try_enqueue_full fuel (v : T) q :
  capacity_ q ≤ size_ q → try_enqueue T_default fuel v q = Some (false, q).
Proof. intros H. unfold try_enqueue. by rewrite decide_True. Qed.

(** An enqueue on a queue that is not full puts the value behind the
    others. *)
Lemma try_enqueue_spec fuel (v : T) q vs :
  is_queue q vs → size_ q < capacity_ q →
  ∃ q', try_enqueue T_default (S fuel) v q = Some (true, q')
    ∧ is_queue q' (vs ++ [v])
    ∧ size_ q' = size_ q + 1
    ∧ capacity_ q' = capacity_ q.
Proof.
  intros (h & l & [Hh Ht Hc Hnd Hvs Hsz Hcap Hb Hp]) Hlt.
  unfold try_enqueue. rewrite decide_False by lia.
  destruct (MemoryPool.allocate_spec (mkNode None T_default) (pool_ q) Hp)
    as (c & p1 & -> & Hfresh & Hobj & _ & Hwf1).
  cbn [mbind option_bind].
  set (p2 := MemoryPool.store c (mkNode None v) p1).
  assert (Hobj2 : MemoryPool.objects p2 = <[c := mkNode None v]> (MemoryPool.objects (pool_ q))).
  { unfold p2; cbn. by rewrite Hobj, insert_insert_eq. }
  assert (Hcnin : c ∉ h :: l).
  { intros Hin. destruct (chain_live _ _ _ _ _ Hc Hin) as [x Hx]. congruence. }
  assert (Hwf2 : MemoryPool.wf p2).
  { apply MemoryPool.store_wf; [done|]. rewrite Hobj, lookup_insert_eq. eauto. }
  destruct (chain_last _ _ _ _ Hc) as (tn & Htn & Htnx).
  assert (Hlne : lastaddr h l ≠ c).
  { intros E. apply Hcnin. rewrite <- E. apply lastaddr_elem. }
  assert (Htn2 : MemoryPool.objects p2 !! lastaddr h l = Some tn).
  { rewrite Hobj2, lookup_insert_ne; done. }
  rewrite (enqueue_loop_rest fuel c (with_pool p2 q) h l tn); [|done..].
  cbn [mbind option_bind]. unfold cas_tail. cbn [tail_ with_pool pool_].
  rewrite compare_exchange_eq.
  set (p3 := MemoryPool.store _ _ p2).
  eexists. split; [reflexivity|]. cbn [size_ with_size with_tail with_pool capacity_].
  assert (Hsz' : fetch_add1 (size_ q) = size_ q + 1).
  { unfold fetch_add1. apply wrap_small. lia. }
  rewrite Hsz'. split_and!; [|done..].
  exists h, (l ++ [c]).
  split; cbn [head_ tail_ pool_ size_ capacity_ with_size with_tail with_pool]; try done.
  - by rewrite lastaddr_snoc.
  - unfold p3; cbn [MemoryPool.store MemoryPool.objects].
    apply chain_link; [|done|done| |done].
    + rewrite Hobj2. by apply chain_insert_other.
    + exists (mkNode None v). by rewrite Hobj2, lookup_insert_eq.
  - rewrite app_comm_cons. apply NoDup_app. split_and!; [done| |apply NoDup_singleton].
    intros x Hx Hx'. apply list_elem_of_singleton in Hx' as ->. done.
  - apply Forall2_app.
    + eapply holds_mono; [exact Hvs|]. intros a w Ha (n & Hn & Hd).
      unfold p3; cbn [MemoryPool.store MemoryPool.objects]. rewrite Hobj2.
      destruct (decide (lastaddr h l = a)) as [E|Hne].
      * exists (mkNode (Some c) (data tn)). rewrite E, lookup_insert_eq. split; [done|].
        rewrite E in Htn. cbn. congruence.
      * exists n. rewrite !lookup_insert_ne; [done| |done].
        intros ->. apply Hcnin. by right.
    + constructor; [|constructor]. exists (mkNode None v).
      unfold p3; cbn [MemoryPool.store MemoryPool.objects].
      by rewrite lookup_insert_ne, Hobj2, lookup_insert_eq.
  - rewrite length_app, Hsz. cbn. lia.
  - lia.
  - unfold p3. apply MemoryPool.store_wf; [done|]. rewrite Htn2. eauto.
Qed.

Lemma try_dequeue_empty fuel (x : T) q :
  is_queue q [] → try_dequeue fuel x q = Some (false, x, q).
Proof.
  intros Hq. unfold try_dequeue. rewrite decide_True; [done|].
  by rewrite (is_queue_size _ _ Hq).
Qed.

(** A dequeue on a queue that is not empty takes the oldest value. *)
Lemma try_dequeue_spec fuel (x v : T) q vs :
  is_queue q (v :: vs) →
  ∃ q', try_dequeue (S fuel) x q = Some (true, v, q')
    ∧ is_queue q' vs
    ∧ size_ q' = size_ q - 1
    ∧ capacity_ q' = capacity_ q.
Proof.
  intros (h & l & [Hh Ht Hc Hnd Hvs Hsz Hcap Hb Hp]).
  destruct l as [|b l]; [by apply Forall2_nil_cons_inv in Hvs|].
  apply Forall2_cons in Hvs as [(nb & Hnb & Hdb) Hvs].
  destruct Hc as (hn & Hhn & Hhnx & Hc).
  pose proof Hnd as Hnd0. apply NoDup_cons in Hnd as [Hhnin Hnd].
  assert (Hne : @Some addr h ≠ Some (lastaddr h (b :: l))).
  { intros [= E]. apply Hhnin. rewrite E. apply lastaddr_elem. }
  unfold try_dequeue. rewrite decide_False by (rewrite Hsz; cbn; lia).
  cbn [dequeue_loop]. rewrite Hh, Ht.
  cbn [MemoryPool.load mbind option_bind]. rewrite Hhn. cbn [mbind option_bind].
  rewrite decide_True by done. rewrite decide_False by done.
  rewrite Hhnx. cbn [MemoryPool.load mbind option_bind]. rewrite Hnb.
  cbn [mbind option_bind]. unfold cas_head. rewrite Hh, compare_exchange_eq.
  eexists. split; [by rewrite Hdb|].
  cbn [size_ with_size with_pool with_head capacity_].
  assert (Hsz' : fetch_sub1 (size_ q) = size_ q - 1).
  { unfold fetch_sub1. apply wrap_small. rewrite Hsz in *. cbn [length] in *. lia. }
  rewrite Hsz'. split_and!; [|done..].
  exists b, l. split; cbn [head_ tail_ pool_ size_ capacity_ with_size with_pool with_head
                             MemoryPool.deallocate MemoryPool.objects]; try done.
  - eapply (chain_tail next _ h b l); [|done]. exists hn. eauto.
  - eapply holds_mono; [exact Hvs|]. intros a w Ha (n & Hn & Hd).
    exists n. split; [|done]. rewrite lookup_delete_ne; [done|].
    intros ->. apply Hhnin. by right.
  - rewrite Hsz. cbn [length]. lia.
  - lia.
  - apply MemoryPool.deallocate_wf; [done|]. rewrite Hhn. eauto.
Qed.

(** C3.  Once [size] has reached the capacity [try_enqueue] returns
    [false] and the queue it leaves is the queue it found (chain, size,
    head and tail); and in a run of one thread, at [capacity - 1] an
    enqueue succeeds and fills the queue, so the enqueue that follows is
    refused. *)
Theorem try_enqueue_at_capacity (fuel : nat) (v w : T) q vs :
  (capacity_ q ≤ size_ q → try_enqueue T_default fuel v q = Some (false, q))
  ∧ (is_queue q vs → size_ q = capacity_ q - 1 →
     ∃ q1, try_enqueue T_default (S fuel) v q = Some (true, q1)
       ∧ is_queue q1 (vs ++ [v])
       ∧ size_ q1 = capacity_ q1
       ∧ try_enqueue T_default (S fuel) w q1 = Some (false, q1)).
Proof.
  split; [apply try_enqueue_full|]. intros Hq Hsz.
  destruct (try_enqueue_spec fuel v q vs Hq) as (q1 & He & Hq1 & Hs1 & Hc1); [lia|].
  exists q1. split_and!; [done|done|lia|]. apply try_enqueue_full. lia.
Qed.


End Facts.

(** A queue of capacity 2 that holds the value 1, as the constructor and
    one [try_enqueue] leave it. *)
Definition queue_holding_1 : t Z :=
  mk 2 1 (Some 0%nat) (Some 1%nat)
     (MemoryPool.mk (seq 2 13) [0%nat]
        (<[1%nat := mkNode None 1]> (<[0%nat := mkNode (Some 1%nat) 0]> ∅)) []).

Lemma queue_holding_1_built :
  (q ← new 0 2; try_enqueue 0 1 1 q) = Some (true, queue_holding_1).
Proof. vm_compute. reflexivity. Qed.

Lemma queue_holding_1_is_queue : is_queue queue_holding_1 [1].
Proof.
  destruct (new_is_queue 0 2) as (q & Hn & Hq & Hc); [done|].
  destruct (try_enqueue_spec 0 0%nat 1 q [] Hq) as (q1 & He & Hq1 & _).
  { rewrite (is_queue_size _ _ Hq), Hc. done. }
  pose proof queue_holding_1_built as H. rewrite Hn in H. cbn in H.
  rewrite He in H. by injection H as <-.
Qed.

Lemma try_enqueue_at_capacity_witness :
  ∃ q1, try_enqueue 0 1 7 queue_holding_1 = Some (true, q1)
    ∧ is_queue q1 [1; 7]
    ∧ size_ q1 = capacity_ q1
    ∧ try_enqueue 0 1 8 q1 = Some (false, q1).
Proof.
  apply (try_enqueue_at_capacity 0 0%nat 7 8 queue_holding_1 [1]).
  - exact queue_holding_1_is_queue.
  - reflexivity.
Defined.



(** ** More on the queue: sequences of calls, the destructor, memory *)

Section Sequences.
Context {T : Type}.
Variable T_default : T.
Implicit Type q : t T.

(** The calls of one thread and what they return.  A [Dequeue] is
    [T value; queue.try_dequeue(value)] and returns the value when the
    call returns [true]. *)
Inductive call := Enqueue (v : T) | Dequeue.
Inductive answer := Enqueued (ok : bool) | Dequeued (r : option T).

Definition do_call (fuel : nat) (c : call) q : option (answer * t T) :=
  match c with
  | Enqueue v =>
      '(ok, q1) ← try_enqueue T_default fuel v q;
      Some (Enqueued ok, q1)
  | Dequeue =>
      '(ok, value, q1) ← try_dequeue fuel T_default q;
      Some (Dequeued (if ok : bool then Some value else None), q1)
  end.

Fixpoint do_calls (fuel : nat) (cs : list call) q : option (list answer * t T) :=
  match cs with
  | [] => Some ([], q)
  | c :: cs =>
      '(r, q1) ← do_call fuel c q;
      '(rs, q2) ← do_calls fuel cs q1;
      Some (r :: rs, q2)
  end.

(** The bounded first-in first-out list the queue stands for. *)
Definition fifo_call (capacity : Z) (c : call) (vs : list T) : answer * list T :=
  match c with
  | Enqueue v =>
      if decide (capacity ≤ Z.of_nat (length vs)) then (Enqueued false, vs)
      else (Enqueued true, vs ++ [v])
  | Dequeue =>
      match vs with
      | [] => (Dequeued None, [])
      | v :: vs => (Dequeued (Some v), vs)
      end
  end.

Fixpoint fifo_calls (capacity : Z) (cs : list call) (vs : list T) : list answer * list T :=
  match cs with
  | [] => ([], vs)
  | c :: cs =>
      let '(r, vs1) := fifo_call capacity c vs in
      let '(rs, vs2) := fifo_calls capacity cs vs1 in
      (r :: rs, vs2)
  end.

Lemma do_call_fifo (c : call) q vs :
  is_queue q vs →
  ∃ q', do_call 1 c q = Some ((fifo_call (capacity_ q) c vs).1, q')
    ∧ is_queue q' (fifo_call (capacity_ q) c vs).2
    ∧ capacity_ q' = capacity_ q.
Proof.
  intros Hq. pose proof (is_queue_size q vs Hq) as Hsz. destruct c as [v|]; cbn.
  - case_decide as Hfull.
    + rewrite try_enqueue_full by lia. by exists q.
    + destruct (try_enqueue_spec T_default 0 v q vs Hq) as (q' & -> & Hq' & _ & Hc); [lia|].
      by exists q'.
  - destruct vs as [|v vs].
    + rewrite try_dequeue_empty by done. by exists q.
    + destruct (try_dequeue_spec 0 T_default v q vs Hq) as (q' & -> & Hq' & _ & Hc).
      by exists q'.
Qed.

(** X6.  In a run of one thread the queue answers every sequence of
    [try_enqueue] and [try_dequeue] as a first-in first-out list bounded
    by the capacity does, and it ends as a well-formed queue that holds
    what that list holds. *)
Theorem queue_refines_bounded_fifo (cs : list call) q vs :
  is_queue q vs →
  ∃ q', do_calls 1 cs q = Some ((fifo_calls (capacity_ q) cs vs).1, q')
    ∧ is_queue q' (fifo_calls (capacity_ q) cs vs).2
    ∧ capacity_ q' = capacity_ q.
Proof.
  revert q vs. induction cs as [|c cs IH]; intros q vs Hq; cbn.
  - by exists q.
  - destruct (do_call_fifo c q vs Hq) as (q1 & -> & Hq1 & Hc1). cbn.
    destruct (fifo_call (capacity_ q) c vs) as [r vs1]. cbn in *.
    destruct (IH q1 vs1 Hq1) as (q2 & -> & Hq2 & Hc2). cbn. rewrite Hc1 in *.
    destruct (fifo_calls (capacity_ q) cs vs1) as [rs vs2]. cbn in *.
    exists q2. split_and!; [done|done|congruence].
Qed.

(** [~MPMCQueue()] *)
Fixpoint destructor (fuel : nat) q : option (t T) :=
  match fuel with
  | O => None
  | S fuel =>
      match head_ q with
      | None => Some q
      | Some node =>
          n ← MemoryPool.objects (pool_ q) !! node;
          let q1 := with_head (next n) q in
          let q2 := with_pool (MemoryPool.deallocate (Some node) (pool_ q1)) q1 in
          destructor fuel q2
      end
  end.

Lemma destructor_chain (l : list addr) :
  ∀ q h,
    head_ q = Some h →
    chain next (MemoryPool.objects (pool_ q)) h l →
    NoDup (h :: l) →
    MemoryPool.wf (pool_ q) →
    ∃ q', destructor (S (S (length l))) q = Some q'
      ∧ head_ q' = None
      ∧ MemoryPool.destroyed (pool_ q') = MemoryPool.destroyed (pool_ q) ++ h :: l
      ∧ MemoryPool.free_list_ (pool_ q') = reverse (h :: l) ++ MemoryPool.free_list_ (pool_ q)
      ∧ MemoryPool.chunks_ (pool_ q') = MemoryPool.chunks_ (pool_ q)
      ∧ MemoryPool.wf (pool_ q')
      ∧ ∀ a, MemoryPool.objects (pool_ q') !! a
             = if decide (a ∈ h :: l) then None else MemoryPool.objects (pool_ q) !! a.
Proof.
  induction l as [|b l IH]; intros q h Hh Hc Hnd Hwf.
  - destruct Hc as (n & Hn & Hnx). cbn [destructor length]. rewrite Hh, Hn. cbn.
    rewrite Hnx. eexists. split; [reflexivity|]. cbn.
    split_and!; [done..| |].
    + apply MemoryPool.deallocate_wf; eauto.
    + intros a. case_decide as Ha.
      * apply list_elem_of_singleton in Ha as ->. apply lookup_delete_eq.
      * rewrite lookup_delete_ne; [done|]. intros ->. apply Ha. left.
  - pose proof Hc as Hc0. destruct Hc as (n & Hn & Hnx & Hc).
    cbn [destructor length]. rewrite Hh, Hn. cbn [mbind option_bind].
    set (q2 := with_pool _ _).
    destruct (IH q2 b) as (q' & Hd & Hh' & Hds & Hfl & Hch & Hwf' & Hobj).
    + unfold q2. cbn. done.
    + unfold q2. cbn. by eapply chain_tail.
    + by apply NoDup_cons in Hnd as [_ ?].
    + unfold q2. cbn. apply MemoryPool.deallocate_wf; eauto.
    + exists q'. split; [exact Hd|]. unfold q2 in *.
      cbn [pool_ head_ with_pool with_head MemoryPool.deallocate MemoryPool.destroyed
           MemoryPool.free_list_ MemoryPool.chunks_ MemoryPool.objects] in *.
      split_and!; [done| | |done|done|].
      * rewrite Hds. by rewrite <- app_assoc.
      * rewrite Hfl. rewrite (reverse_cons (b :: l) h). by rewrite <- app_assoc.
      * intros a. rewrite Hobj. case_decide as Ha.
        { rewrite decide_True; [done|by right]. }
        destruct (decide (a = h)) as [->|Hne].
        { rewrite lookup_delete_eq. rewrite decide_True; [done|left]. }
        rewrite lookup_delete_ne by done. rewrite decide_False; [done|].
        intros [->|Hin]%elem_of_cons; done.
Qed.

(** X7.  The destructor walks the chain from the head and gives every
    node, the sentinel included, back to the pool, each once and in the
    order of the chain; it frees no chunk and leaves the head null. *)
Theorem destructor_returns_every_node q h l vs :
  rep q h l vs →
  ∃ q', destructor (S (S (length vs))) q = Some q'
    ∧ head_ q' = None
    ∧ MemoryPool.destroyed (pool_ q') = MemoryPool.destroyed (pool_ q) ++ h :: l
    ∧ MemoryPool.free_list_ (pool_ q') = reverse (h :: l) ++ MemoryPool.free_list_ (pool_ q)
    ∧ MemoryPool.chunks_ (pool_ q') = MemoryPool.chunks_ (pool_ q)
    ∧ MemoryPool.wf (pool_ q')
    ∧ ∀ a, a ∈ h :: l → MemoryPool.objects (pool_ q') !! a = None.
Proof.
  intros [Hh Ht Hc Hnd Hvs Hsz Hcap Hb Hp].
  rewrite <- (Forall2_length _ _ _ Hvs).
  destruct (destructor_chain l q h Hh Hc Hnd Hp)
    as (q' & Hd & Hh' & Hds & Hfl & Hch & Hwf' & Hobj).
  exists q'. split_and!; [done..|]. intros a Ha. rewrite Hobj. by rewrite decide_True.
Qed.

End Sequences.

Lemma queue_holding_1_rep : rep queue_holding_1 0%nat [1%nat] [1].
Proof.
  destruct queue_holding_1_is_queue as (h & l & R).
  pose proof (rep_head _ _ _ _ R) as Hh. injection Hh as <-.
  pose proof (rep_size _ _ _ _ R) as Hs. cbn in Hs.
  destruct l as [|b [|c l]]; cbn in Hs; try lia.
  pose proof (rep_tail _ _ _ _ R) as Ht. injection Ht as <-. done.
Qed.

Lemma queue_refines_bounded_fifo_witness :
  ∃ q', do_calls 0 1 [Enqueue 7; Enqueue 8; Dequeue; Dequeue; Dequeue] queue_holding_1
          = Some ([Enqueued true; Enqueued false; Dequeued (Some 1); Dequeued (Some 7);
                   Dequeued None], q')
    ∧ is_queue q' []
    ∧ capacity_ q' = capacity_ queue_holding_1.
Proof.
  exact (queue_refines_bounded_fifo 0 [Enqueue 7; Enqueue 8; Dequeue; Dequeue; Dequeue]
           queue_holding_1 [1] queue_holding_1_is_queue).
Defined.

Lemma destructor_returns_every_node_witness :
  ∃ q', destructor 3 queue_holding_1 = Some q'
    ∧ head_ q' = None
    ∧ MemoryPool.destroyed (pool_ q')
        = MemoryPool.destroyed (pool_ queue_holding_1) ++ [0%nat; 1%nat]
    ∧ MemoryPool.free_list_ (pool_ q')
        = reverse [0%nat; 1%nat] ++ MemoryPool.free_list_ (pool_ queue_holding_1)
    ∧ MemoryPool.chunks_ (pool_ q') = MemoryPool.chunks_ (pool_ queue_holding_1)
    ∧ MemoryPool.wf (pool_ q')
    ∧ ∀ a, a ∈ [0%nat; 1%nat] → MemoryPool.objects (pool_ q') !! a = None.
Proof.
  exact (destructor_returns_every_node queue_holding_1 0%nat [1%nat] [1] queue_holding_1_rep).
Defined.

Section Memory.
Context {T : Type}.
Variable T_default : T.
Implicit Type q : t T.

(** What a successful [try_enqueue] leaves: the node [c] the pool hands
    out, with the value, linked behind the old last node [tl]. *)
Lemma try_enqueue_shape fuel (v : T) q vs :
  is_queue q vs → size_ q < capacity_ q →
  ∃ c p1 tl tn,
    MemoryPool.allocate (mkNode None T_default) (pool_ q) = Some (c, p1)
    ∧ MemoryPool.objects (pool_ q) !! tl = Some tn
    ∧ tl ≠ c
    ∧ MemoryPool.objects (pool_ q) !! c = None
    ∧ try_enqueue T_default (S fuel) v q =
        Some (true, mk (capacity_ q) (size_ q + 1) (head_ q) (Some c)
                       (MemoryPool.store tl (mkNode (Some c) (data tn))
                          (MemoryPool.store c (mkNode None v) p1))).
Proof.
  intros (h & l & [Hh Ht Hc Hnd Hvs Hsz Hcap Hb Hp]) Hlt.
  unfold try_enqueue. rewrite decide_False by lia.
  destruct (MemoryPool.allocate_spec (mkNode None T_default) (pool_ q) Hp)
    as (c & p1 & Hal & Hfresh & Hobj & _ & Hwf1).
  rewrite Hal. cbn [mbind option_bind].
  set (p2 := MemoryPool.store c (mkNode None v) p1).
  assert (Hcnin : c ∉ h :: l).
  { intros Hin. destruct (chain_live _ _ _ _ _ Hc Hin) as [x Hx]. congruence. }
  destruct (chain_last _ _ _ _ Hc) as (tn & Htn & Htnx).
  assert (Hlne : lastaddr h l ≠ c).
  { intros E. apply Hcnin. rewrite <- E. apply lastaddr_elem. }
  assert (Htn2 : MemoryPool.objects p2 !! lastaddr h l = Some tn).
  { unfold p2; cbn. rewrite lookup_insert_ne, Hobj, lookup_insert_ne; done. }
  rewrite (enqueue_loop_rest fuel c (with_pool p2 q) h l tn); [|done..].
  cbn [mbind option_bind]. unfold cas_tail. cbn [tail_ with_pool pool_].
  rewrite compare_exchange_eq.
  exists c, p1, (lastaddr h l), tn. split_and!; [done..|].
  cbn [size_ with_size with_tail with_pool capacity_ head_ tail_ pool_].
  unfold fetch_add1. rewrite wrap_small by lia. done.
Qed.

(** What a successful [try_dequeue] leaves: the old sentinel [h] is
    given back to the pool and its successor is the sentinel. *)
Lemma try_dequeue_shape fuel (x v : T) q vs :
  is_queue q (v :: vs) →
  ∃ h b,
    head_ q = Some h
    ∧ is_Some (MemoryPool.objects (pool_ q) !! h)
    ∧ try_dequeue (S fuel) x q =
        Some (true, v, mk (capacity_ q) (size_ q - 1) (Some b) (tail_ q)
                          (MemoryPool.deallocate (Some h) (pool_ q))).
Proof.
  intros (h & l & [Hh Ht Hc Hnd Hvs Hsz Hcap Hb Hp]).
  destruct l as [|b l]; [by apply Forall2_nil_cons_inv in Hvs|].
  apply Forall2_cons in Hvs as [(nb & Hnb & Hdb) Hvs].
  destruct Hc as (hn & Hhn & Hhnx & Hc).
  apply NoDup_cons in Hnd as [Hhnin Hnd].
  assert (Hne : @Some addr h ≠ Some (lastaddr h (b :: l))).
  { intros [= E]. apply Hhnin. rewrite E. apply lastaddr_elem. }
  unfold try_dequeue. rewrite decide_False by (rewrite Hsz; cbn; lia).
  cbn [dequeue_loop]. rewrite Hh, Ht.
  cbn [MemoryPool.load mbind option_bind]. rewrite Hhn. cbn [mbind option_bind].
  rewrite decide_True by done. rewrite decide_False by done.
  rewrite Hhnx. cbn [MemoryPool.load mbind option_bind]. rewrite Hnb.
  cbn [mbind option_bind]. unfold cas_head. rewrite Hh, compare_exchange_eq.
  exists h, b. split_and!; [done|eauto|].
  cbn [mbind option_bind size_ with_size with_pool with_head capacity_ head_ tail_ pool_].
  unfold fetch_sub1. rewrite wrap_small by (rewrite Hsz in *; cbn [length] in *; lia).
  rewrite Hdb. unfold with_size, with_pool, with_head.
  cbn [size_ capacity_ head_ tail_ pool_]. by rewrite Ht.
Qed.

(** The queue keeps no node but those of its chain, and it holds no
    more chunks than its capacity calls for. *)
Record compact q : Prop := {
  compact_accounted : MemoryPool.accounted (pool_ q);
  compact_live : Z.of_nat (base.size (MemoryPool.objects (pool_ q))) = size_ q + 1;
  compact_limit : Z.of_nat (MemoryPool.limit (pool_ q)) ≤ capacity_ q + 15
}.

Lemma new_compact (capacity : Z) q :
  0 ≤ capacity → new T_default capacity = Some q → compact q.
Proof.
  intros Hc Hn. unfold new in Hn.
  destruct (MemoryPool.allocate_cases (mkNode None T_default) (MemoryPool.new (Node T)))
    as [(b & rest & Hf & _)|[_ E]]; [done|].
  rewrite E in Hn. cbn in Hn. injection Hn as <-. split; cbn.
  - unfold MemoryPool.accounted. cbn. rewrite map_size_insert_None by apply lookup_empty.
    rewrite map_size_empty. reflexivity.
  - rewrite map_size_insert_None by apply lookup_empty. by rewrite map_size_empty.
  - change (MemoryPool.limit _) with 15%nat. lia.
Qed.

Lemma do_call_compact (c : call) q vs r q' :
  is_queue q vs → compact q → do_call T_default 1 c q = Some (r, q') → compact q'.
Proof.
  intros Hq [Hacc Hlive Hlim] Hc.
  pose proof (is_queue_size q vs Hq) as Hsz.
  destruct Hq as (h0 & l0 & R0). pose proof (rep_pool _ _ _ _ R0) as Hwf.
  pose proof (rep_bound _ _ _ _ R0) as Hbound.
  assert (Hq : is_queue q vs) by (by exists h0, l0).
  destruct c as [v|]; cbn in Hc.
  - destruct (decide (capacity_ q ≤ size_ q)) as [Hfull|Hroom].
    + rewrite try_enqueue_full in Hc by done. cbn in Hc. by injection Hc as <- <-.
    + destruct (try_enqueue_shape 0 v q vs Hq) as (c & p1 & tl & tn & Hal & Htl & Hne & Hcn & He);
        [lia|].
      rewrite He in Hc. cbn in Hc. injection Hc as <- <-.
      pose proof (MemoryPool.allocate_accounted _ _ _ _ Hwf Hacc Hal) as Hacc1.
      destruct (MemoryPool.allocate_spec (mkNode None T_default) (pool_ q) Hwf)
        as (c' & p1' & Hal' & _ & Hobj & _ & _).
      rewrite Hal in Hal'. injection Hal' as <- <-.
      assert (Hs1 : base.size (MemoryPool.objects p1)
                    = S (base.size (MemoryPool.objects (pool_ q)))).
      { by rewrite Hobj, map_size_insert_None. }
      set (pf := MemoryPool.store tl _ (MemoryPool.store c _ p1)).
      assert (Hsf : base.size (MemoryPool.objects pf) = base.size (MemoryPool.objects p1)).
      { unfold pf. cbn [MemoryPool.store MemoryPool.objects].
        rewrite map_size_insert_Some.
        - rewrite map_size_insert_Some; [done|]. rewrite Hobj, lookup_insert_eq. eauto.
        - rewrite lookup_insert_ne, Hobj, lookup_insert_ne by done. eauto. }
      assert (Hlf : MemoryPool.limit pf = MemoryPool.limit p1) by done.
      assert (Hl1 : Z.of_nat (MemoryPool.limit p1) ≤ capacity_ q + 15).
      { destruct (MemoryPool.allocate_cases (mkNode None T_default) (pool_ q))
          as [(b & rest & Hf & E)|[Hf E]]; rewrite E in Hal; injection Hal as _ <-.
        - exact Hlim.
        - rewrite MemoryPool.limit_grown.
          unfold MemoryPool.accounted in Hacc. rewrite Hf in Hacc. cbn in Hacc. lia. }
      split; cbn [pool_ size_ capacity_]; fold pf.
      * unfold MemoryPool.accounted in *. rewrite Hsf, Hlf. exact Hacc1.
      * rewrite Hsf, Hs1. lia.
      * by rewrite Hlf.
  - destruct vs as [|v vs].
    + rewrite try_dequeue_empty in Hc by done. cbn in Hc. by injection Hc as <- <-.
    + destruct (try_dequeue_shape 0 T_default v q vs Hq) as (h & b & Hh & Hlv & Hd).
      rewrite Hd in Hc. cbn in Hc. injection Hc as <- <-.
      split; cbn.
      * by apply MemoryPool.deallocate_accounted.
      * assert (base.size (MemoryPool.objects (pool_ q)) ≠ 0%nat).
        { destruct Hlv as [x Hx]. by eapply map_size_ne_0_lookup_2. }
        rewrite map_size_delete_Some by done. lia.
      * done.
Qed.

(** X8.  In a run of one thread a queue of capacity [C] holds, at any
    time, one node more than it has elements, and never more than
    [C / 15 + 1] chunks of 64 KB: the nodes that [try_dequeue] gives
    back are the ones [try_enqueue] takes next. *)
Theorem queue_memory_is_bounded (cs : list call) q vs rs q' :
  is_queue q vs → compact q → do_calls T_default 1 cs q = Some (rs, q') →
  compact q'
  ∧ Z.of_nat (MemoryPool.allocated_size (pool_ q'))
      ≤ (capacity_ q' / 15 + 1) * Z.of_nat MemoryPool.chunk_size.
Proof.
  revert q vs rs q'. induction cs as [|c cs IH]; intros q vs rs q' Hq Hcomp Hd; cbn in Hd.
  - injection Hd as <- <-. split; [done|].
    pose proof (compact_limit _ Hcomp) as Hlim. unfold MemoryPool.limit in Hlim.
    rewrite MemoryPool.blocks_per_chunk_eq in Hlim.
    unfold MemoryPool.allocated_size. rewrite Nat2Z.inj_mul.
    apply Z.mul_le_mono_nonneg_r; [lia|].
    pose proof (Z.div_mod (capacity_ q) 15 ltac:(lia)).
    pose proof (Z.mod_pos_bound (capacity_ q) 15 ltac:(lia)). lia.
  - destruct (do_call T_default 1 c q) as [[r q1]|] eqn:Hc; [|done]. cbn in Hd.
    destruct (do_calls T_default 1 cs q1) as [[rs1 q2]|] eqn:Hcs; [|done]. cbn in Hd.
    injection Hd as <- <-.
    destruct (do_call_fifo T_default c q vs Hq) as (q1' & Hc' & Hq1 & _).
    rewrite Hc in Hc'. injection Hc' as _ <-.
    eapply (IH q1 _ rs1 q2 Hq1); [|exact Hcs].
    exact (do_call_compact c q vs r q1 Hq Hcomp Hc).
Qed.

End Memory.

Lemma queue_holding_1_compact : compact queue_holding_1.
Proof.
  pose proof queue_holding_1_built as Hb.
  destruct (new 0 2) as [q0|] eqn:Hn; [|done]. cbn in Hb.
  destruct (new_is_queue 0 2) as (q0' & Hn' & Hq0 & _); [done|].
  rewrite Hn in Hn'. injection Hn' as <-.
  eapply (do_call_compact 0 (Enqueue 1) q0 [] (Enqueued true)); [done| |].
  - exact (new_compact 0 2 q0 ltac:(lia) Hn).
  - cbn. by rewrite Hb.
Qed.

Lemma queue_memory_is_bounded_witness :
  ∃ rs q', do_calls 0 1 [Enqueue 7; Dequeue; Enqueue 8] queue_holding_1 = Some (rs, q')
    ∧ compact q'
    ∧ Z.of_nat (MemoryPool.allocated_size (pool_ q'))
        ≤ (capacity_ q' / 15 + 1) * Z.of_nat MemoryPool.chunk_size.
Proof.
  eexists _, _. split; [vm_compute; reflexivity|].
  eapply (queue_memory_is_bounded 0 [Enqueue 7; Dequeue; Enqueue 8] queue_holding_1 [1]).
  - exact queue_holding_1_is_queue.
  - exact queue_holding_1_compact.
  - vm_compute. reflexivity.
Defined.

End MPMCQueue.

(** ** lockfree/mpmc_channel.hpp *)

Module MPMCChannel.

Record Node (T : Type) := mkNode { next : ptr; data : T; committed : bool }.
Arguments mkNode {T}.
Arguments next {T}.
Arguments data {T}.
Arguments committed {T}.

Record t (T : Type) := mk {
  capacity_ : Z;
  size_ : Z;
  head_ : ptr;
  tail_ : ptr;
  pool_ : MemoryPool.t (Node T)
}.
Arguments mk {T}.
Arguments capacity_ {T}.
Arguments size_ {T}.
Arguments head_ {T}.
Arguments tail_ {T}.
Arguments pool_ {T}.

(** What the calling thread does between two attempts of a timed
    operation, and what it reads from [steady_clock]. *)
Inductive event :=
  | Attempt (ok : bool)
  | Yield
  | Now (time : Z).

Section Ops.
Context {T : Type}.
(** [T{}], and what [std::move] leaves in the object it moved from (the
    value itself for a trivially copyable [T]). *)
Variable T_default : T.
Variable moved_from : T → T.
Implicit Type q : t T.

(** [Node() : next(nullptr), data(T{}), committed(false) {}] *)
Definition Node_default : Node T := mkNode None T_default false.

(** [explicit Node(const T& value) : next(nullptr), data(value), committed(true) {}] *)
Definition Node_of (value : T) : Node T := mkNode None value true.

Definition with_pool (p : MemoryPool.t (Node T)) q : t T :=
  mk (capacity_ q) (size_ q) (head_ q) (tail_ q) p.
Definition with_size (z : Z) q : t T :=
  mk (capacity_ q) z (head_ q) (tail_ q) (pool_ q).
Definition with_head (h : ptr) q : t T :=
  mk (capacity_ q) (size_ q) h (tail_ q) (pool_ q).
Definition with_tail (tl : ptr) q : t T :=
  mk (capacity_ q) (size_ q) (head_ q) tl (pool_ q).

(** [explicit MPMCChannel(size_t capacity = 1024)] *)
Definition new (capacity : Z) : option (t T) :=
  '(dummy, pool) ← MemoryPool.allocate Node_default (MemoryPool.new (Node T));
  Some (mk capacity 0 (Some dummy) (Some dummy) pool).

Definition default_capacity : Z := 1024.

Definition size q : Z := size_ q.
Definition empty q : bool := bool_decide (size q = 0).
Definition capacity q : Z := capacity_ q.

(** [at->next.compare_exchange_weak(expected, desired)] *)
Definition cas_next (at_ : ptr) (expected desired : ptr) q : option (bool * t T) :=
  a ← at_;
  n ← MemoryPool.objects (pool_ q) !! a;
  let '(ok, v, _) := compare_exchange (next n) expected desired in
  Some (ok, with_pool (MemoryPool.store a (mkNode v (data n) (committed n)) (pool_ q)) q).

(** [tail_.compare_exchange_strong(expected, desired)] *)
Definition cas_tail (expected desired : ptr) q : bool * ptr * t T :=
  let '(ok, v, e) := compare_exchange (tail_ q) expected desired in
  (ok, e, with_tail v q).

(** [head_.compare_exchange_weak(expected, desired)] *)
Definition cas_head (expected desired : ptr) q : bool * ptr * t T :=
  let '(ok, v, e) := compare_exchange (head_ q) expected desired in
  (ok, e, with_head v q).

(** The first step of [try_send_impl] past the capacity test:
    [auto new_node = pool_.allocate(std::forward<U>(value));] *)
Definition send_alloc (value : T) q : option (addr * t T) :=
  '(new_node, pool1) ← MemoryPool.allocate (Node_of value) (pool_ q);
  Some (new_node, with_pool pool1 q).

(** The loop of [try_send_impl], which is left only by [return true]. *)
Fixpoint send_loop (fuel : nat) (new_node : addr) (tail nxt : ptr) q : option (t T) :=
  match fuel with
  | O => None
  | S fuel =>
      let reload q1 :=
        let tail := tail_ q1 in
        tn ← MemoryPool.load tail (pool_ q1);
        send_loop fuel new_node tail (next tn) q1 in
      if decide (tail = tail_ q) then
        match nxt with
        | None =>
            '(ok, q1) ← cas_next tail nxt (Some new_node) q;
            if ok : bool then
              let '(_, _, q2) := cas_tail tail (Some new_node) q1 in
              Some (with_size (fetch_add1 (size_ q2)) q2)
            else reload q1
        | Some _ =>
            let '(_, _, q1) := cas_tail tail nxt q in
            reload q1
        end
      else reload q
  end.

Definition try_send_impl (fuel : nat) (value : T) q : option (bool * t T) :=
  if decide (capacity_ q ≤ size_ q) then Some (false, q)
  else
    '(new_node, q1) ← send_alloc value q;
    let tail := tail_ q1 in
    tn ← MemoryPool.load tail (pool_ q1);
    q2 ← send_loop fuel new_node tail (next tn) q1;
    Some (true, q2).

(** The loop of [try_receive_impl]. *)
Fixpoint receive_loop (fuel : nat) (head nxt : ptr) q : option (option T * t T) :=
  match fuel with
  | O => None
  | S fuel =>
      let reload q1 :=
        let head := head_ q1 in
        hn ← MemoryPool.load head (pool_ q1);
        receive_loop fuel head (next hn) q1 in
      if decide (head = head_ q) then
        match nxt with
        | None => Some (None, q)
        | Some b =>
            (* T result = std::move(next->data); *)
            nn ← MemoryPool.objects (pool_ q) !! b;
            let result := data nn in
            let q0 := with_pool (MemoryPool.store b
                        (mkNode (next nn) (moved_from (data nn)) (committed nn))
                        (pool_ q)) q in
            let '(ok, _, q1) := cas_head head nxt q0 in
            if ok : bool then
              let q2 := with_pool (MemoryPool.deallocate head (pool_ q1)) q1 in
              Some (Some result, with_size (fetch_sub1 (size_ q2)) q2)
            else reload q1
        end
      else reload q
  end.

Definition try_receive_impl (fuel : nat) q : option (option T * t T) :=
  let head := head_ q in
  hn ← MemoryPool.load head (pool_ q);
  receive_loop fuel head (next hn) q.

(** [try_send(value, timeout)] and [try_receive(timeout)].  [clock k] is
    what the [k]-th call of [steady_clock::now()] by this thread returns,
    and [others k] is what the other threads do to the channel while this
    one yields for the [k]-th time.  The result comes with the events of
    the call, oldest first. *)
Section Timed.
Variable clock : nat → Z.
Variable others : nat → t T → t T.

(** The [do { } while (timeout.count() > 0 && now() < end_time)] of
    [try_send], from its [k]-th pass on. *)
Fixpoint send_attempts (fuel impl_fuel : nat) (k : nat) (value : T)
    (timeout end_time : Z) q : option (bool * t T * list event) :=
  match fuel with
  | O => None
  | S fuel =>
      '(ok, q1) ← try_send_impl impl_fuel value q;
      if ok : bool then Some (true, q1, [Attempt true])
      else if decide (0 < timeout) then
        let q2 := others k q1 in
        let now := clock (S k) in
        if decide (now < end_time) then
          '(r, q3, tr) ← send_attempts fuel impl_fuel (S k) value timeout end_time q2;
          Some (r, q3, Attempt false :: Yield :: Now now :: tr)
        else Some (false, q2, [Attempt false; Yield; Now now])
      else Some (false, q1, [Attempt false])
  end.

Definition try_send (fuel impl_fuel : nat) (value : T) (timeout : Z) q
  : option (bool * t T * list event) :=
  let end_time := clock 0 + timeout in
  '(r, q1, tr) ← send_attempts fuel impl_fuel 0 value timeout end_time q;
  Some (r, q1, Now (clock 0) :: tr).

Fixpoint receive_attempts (fuel impl_fuel : nat) (k : nat)
    (timeout end_time : Z) q : option (option T * t T * list event) :=
  match fuel with
  | O => None
  | S fuel =>
      '(result, q1) ← try_receive_impl impl_fuel q;
      match result with
      | Some _ => Some (result, q1, [Attempt true])
      | None =>
          if decide (0 < timeout) then
            let q2 := others k q1 in
            let now := clock (S k) in
            if decide (now < end_time) then
              '(r, q3, tr) ← receive_attempts fuel impl_fuel (S k) timeout end_time q2;
              Some (r, q3, Attempt false :: Yield :: Now now :: tr)
            else Some (None, q2, [Attempt false; Yield; Now now])
          else Some (None, q1, [Attempt false])
      end
  end.

Definition try_receive (fuel impl_fuel : nat) (timeout : Z) q
  : option (option T * t T * list event) :=
  let end_time := clock 0 + timeout in
  '(r, q1, tr) ← receive_attempts fuel impl_fuel 0 timeout end_time q;
  Some (r, q1, Now (clock 0) :: tr).

End Timed.

End Ops.

Section Facts.
Context {T : Type}.
Variable T_default : T.
Variable moved_from : T → T.
Implicit Type q : t T.
Implicit Type m : gmap addr (Node T).

(** The node at [a] carries the value [v] and is committed. *)
Definition holds m (a : addr) (v : T) : Prop :=
  ∃ n, m !! a = Some n ∧ data n = v ∧ committed n = true.

(** No node points to [a]. *)
Definition unlinked m (a : addr) : Prop :=
  ∀ b n, m !! b = Some n → next n ≠ Some a.

(** The channel of one thread at rest: [h] is the sentinel, [l] the
    nodes behind it, oldest first, and [vs] their values. *)
Record rep q (h : addr) (l : list addr) (vs : list T) : Prop := {
  rep_head : head_ q = Some h;
  rep_tail : tail_ q = Some (lastaddr h l);
  rep_chain : chain next (MemoryPool.objects (pool_ q)) h l;
  rep_nodup : NoDup (h :: l);
  rep_values : Forall2 (holds (MemoryPool.objects (pool_ q))) l vs;
  rep_closed : ∀ a, is_Some (MemoryPool.objects (pool_ q) !! a) → a ∈ h :: l;
  rep_size : size_ q = Z.of_nat (length l);
  rep_capacity : 0 ≤ capacity_ q < size_t_modulus;
  rep_bound : size_ q ≤ capacity_ q;
  rep_pool : MemoryPool.wf (pool_ q)
}.

Definition is_channel q (vs : list T) : Prop := ∃ h l, rep q h l vs.

Lemma holds_committed_mono m m' (l : list addr) vs :
  Forall2 (holds m) l vs →
  (∀ a v, a ∈ l → holds m a v → holds m' a v) →
  Forall2 (holds m') l vs.
Proof.
  induction 1 as [|a v l vs Hav _ IH]; intros Hm; constructor.
  - apply Hm; [left | done].
  - apply IH. intros b w Hb. apply Hm. by right.
Qed.

Lemma is_channel_size q vs : is_channel q vs → size_ q = Z.of_nat (length vs).
Proof.
  intros (h & l & R). rewrite (rep_size _ _ _ _ R).
  by rewrite (Forall2_length _ _ _ (rep_values _ _ _ _ R)).
Qed.

Lemma new_is_channel (capacity : Z) :
  0 ≤ capacity < size_t_modulus →
  ∃ q, new T_default capacity = Some q ∧ is_channel q [] ∧ capacity_ q = capacity.
Proof.
  intros Hc. unfold new.
  destruct (MemoryPool.allocate_spec (Node_default T_default) (MemoryPool.new (Node T)))
    as (a & p & -> & _ & Hobj & _ & Hwf); [apply MemoryPool.new_wf|].
  eexists. split; [reflexivity|]. split; [|done].
  exists a, []. split; cbn; try done.
  - rewrite Hobj. eexists. by rewrite lookup_insert_eq.
  - apply NoDup_singleton.
  - intros b [x Hx]. rewrite Hobj in Hx.
    destruct (decide (a = b)) as [->|Hne]; [left|].
    rewrite lookup_insert_ne in Hx by done. cbn in Hx. by rewrite lookup_empty in Hx.
  - lia.
Qed.

(** The node [send_alloc] builds is committed at once and nothing points
    to it yet. *)
Lemma send_alloc_spec (v : T) q h l vs :
  rep q h l vs →
  ∃ c q1, send_alloc v q = Some (c, q1)
    ∧ MemoryPool.objects (pool_ q) !! c = None
    ∧ (c ∉ h :: l)
    ∧ q1 = with_pool (pool_ q1) q
    ∧ MemoryPool.objects (pool_ q1) = <[c := Node_of v]> (MemoryPool.objects (pool_ q))
    ∧ MemoryPool.wf (pool_ q1).
Proof.
  intros [Hh Ht Hc Hnd Hvs Hcl Hsz Hcap Hb Hp]. unfold send_alloc.
  destruct (MemoryPool.allocate_spec (Node_of v) (pool_ q) Hp)
    as (c & p1 & -> & Hfresh & Hobj & _ & Hwf1).
  eexists _, _. split; [reflexivity|]. cbn [pool_ with_pool]. split_and!; try done.
  intros Hin. destruct (chain_live _ _ _ _ _ Hc Hin) as [x Hx]. congruence.
Qed.

Lemma try_send_impl_full fuel (v : T) q :
  capacity_ q ≤ size_ q → try_send_impl fuel v q = Some (false, q).
Proof. intros H. unfold try_send_impl. by rewrite decide_True. Qed.

Lemma try_send_impl_spec fuel (v : T) q vs :
  is_channel q vs → size_ q < capacity_ q →
  ∃ q', try_send_impl (S fuel) v q = Some (true, q')
    ∧ is_channel q' (vs ++ [v])
    ∧ size_ q' = size_ q + 1
    ∧ capacity_ q' = capacity_ q.
Proof.
  intros (h & l & R) Hlt.
  destruct (send_alloc_spec v q h l vs R) as (c & q1 & Hal & Hfresh & Hcnin & Hq1 & Hobj & Hwf1).
  destruct R as [Hh Ht Hc Hnd Hvs Hcl Hsz Hcap Hb Hp].
  unfold try_send_impl. rewrite decide_False by lia. rewrite Hal.
  cbn [mbind option_bind]. rewrite Hq1. cbn [tail_ with_pool pool_]. rewrite Ht.
  destruct (chain_last _ _ _ _ Hc) as (tn & Htn & Htnx).
  assert (Hlne : lastaddr h l ≠ c).
  { intros E. apply Hcnin. rewrite <- E. apply lastaddr_elem. }
  assert (Htn1 : MemoryPool.objects (pool_ q1) !! lastaddr h l = Some tn).
  { rewrite Hobj, lookup_insert_ne; done. }
  cbn [MemoryPool.load mbind option_bind]. rewrite Htn1. cbn [mbind option_bind].
  rewrite Htnx. cbn [send_loop tail_ with_pool]. rewrite Ht, decide_True by done.
  unfold cas_next. cbn [mbind option_bind pool_ with_pool]. rewrite Htn1.
  cbn [mbind option_bind]. rewrite Htnx, compare_exchange_eq.
  cbn [mbind option_bind].
  unfold cas_tail. cbn [tail_ with_pool]. rewrite Ht, compare_exchange_eq.
  cbn [mbind option_bind].
  set (p3 := MemoryPool.store _ _ _).
  eexists. split; [reflexivity|]. cbn [size_ with_size with_tail with_pool capacity_].
  assert (Hsz' : fetch_add1 (size_ q) = size_ q + 1).
  { unfold fetch_add1. apply wrap_small. lia. }
  rewrite Hsz'. split_and!; [|done..].
  exists h, (l ++ [c]).
  split; cbn [head_ tail_ pool_ size_ capacity_ with_size with_tail with_pool]; try done.
  - by rewrite lastaddr_snoc.
  - unfold p3; cbn [MemoryPool.store MemoryPool.objects].
    apply chain_link; [|done|done| |done].
    + rewrite Hobj. by apply chain_insert_other.
    + exists (Node_of v). by rewrite Hobj, lookup_insert_eq.
  - rewrite app_comm_cons. apply NoDup_app. split_and!; [done| |apply NoDup_singleton].
    intros x Hx Hx'. apply list_elem_of_singleton in Hx' as ->. done.
  - apply Forall2_app.
    + eapply holds_committed_mono; [exact Hvs|]. intros a w Ha (n & Hn & Hd & Hcm).
      unfold p3; cbn [MemoryPool.store MemoryPool.objects]. rewrite Hobj.
      destruct (decide (lastaddr h l = a)) as [E|Hne].
      * exists (mkNode (Some c) (data tn) (committed tn)).
        rewrite E, lookup_insert_eq. split; [done|].
        rewrite E in Htn. cbn. split; congruence.
      * exists n. rewrite !lookup_insert_ne; [done| |done].
        intros ->. apply Hcnin. by right.
    + constructor; [|constructor]. exists (Node_of v).
      unfold p3; cbn [MemoryPool.store MemoryPool.objects].
      by rewrite lookup_insert_ne, Hobj, lookup_insert_eq.
  - intros a [x Hx]. unfold p3 in Hx; cbn [MemoryPool.store MemoryPool.objects] in Hx.
    rewrite app_comm_cons, elem_of_app.
    destruct (decide (a = c)) as [->|Hac]; [right; left|]. left.
    destruct (decide (lastaddr h l = a)) as [<-|Hne]; [apply lastaddr_elem|].
    rewrite lookup_insert_ne, Hobj, lookup_insert_ne in Hx by done.
    apply Hcl. eauto.
  - rewrite length_app, Hsz. cbn. lia.
  - lia.
  - unfold p3. apply MemoryPool.store_wf; [done|]. rewrite Htn1. eauto.
Qed.

(** [try_receive_impl] hands out the value of the node behind the
    sentinel whenever there is one; the [committed] flag of that node
    plays no part. *)
Lemma try_receive_impl_linked fuel q h hn b nb :
  head_ q = Some h →
  MemoryPool.objects (pool_ q) !! h = Some hn →
  next hn = Some b →
  MemoryPool.objects (pool_ q) !! b = Some nb →
  try_receive_impl moved_from (S fuel) q =
    Some (Some (data nb),
          let p1 := MemoryPool.store b
                      (mkNode (next nb) (moved_from (data nb)) (committed nb)) (pool_ q) in
          mk (capacity_ q) (fetch_sub1 (size_ q)) (Some b) (tail_ q)
             (MemoryPool.deallocate (Some h) p1)).
Proof.
  intros Hh Hhn Hnx Hnb. unfold try_receive_impl. rewrite Hh.
  cbn [MemoryPool.load mbind option_bind]. rewrite Hhn. cbn [mbind option_bind receive_loop].
  rewrite Hh, decide_True by done. rewrite Hnx, Hnb. cbn [mbind option_bind].
  unfold cas_head. cbn [head_ with_pool]. rewrite Hh, compare_exchange_eq. reflexivity.
Qed.

Lemma try_receive_impl_empty fuel q :
  is_channel q [] → try_receive_impl moved_from (S fuel) q = Some (None, q).
Proof.
  intros (h & l & [Hh Ht Hc Hnd Hvs Hcl Hsz Hcap Hb Hp]).
  apply Forall2_nil_inv_r in Hvs as ->. destruct Hc as (hn & Hhn & Hnx).
  unfold try_receive_impl. rewrite Hh.
  cbn [MemoryPool.load mbind option_bind]. rewrite Hhn. cbn [mbind option_bind receive_loop].
  rewrite Hh, decide_True by done. by rewrite Hnx.
Qed.

Lemma try_receive_impl_spec fuel q v vs :
  is_channel q (v :: vs) →
  ∃ q', try_receive_impl moved_from (S fuel) q = Some (Some v, q')
    ∧ is_channel q' vs
    ∧ size_ q' = size_ q - 1
    ∧ capacity_ q' = capacity_ q.
Proof.
  intros (h & l & [Hh Ht Hc Hnd Hvs Hcl Hsz Hcap Hb Hp]).
  destruct l as [|b l]; [by apply Forall2_nil_cons_inv in Hvs|].
  apply Forall2_cons in Hvs as [(nb & Hnb & Hdb & Hcb) Hvs].
  pose proof Hc as Hc0. destruct Hc as (hn & Hhn & Hhnx & Hc).
  pose proof Hnd as Hnd0. apply NoDup_cons in Hnd as [Hhnin Hnd].
  pose proof Hnd as Hnd1. apply NoDup_cons in Hnd1 as [Hbnin _].
  rewrite (try_receive_impl_linked fuel q h hn b nb) by done.
  eexists. split; [by rewrite Hdb|]. cbn [size_ capacity_].
  assert (Hsz' : fetch_sub1 (size_ q) = size_ q - 1).
  { unfold fetch_sub1. apply wrap_small. rewrite Hsz in *. cbn [length] in *. lia. }
  rewrite Hsz'. split_and!; [|done..].
  assert (Hhb : h ≠ b) by (intros ->; apply Hhnin; left).
  exists b, l. split; cbn [head_ tail_ pool_ size_ capacity_
                             MemoryPool.deallocate MemoryPool.store MemoryPool.objects
                             MemoryPool.free_list_]; try done.
  - apply chain_delete_other; [|done].
    eapply chain_update; [done|done|done].
  - eapply holds_committed_mono; [exact Hvs|]. intros a w Ha (n & Hn & Hd & Hcm).
    exists n. split; [|done]. rewrite lookup_delete_ne, lookup_insert_ne; [done| |].
    + intros ->. done.
    + intros ->. apply Hhnin. by right.
  - intros a [x Hx]. destruct (decide (h = a)) as [->|Hha].
    { by rewrite lookup_delete_eq in Hx. }
    rewrite lookup_delete_ne in Hx by done.
    destruct (decide (b = a)) as [->|Hba]; [left|].
    rewrite lookup_insert_ne in Hx by done.
    assert (Ha : a ∈ h :: b :: l) by (apply Hcl; eauto).
    apply elem_of_cons in Ha as [->|Ha]; done.
  - rewrite Hsz. cbn [length]. lia.
  - lia.
  - apply (MemoryPool.deallocate_wf h (MemoryPool.store b _ (pool_ q))).
    + apply MemoryPool.store_wf; [done|]. rewrite Hnb. eauto.
    + cbn. rewrite lookup_insert_ne by done. rewrite Hhn. eauto.
Qed.

(** Every attempt on a channel at rest ends and leaves a channel at rest. *)
Lemma try_send_impl_total fuel (v : T) q vs :
  is_channel q vs →
  ∃ ok q' vs', try_send_impl (S fuel) v q = Some (ok, q') ∧ is_channel q' vs'.
Proof.
  intros Hq. destruct (decide (capacity_ q ≤ size_ q)) as [Hfull|Hroom].
  - exists false, q, vs. split; [by apply try_send_impl_full|done].
  - destruct (try_send_impl_spec fuel v q vs Hq) as (q' & He & Hq' & _); [lia|].
    by exists true, q', (vs ++ [v]).
Qed.

Lemma try_receive_impl_total fuel q vs :
  is_channel q vs →
  ∃ r q' vs', try_receive_impl moved_from (S fuel) q = Some (r, q') ∧ is_channel q' vs'.
Proof.
  intros Hq. destruct vs as [|v vs].
  - exists None, q, []. split; [by apply try_receive_impl_empty|done].
  - destruct (try_receive_impl_spec fuel q v vs Hq) as (q' & He & Hq' & _).
    by exists (Some v), q', vs.
Qed.

(** In a channel at rest every node that some node points to is
    committed. *)
Lemma linked_committed q vs b n a :
  is_channel q vs →
  MemoryPool.objects (pool_ q) !! b = Some n → next n = Some a →
  ∃ na, MemoryPool.objects (pool_ q) !! a = Some na ∧ committed na = true.
Proof.
  intros (h & l & [Hh Ht Hc Hnd Hvs Hcl Hsz Hcap Hb Hp]) Hn Hnx.
  assert (Hin : a ∈ l).
  { eapply chain_next_elem; [exact Hc| |exact Hn|exact Hnx]. apply Hcl. eauto. }
  clear -Hvs Hin. induction Hvs as [|c v l vs (nc & Hnc & _ & Hcm) _ IH].
  - by apply elem_of_nil in Hin.
  - apply elem_of_cons in Hin as [->|Hin]; eauto.
Qed.

(** C1, as amended.  A send builds its node with [committed = true]
    before the CAS that links it, while nothing points to the node yet,
    and no later step writes the flag; so in a run of one thread every
    linked node is committed.  [try_receive_impl] does not look at the
    flag: it returns the value of the node behind the sentinel whenever
    there is one, also when that node is not committed. *)
Theorem committed_at_construction (fuel : nat) (v : T) q vs :
  is_channel q vs → size_ q < capacity_ q →
  (∃ c q1, send_alloc v q = Some (c, q1)
     ∧ MemoryPool.objects (pool_ q1) !! c = Some (mkNode None v true)
     ∧ unlinked (MemoryPool.objects (pool_ q1)) c)
  ∧ (∃ q', try_send_impl (S fuel) v q = Some (true, q')
     ∧ is_channel q' (vs ++ [v])
     ∧ ∀ b n a, MemoryPool.objects (pool_ q') !! b = Some n → next n = Some a →
         ∃ na, MemoryPool.objects (pool_ q') !! a = Some na ∧ committed na = true)
  ∧ (∀ q0 h hn b nb,
       head_ q0 = Some h →
       MemoryPool.objects (pool_ q0) !! h = Some hn →
       next hn = Some b →
       MemoryPool.objects (pool_ q0) !! b = Some nb →
       committed nb = false →
       ∃ q', try_receive_impl moved_from (S fuel) q0 = Some (Some (data nb), q')).
Proof.
  intros Hq Hlt. split_and!.
  - destruct Hq as (h & l & R).
    destruct (send_alloc_spec v q h l vs R)
      as (c & q1 & Hal & Hfresh & Hcnin & Hq1 & Hobj & Hwf1).
    exists c, q1. split_and!; [done|by rewrite Hobj, lookup_insert_eq|].
    intros b n Hn Hnx. rewrite Hobj in Hn.
    destruct (decide (c = b)) as [->|Hne].
    + rewrite lookup_insert_eq in Hn. by injection Hn as <-.
    + rewrite lookup_insert_ne in Hn by done.
      apply Hcnin. right.
      eapply chain_next_elem; [exact (rep_chain _ _ _ _ R)| |exact Hn|exact Hnx].
      apply (rep_closed _ _ _ _ R). eauto.
  - destruct (try_send_impl_spec fuel v q vs Hq Hlt) as (q' & He & Hq' & _).
    exists q'. split_and!; [done..|]. intros b n a. by apply linked_committed with (vs ++ [v]).
  - intros q0 h hn b nb Hh Hhn Hnx Hnb _. eexists.
    by apply try_receive_impl_linked with hn.
Qed.

(** The timed operations.  [paced clock end_time k tr r] describes the
    events [tr] of the [do]/[while] from its [k]-th pass on, ending with
    the result [r]: a failed attempt is followed by a yield and a reading
    of the clock, and another attempt is made only if that reading is
    before [end_time]. *)
Section Timed.
Variable clock : nat → Z.
Variable others : nat → t T → t T.

Inductive paced (end_time : Z) : nat → list event → bool → Prop :=
  | paced_success k : paced end_time k [Attempt true] true
  | paced_expired k :
      end_time ≤ clock (S k) →
      paced end_time k [Attempt false; Yield; Now (clock (S k))] false
  | paced_retry k tr r :
      clock (S k) < end_time →
      paced end_time (S k) tr r →
      paced end_time k (Attempt false :: Yield :: Now (clock (S k)) :: tr) r.

Hypothesis others_ok : ∀ k q vs, is_channel q vs → ∃ vs', is_channel (others k q) vs'.

Lemma send_attempts_spec impl_fuel (v : T) timeout end_time fuel :
  0 < timeout →
  ∀ k q vs,
    is_channel q vs →
    (∃ j, (k < j ≤ k + fuel)%nat ∧ end_time ≤ clock j) →
    ∃ ok q' tr vs',
      send_attempts clock others fuel (S impl_fuel) k v timeout end_time q
        = Some (ok, q', tr)
      ∧ is_channel q' vs' ∧ paced end_time k tr ok.
Proof.
  intros Hpos. induction fuel as [|fuel IH]; intros k q vs Hq (j & Hj & Hend); [lia|].
  cbn [send_attempts].
  destruct (try_send_impl_total impl_fuel v q vs Hq) as (ok & q1 & vs1 & -> & Hq1).
  cbn [mbind option_bind]. destruct ok.
  - exists true, q1, [Attempt true], vs1. split_and!; [done..|constructor].
  - rewrite decide_True by done.
    destruct (others_ok k q1 vs1 Hq1) as (vs2 & Hq2).
    destruct (decide (clock (S k) < end_time)) as [Hlt|Hge].
    + destruct (IH (S k) _ vs2 Hq2) as (ok & q3 & tr & vs3 & -> & Hq3 & Hp).
      { exists j. split; [|done]. destruct (decide (j = S k)) as [->|]; lia. }
      cbn [mbind option_bind]. eexists _, _, _, vs3. split_and!; [done..|].
      by constructor.
    + eexists _, _, _, vs2. split_and!; [done..|]. constructor. lia.
Qed.

Lemma receive_attempts_spec impl_fuel timeout end_time fuel :
  0 < timeout →
  ∀ k q vs,
    is_channel q vs →
    (∃ j, (k < j ≤ k + fuel)%nat ∧ end_time ≤ clock j) →
    ∃ r q' tr vs',
      receive_attempts moved_from clock others fuel (S impl_fuel) k timeout end_time q
        = Some (r, q', tr)
      ∧ is_channel q' vs' ∧ paced end_time k tr (bool_decide (is_Some r)).
Proof.
  intros Hpos. induction fuel as [|fuel IH]; intros k q vs Hq (j & Hj & Hend); [lia|].
  cbn [receive_attempts].
  destruct (try_receive_impl_total impl_fuel q vs Hq) as (r & q1 & vs1 & -> & Hq1).
  cbn [mbind option_bind]. destruct r as [x|].
  - exists (Some x), q1, [Attempt true], vs1. split_and!; [done..|constructor].
  - rewrite decide_True by done.
    destruct (others_ok k q1 vs1 Hq1) as (vs2 & Hq2).
    destruct (decide (clock (S k) < end_time)) as [Hlt|Hge].
    + destruct (IH (S k) _ vs2 Hq2) as (r & q3 & tr & vs3 & -> & Hq3 & Hp).
      { exists j. split; [|done]. destruct (decide (j = S k)) as [->|]; lia. }
      cbn [mbind option_bind]. eexists _, _, _, vs3. split_and!; [done..|].
      by constructor.
    + eexists _, _, _, vs2. split_and!; [done..|]. constructor. lia.
Qed.

(** C8.  With a zero timeout [try_send] and [try_receive] make one
    attempt and return its outcome, without yielding and without reading
    the clock again.  With a positive timeout a failed attempt is followed
    by a yield, and the next attempt is made only if the clock then reads
    less than the deadline; once the clock has reached the deadline the
    call returns its failure.  Either way the call ends and leaves a
    well-formed channel. *)
Theorem timed_operations_end (fuel impl_fuel : nat) (v : T) (timeout : Z) q vs :
  is_channel q vs →
  0 ≤ timeout →
  (0 < timeout → ∃ j, (0 < j ≤ S fuel)%nat ∧ clock 0 + timeout ≤ clock j) →
  (∃ ok q' tr vs',
     try_send clock others (S fuel) (S impl_fuel) v timeout q
       = Some (ok, q', Now (clock 0) :: tr)
     ∧ is_channel q' vs'
     ∧ (timeout = 0 →
          tr = [Attempt ok] ∧ try_send_impl (S impl_fuel) v q = Some (ok, q'))
     ∧ (0 < timeout → paced (clock 0 + timeout) 0%nat tr ok))
  ∧ (∃ r q' tr vs',
     try_receive moved_from clock others (S fuel) (S impl_fuel) timeout q
       = Some (r, q', Now (clock 0) :: tr)
     ∧ is_channel q' vs'
     ∧ (timeout = 0 →
          tr = [Attempt (bool_decide (is_Some r))]
          ∧ try_receive_impl moved_from (S impl_fuel) q = Some (r, q'))
     ∧ (0 < timeout → paced (clock 0 + timeout) 0%nat tr (bool_decide (is_Some r)))).
Proof.
  intros Hq Hnn Hclock. destruct (decide (timeout = 0)) as [->|Hne].
  - split.
    + destruct (try_send_impl_total impl_fuel v q vs Hq) as (ok & q1 & vs1 & He & Hq1).
      exists ok, q1, [Attempt ok], vs1. unfold try_send. cbn [send_attempts]. rewrite He.
      cbn [mbind option_bind]. destruct ok; (split_and!; [done|done|done|lia]).
    + destruct (try_receive_impl_total impl_fuel q vs Hq) as (r & q1 & vs1 & He & Hq1).
      exists r, q1, [Attempt (bool_decide (is_Some r))], vs1.
      unfold try_receive. cbn [receive_attempts]. rewrite He.
      cbn [mbind option_bind]. destruct r; (split_and!; [done|done|done|lia]).
  - assert (Hpos : 0 < timeout) by lia. destruct (Hclock Hpos) as (j & Hj & Hend).
    split.
    + destruct (send_attempts_spec impl_fuel v timeout (clock 0 + timeout) (S fuel) Hpos
                  0%nat q vs Hq) as (ok & q' & tr & vs' & He & Hq' & Hp).
      { exists j. split; [lia|done]. }
      exists ok, q', tr, vs'. unfold try_send. rewrite He. split_and!; done.
    + destruct (receive_attempts_spec impl_fuel timeout (clock 0 + timeout) (S fuel) Hpos
                  0%nat q vs Hq) as (r & q' & tr & vs' & He & Hq' & Hp).
      { exists j. split; [lia|done]. }
      exists r, q', tr, vs'. unfold try_receive. rewrite He. split_and!; done.
Qed.

End Timed.

End Facts.

(** ** The channel as one thread sees it *)

Section Lifecycle.
Context {T : Type}.
Variable T_default : T.
Variable moved_from : T → T.
Variable clock : nat → Z.
Variable others : nat → t T → t T.
Implicit Type q : t T.

(** [channel.try_send(v)] and [channel.try_receive()], the timeout left
    at its default of 0 ms. *)
Inductive call := Send (value : T) | Receive.
Inductive answer := Sent (ok : bool) | Received (value : option T).

Definition do_call (c : call) q : option (answer * t T) :=
  match c with
  | Send v =>
      '(ok, q1, _) ← try_send clock others 1 1 v 0 q;
      Some (Sent ok, q1)
  | Receive =>
      '(r, q1, _) ← try_receive moved_from clock others 1 1 0 q;
      Some (Received r, q1)
  end.

Fixpoint do_calls (cs : list call) q : option (list answer * t T) :=
  match cs with
  | [] => Some ([], q)
  | c :: cs =>
      '(r, q1) ← do_call c q;
      '(rs, q2) ← do_calls cs q1;
      Some (r :: rs, q2)
  end.

(** A first-in first-out list of at most [capacity] values. *)
Definition fifo_call (capacity : Z) (c : call) (vs : list T) : answer * list T :=
  match c with
  | Send v =>
      if decide (capacity ≤ Z.of_nat (length vs)) then (Sent false, vs)
      else (Sent true, vs ++ [v])
  | Receive =>
      match vs with
      | [] => (Received None, [])
      | v :: vs => (Received (Some v), vs)
      end
  end.

Fixpoint fifo_calls (capacity : Z) (cs : list call) (vs : list T) : list answer * list T :=
  match cs with
  | [] => ([], vs)
  | c :: cs =>
      let '(r, vs1) := fifo_call capacity c vs in
      let '(rs, vs2) := fifo_calls capacity cs vs1 in
      (r :: rs, vs2)
  end.

Lemma channel_call_fifo (c : call) q vs :
  is_channel q vs →
  ∃ q', do_call c q = Some ((fifo_call (capacity_ q) c vs).1, q')
    ∧ is_channel q' (fifo_call (capacity_ q) c vs).2
    ∧ capacity_ q' = capacity_ q.
Proof.
  intros Hq. pose proof (is_channel_size q vs Hq) as Hsz.
  destruct c as [v|]; unfold do_call, fifo_call, try_send, try_receive;
    cbn [send_attempts receive_attempts].
  - destruct (decide (capacity_ q ≤ Z.of_nat (length vs))) as [Hfull|Hfull].
    + rewrite try_send_impl_full by lia. by exists q.
    + destruct (try_send_impl_spec 0 v q vs Hq) as (q' & -> & Hq' & _ & Hc); [lia|].
      by exists q'.
  - destruct vs as [|v vs].
    + rewrite (try_receive_impl_empty moved_from 0 q Hq). by exists q.
    + destruct (try_receive_impl_spec moved_from 0 q v vs Hq) as (q' & -> & Hq' & _ & Hc).
      by exists q'.
Qed.

Lemma channel_calls_fifo (cs : list call) q vs :
  is_channel q vs →
  ∃ q', do_calls cs q = Some ((fifo_calls (capacity_ q) cs vs).1, q')
    ∧ is_channel q' (fifo_calls (capacity_ q) cs vs).2
    ∧ capacity_ q' = capacity_ q.
Proof.
  revert q vs. induction cs as [|c cs IH]; intros q vs Hq; cbn [do_calls fifo_calls].
  - by exists q.
  - destruct (channel_call_fifo c q vs Hq) as (q1 & -> & Hq1 & Hc1).
    cbn [mbind option_bind].
    destruct (fifo_call (capacity_ q) c vs) as [r vs1]. cbn [fst snd] in *.
    destruct (IH q1 vs1 Hq1) as (q2 & -> & Hq2 & Hc2). cbn [mbind option_bind].
    rewrite Hc1 in *.
    destruct (fifo_calls (capacity_ q) cs vs1) as [rs vs2]. cbn [fst snd] in *.
    exists q2. split_and!; [done|done|congruence].
Qed.

(** X9.  Used with its default timeout by one thread, the channel answers
    every sequence of [try_send] and [try_receive] as a first-in
    first-out list bounded by the capacity does: a send is refused
    exactly when the list is full, a receive returns the oldest value
    not yet received, and what the clock reads or what [moved_from]
    leaves behind in a node plays no part. *)
Theorem channel_refines_bounded_fifo (cs : list call) q vs :
  is_channel q vs →
  ∃ q', do_calls cs q = Some ((fifo_calls (capacity_ q) cs vs).1, q')
    ∧ is_channel q' (fifo_calls (capacity_ q) cs vs).2
    ∧ size q' = Z.of_nat (length (fifo_calls (capacity_ q) cs vs).2)
    ∧ capacity q' = capacity q.
Proof.
  intros Hq. destruct (channel_calls_fifo cs q vs Hq) as (q' & Hd & Hq' & Hc).
  exists q'. split_and!; [done|done| |done]. by apply is_channel_size.
Qed.

(** [~MPMCChannel()] *)
Fixpoint destructor (fuel : nat) q : option (t T) :=
  match fuel with
  | O => None
  | S fuel =>
      match head_ q with
      | None => Some q
      | Some node =>
          n ← MemoryPool.objects (pool_ q) !! node;
          let q1 := with_head (next n) q in
          let q2 := with_pool (MemoryPool.deallocate (Some node) (pool_ q1)) q1 in
          destructor fuel q2
      end
  end.

Lemma channel_destructor_chain (l : list addr) :
  ∀ q h,
    head_ q = Some h →
    chain next (MemoryPool.objects (pool_ q)) h l →
    NoDup (h :: l) →
    ∃ q', destructor (S (S (length l))) q = Some q'
      ∧ head_ q' = None
      ∧ MemoryPool.chunks_ (pool_ q') = MemoryPool.chunks_ (pool_ q)
      ∧ length (MemoryPool.free_list_ (pool_ q'))
        = (length (MemoryPool.free_list_ (pool_ q)) + S (length l))%nat
      ∧ ∀ a, MemoryPool.objects (pool_ q') !! a
             = if decide (a ∈ h :: l) then None else MemoryPool.objects (pool_ q) !! a.
Proof.
  induction l as [|b l IH]; intros q h Hh Hc Hnd.
  - destruct Hc as (n & Hn & Hnx). cbn [destructor length]. rewrite Hh, Hn.
    cbn [mbind option_bind]. rewrite Hnx. eexists. split; [reflexivity|].
    cbn [head_ pool_ with_head with_pool MemoryPool.deallocate MemoryPool.chunks_
         MemoryPool.free_list_ MemoryPool.objects length].
    split_and!; [done|done|lia|].
    intros a. case_decide as Ha.
    + apply list_elem_of_singleton in Ha as ->. apply lookup_delete_eq.
    + rewrite lookup_delete_ne; [done|]. intros ->. apply Ha. left.
  - pose proof Hc as Hc0. destruct Hc as (n & Hn & Hnx & Hc).
    cbn [destructor length]. rewrite Hh, Hn. cbn [mbind option_bind].
    set (q2 := with_pool _ _).
    destruct (IH q2 b) as (q' & Hd & Hh' & Hch & Hfl & Hobj).
    + unfold q2. cbn [head_ with_pool with_head]. done.
    + unfold q2. cbn [pool_ with_pool with_head MemoryPool.deallocate MemoryPool.objects].
      by eapply chain_tail.
    + by apply NoDup_cons in Hnd as [_ ?].
    + exists q'. split; [exact Hd|]. unfold q2 in *.
      cbn [pool_ head_ with_pool with_head MemoryPool.deallocate
           MemoryPool.free_list_ MemoryPool.chunks_ MemoryPool.objects length] in *.
      split_and!; [done|done|lia|].
      intros a. rewrite Hobj. case_decide as Ha.
      { rewrite decide_True; [done|by right]. }
      destruct (decide (a = h)) as [->|Hne].
      { rewrite lookup_delete_eq. rewrite decide_True; [done|left]. }
      rewrite lookup_delete_ne by done. rewrite decide_False; [done|].
      intros [->|Hin]%elem_of_cons; done.
Qed.

(** X10.  A channel that is built, used by one thread in any way and then
    destroyed has given every node back: the destructor ends with a null
    head and a pool that holds no object, whatever was still waiting to
    be received, and the pool keeps its chunks. *)
Theorem channel_leaves_no_node (capacity : Z) (cs : list call) :
  0 ≤ capacity < size_t_modulus →
  ∃ q0 q1 q2,
    new T_default capacity = Some q0
    ∧ do_calls cs q0 = Some ((fifo_calls capacity cs []).1, q1)
    ∧ destructor (S (S (length (fifo_calls capacity cs []).2))) q1 = Some q2
    ∧ head_ q2 = None
    ∧ MemoryPool.objects (pool_ q2) = ∅
    ∧ MemoryPool.chunks_ (pool_ q2) = MemoryPool.chunks_ (pool_ q1).
Proof.
  intros Hcap.
  destruct (new_is_channel T_default capacity Hcap) as (q0 & Hn & Hq0 & Hc0).
  destruct (channel_calls_fifo cs q0 [] Hq0) as (q1 & Hd & (h & l & R) & Hc1).
  rewrite Hc0 in Hd, R.
  destruct R as [Hh Ht Hc Hnd Hvs Hcl Hsz Hcp Hb Hp].
  destruct (channel_destructor_chain l q1 h Hh Hc Hnd) as (q2 & Hx & Hh2 & Hch & _ & Hobj).
  rewrite (Forall2_length _ _ _ Hvs) in Hx.
  exists q0, q1, q2. split_and!; [done..| |done].
  apply map_eq. intros a. rewrite Hobj, lookup_empty. case_decide as Ha; [done|].
  destruct (MemoryPool.objects (pool_ q1) !! a) eqn:E; [|done].
  exfalso. apply Ha, Hcl. by rewrite E.
Qed.

(** How many attempts a timed call made. *)
Fixpoint attempts (tr : list event) : nat :=
  match tr with
  | [] => 0
  | Attempt _ :: tr => S (attempts tr)
  | _ :: tr => attempts tr
  end.

Lemma send_attempts_full impl_fuel (v : T) timeout end_time (j : nat) :
  (∀ k q, capacity_ q ≤ size_ q → capacity_ (others k q) ≤ size_ (others k q)) →
  0 < timeout →
  end_time ≤ clock j →
  ∀ fuel k q,
    capacity_ q ≤ size_ q →
    (k < j ≤ k + fuel)%nat →
    (∀ i, (k < i < j)%nat → clock i < end_time) →
    ∃ q' tr,
      send_attempts clock others fuel impl_fuel k v timeout end_time q
        = Some (false, q', tr)
      ∧ capacity_ q' ≤ size_ q'
      ∧ attempts tr = (j - k)%nat
      ∧ last tr = Some (Now (clock j)).
Proof.
  intros Hothers Hpos Hend. induction fuel as [|fuel IH]; intros k q Hfull Hj Hlt; [lia|].
  cbn [send_attempts]. rewrite try_send_impl_full by done. cbn [mbind option_bind].
  rewrite decide_True by done.
  destruct (decide (j = S k)) as [->|Hne].
  - rewrite decide_False by lia. eexists _, _. split; [reflexivity|].
    split_and!; [by apply Hothers| |done]. cbn [attempts]. lia.
  - rewrite decide_True by (apply Hlt; lia).
    destruct (IH (S k) (others k q)) as (q' & tr & -> & Hq' & Ha & Hl);
      [by apply Hothers|lia|intros i Hi; apply Hlt; lia|].
    cbn [mbind option_bind]. eexists _, _. split; [reflexivity|].
    split_and!; [done| |].
    + cbn [attempts]. rewrite Ha. lia.
    + destruct tr as [|e tr]; [done|]. exact Hl.
Qed.

(** X11.  A sender with a positive timeout, on a channel that is full and that
    the other threads keep full, has nothing to wait for: it attempts
    once before every reading of the clock up to the first one that is not
    before the deadline, [j] attempts in all, and returns false. *)
Theorem full_channel_send_times_out fuel impl_fuel (v : T) timeout (j : nat) q :
  (∀ k q, capacity_ q ≤ size_ q → capacity_ (others k q) ≤ size_ (others k q)) →
  capacity_ q ≤ size_ q →
  0 < timeout →
  (0 < j ≤ fuel)%nat →
  clock 0 + timeout ≤ clock j →
  (∀ i, (0 < i < j)%nat → clock i < clock 0 + timeout) →
  ∃ q' tr,
    try_send clock others fuel impl_fuel v timeout q = Some (false, q', tr)
    ∧ capacity_ q' ≤ size_ q'
    ∧ attempts tr = j
    ∧ last tr = Some (Now (clock j)).
Proof.
  intros Hothers Hfull Hpos Hj Hend Hlt. unfold try_send.
  destruct (send_attempts_full impl_fuel v timeout (clock 0 + timeout) j Hothers Hpos Hend
              fuel 0%nat q Hfull) as (q' & tr & -> & Hq' & Ha & Hl); [lia|done|].
  cbn [mbind option_bind]. eexists _, _. split; [reflexivity|].
  split_and!; [done| |].
  - cbn [attempts]. lia.
  - destruct tr as [|e tr]; [done|]. exact Hl.
Qed.

Lemma receive_attempts_empty impl_fuel timeout end_time (j : nat) :
  (∀ k q, is_channel q [] → is_channel (others k q) []) →
  0 < timeout →
  end_time ≤ clock j →
  ∀ fuel k q,
    is_channel q [] →
    (k < j ≤ k + fuel)%nat →
    (∀ i, (k < i < j)%nat → clock i < end_time) →
    ∃ q' tr,
      receive_attempts moved_from clock others fuel (S impl_fuel) k timeout end_time q
        = Some (None, q', tr)
      ∧ is_channel q' []
      ∧ attempts tr = (j - k)%nat
      ∧ last tr = Some (Now (clock j)).
Proof.
  intros Hothers Hpos Hend. induction fuel as [|fuel IH]; intros k q Hq Hj Hlt; [lia|].
  cbn [receive_attempts]. rewrite (try_receive_impl_empty moved_from impl_fuel q Hq).
  cbn [mbind option_bind]. rewrite decide_True by done.
  destruct (decide (j = S k)) as [->|Hne].
  - rewrite decide_False by lia. eexists _, _. split; [reflexivity|].
    split_and!; [by apply Hothers| |done]. cbn [attempts]. lia.
  - rewrite decide_True by (apply Hlt; lia).
    destruct (IH (S k) (others k q)) as (q' & tr & -> & Hq' & Ha & Hl);
      [by apply Hothers|lia|intros i Hi; apply Hlt; lia|].
    cbn [mbind option_bind]. eexists _, _. split; [reflexivity|].
    split_and!; [done| |].
    + cbn [attempts]. rewrite Ha. lia.
    + destruct tr as [|e tr]; [done|]. exact Hl.
Qed.

(** X12.  A receiver with a positive timeout, on an empty channel to which
    nobody sends, attempts once before every reading of the clock up to
    the first one that is not before the deadline, and returns no value;
    the channel is as empty as before. *)
Theorem empty_channel_receive_times_out fuel impl_fuel timeout (j : nat) q :
  (∀ k q, is_channel q [] → is_channel (others k q) []) →
  is_channel q [] →
  0 < timeout →
  (0 < j ≤ fuel)%nat →
  clock 0 + timeout ≤ clock j →
  (∀ i, (0 < i < j)%nat → clock i < clock 0 + timeout) →
  ∃ q' tr,
    try_receive moved_from clock others fuel (S impl_fuel) timeout q = Some (None, q', tr)
    ∧ is_channel q' []
    ∧ attempts tr = j
    ∧ last tr = Some (Now (clock j)).
Proof.
  intros Hothers Hq Hpos Hj Hend Hlt. unfold try_receive.
  destruct (receive_attempts_empty impl_fuel timeout (clock 0 + timeout) j Hothers Hpos Hend
              fuel 0%nat q Hq) as (q' & tr & -> & Hq' & Ha & Hl); [lia|done|].
  cbn [mbind option_bind]. eexists _, _. split; [reflexivity|].
  split_and!; [done| |].
  - cbn [attempts]. lia.
  - destruct tr as [|e tr]; [done|]. exact Hl.
Qed.

End Lifecycle.

(** The channel the constructor builds for capacity 4, and a channel
    whose sentinel points to a node that is not committed. *)
Definition empty_channel : t Z :=
  mk 4 0 (Some 0%nat) (Some 0%nat)
     (MemoryPool.mk (seq 1 14) [0%nat] (<[0%nat := mkNode None 0 false]> ∅) []).

Definition uncommitted_channel : t Z :=
  mk 4 1 (Some 0%nat) (Some 1%nat)
     (MemoryPool.mk (seq 2 13) [0%nat]
        (<[1%nat := mkNode None 7 false]> (<[0%nat := mkNode (Some 1%nat) 0 false]> ∅)) []).

Lemma empty_channel_built : new 0 4 = Some empty_channel.
Proof. vm_compute. reflexivity. Qed.

Lemma empty_channel_is_channel : is_channel empty_channel [].
Proof.
  destruct (new_is_channel 0 4) as (q & Hn & Hq & _); [done|].
  rewrite empty_channel_built in Hn. by injection Hn as <-.
Qed.

Lemma committed_at_construction_witness :
  ∃ c q1, send_alloc 7 empty_channel = Some (c, q1)
    ∧ MemoryPool.objects (pool_ q1) !! c = Some (mkNode None 7 true)
    ∧ unlinked (MemoryPool.objects (pool_ q1)) c.
Proof.
  apply (committed_at_construction (λ x, x) 0%nat 7 empty_channel []
           empty_channel_is_channel).
  reflexivity.
Defined.

(** C1 as stated fails.  In the channel the constructor leaves, the node
    a send of 7 builds is committed before any CAS: its flag is set while
    the sentinel, the only other node, still has no successor.  And a
    receive on a channel whose first node is linked but not committed
    returns the value of that node. *)
Lemma committed_before_link_and_never_read :
  (∃ q1, send_alloc 7 empty_channel = Some (1%nat, q1)
     ∧ MemoryPool.objects (pool_ q1) !! 1%nat = Some (mkNode None 7 true)
     ∧ MemoryPool.objects (pool_ q1) !! 0%nat = Some (mkNode None 0 false)
     ∧ head_ q1 = Some 0%nat ∧ tail_ q1 = Some 0%nat)
  ∧ MemoryPool.objects (pool_ uncommitted_channel) !! 0%nat
      = Some (mkNode (Some 1%nat) 0 false)
  ∧ MemoryPool.objects (pool_ uncommitted_channel) !! 1%nat
      = Some (mkNode None 7 false)
  ∧ ∃ q', try_receive_impl (λ x, x) 1 uncommitted_channel = Some (Some 7, q').
Proof.
  split_and!.
  - eexists. split_and!; [vm_compute; reflexivity | done..].
  - done.
  - done.
  - eexists. vm_compute. reflexivity.
Qed.

(** A clock that advances by 10 at every reading, and other threads that
    leave the channel alone. *)
Definition clock10 (k : nat) : Z := 10 * Z.of_nat k.
Definition idle (k : nat) (q : t Z) : t Z := q.

Lemma timed_operations_end_witness :
  ∃ r q' tr vs',
    try_receive (λ x, x) clock10 idle 3 1 25 empty_channel
      = Some (r, q', Now (clock10 0) :: tr)
    ∧ is_channel q' vs'
    ∧ (25 = 0 →
         tr = [Attempt (bool_decide (is_Some r))]
         ∧ try_receive_impl (λ x, x) 1 empty_channel = Some (r, q'))
    ∧ (0 < 25 → paced clock10 (clock10 0 + 25) 0%nat tr (bool_decide (is_Some r))).
Proof.
  refine (proj2 (timed_operations_end (λ x, x) clock10 idle _ 2 0 7 25
                   empty_channel [] empty_channel_is_channel _ _)).
  - intros k q vs Hq. by exists vs.
  - lia.
  - intros _. exists 3%nat. split; [lia|]. vm_compute. discriminate.
Defined.

Lemma channel_refines_bounded_fifo_witness :
  ∃ q', do_calls (λ x, x) clock10 idle [Receive; Send 5; Send 6; Receive] empty_channel
          = Some ([Received None; Sent true; Sent true; Received (Some 5)], q')
    ∧ is_channel q' [6]
    ∧ size q' = 1
    ∧ capacity q' = capacity empty_channel.
Proof.
  exact (channel_refines_bounded_fifo (λ x, x) clock10 idle
           [Receive; Send 5; Send 6; Receive] empty_channel []
           empty_channel_is_channel).
Defined.

Lemma channel_leaves_no_node_witness :
  ∃ q0 q1 q2,
    new 0 1 = Some q0
    ∧ do_calls (λ x, x) clock10 idle [Send 5; Send 6; Receive; Send 7] q0
        = Some ([Sent true; Sent false; Received (Some 5); Sent true], q1)
    ∧ destructor 3 q1 = Some q2
    ∧ head_ q2 = None
    ∧ MemoryPool.objects (pool_ q2) = ∅
    ∧ MemoryPool.chunks_ (pool_ q2) = MemoryPool.chunks_ (pool_ q1).
Proof.
  apply (channel_leaves_no_node 0 (λ x, x) clock10 idle 1
           [Send 5; Send 6; Receive; Send 7]).
  done.
Defined.

(** A channel of capacity 0, which is full from the start. *)
Definition closed_channel : t Z :=
  mk 0 0 (Some 0%nat) (Some 0%nat)
     (MemoryPool.mk (seq 1 14) [0%nat] (<[0%nat := mkNode None 0 false]> ∅) []).

Lemma closed_channel_built : new 0 0 = Some closed_channel.
Proof. vm_compute. reflexivity. Qed.

Lemma full_channel_send_times_out_witness :
  ∃ q' tr,
    try_send clock10 idle 5 1 7 25 closed_channel = Some (false, q', tr)
    ∧ capacity_ q' ≤ size_ q'
    ∧ attempts tr = 3%nat
    ∧ last tr = Some (Now (clock10 3)).
Proof.
  apply (full_channel_send_times_out clock10 idle 5 1 7 25 3 closed_channel).
  - intros k q Hq. exact Hq.
  - vm_compute. discriminate.
  - lia.
  - lia.
  - vm_compute. discriminate.
  - intros i Hi. unfold clock10. lia.
Defined.

Lemma empty_channel_receive_times_out_witness :
  ∃ q' tr,
    try_receive (λ x, x) clock10 idle 5 1 25 empty_channel = Some (None, q', tr)
    ∧ is_channel q' []
    ∧ attempts tr = 3%nat
    ∧ last tr = Some (Now (clock10 3)).
Proof.
  apply (empty_channel_receive_times_out (λ x, x) clock10 idle 5 0 25 3 empty_channel).
  - intros k q Hq. exact Hq.
  - exact empty_channel_is_channel.
  - lia.
  - lia.
  - vm_compute. discriminate.
  - intros i Hi. unfold clock10. lia.
Defined.

End MPMCChannel.

(** ** std::priority_queue

    Both schedulers keep their tasks in a [std::priority_queue] ordered
    by the task's [operator<].  The standard fixes what the container
    holds and that [top()] is an element no other element is greater
    than; which of several equivalent elements comes first is left to the
    implementation.  The schedulers are therefore modelled over any
    container with this interface, and [list_priority_queue] below is one
    such container to compute with.  [pq_elems] is the collection of the
    elements held, in no particular order. *)

Class PriorityQueue (E : Type) (less : E → E → bool) (Q : Type) := {
  pq_new : Q;
  pq_push : E → Q → Q;
  pq_top : Q → option E;
  pq_pop : Q → Q;
  pq_size : Q → nat;
  pq_elems : Q → list E;
  pq_new_elems : pq_elems pq_new = [];
  pq_size_elems q : pq_size q = length (pq_elems q);
  pq_push_elems x q : pq_elems (pq_push x q) ≡ₚ x :: pq_elems q;
  pq_top_None q : pq_top q = None ↔ pq_elems q = [];
  pq_top_Some q x :
    pq_top q = Some x →
    (∀ y, y ∈ pq_elems q → less x y = false)
    ∧ ∃ rest, pq_elems q ≡ₚ x :: rest ∧ pq_elems (pq_pop q) ≡ₚ rest
}.

(** [empty()] *)
Definition pq_empty {E less Q} `{PriorityQueue E less Q} (q : Q) : bool :=
  bool_decide (pq_size q = 0%nat).

Section PriorityQueueFacts.
Context {E : Type} {less : E → E → bool} {Q : Type} `{PriorityQueue E less Q}.

(** The elements in the order in which [top()]/[pop()] hand them out. *)
Fixpoint drain (fuel : nat) (q : Q) : list E :=
  match fuel with
  | O => []
  | S fuel =>
      match pq_top q with
      | None => []
      | Some x => x :: drain fuel (pq_pop q)
      end
  end.

Definition pop_order (q : Q) : list E := drain (pq_size q) q.

Lemma pq_empty_elems q : pq_empty q = true ↔ pq_elems q = [].
Proof.
  unfold pq_empty. rewrite bool_decide_eq_true, pq_size_elems.
  split; [apply nil_length_inv | by intros ->].
Qed.

Lemma pq_empty_top q : pq_empty q = true ↔ pq_top q = None.
Proof. by rewrite pq_empty_elems, pq_top_None. Qed.

Lemma pq_nonempty_top q : pq_empty q = false → ∃ x, pq_top q = Some x.
Proof.
  intros He. destruct (pq_top q) as [x|] eqn:Ht; [eauto|].
  apply pq_empty_top in Ht. congruence.
Qed.

Lemma pq_pop_size q x : pq_top q = Some x → pq_size q = S (pq_size (pq_pop q)).
Proof.
  intros Ht. destruct (pq_top_Some q x Ht) as (_ & rest & Hq & Hp).
  rewrite !pq_size_elems. apply Permutation_length in Hq, Hp. rewrite Hq, Hp. done.
Qed.


Lemma drain_perm n q : n = pq_size q → drain n q ≡ₚ pq_elems q.
Proof.
  revert q. induction n as [|n IH]; intros q Hn.
  - symmetry in Hn. rewrite pq_size_elems in Hn. apply nil_length_inv in Hn.
    by rewrite Hn.
  - cbn. destruct (pq_top q) as [x|] eqn:Ht.
    + destruct (pq_top_Some q x Ht) as (_ & rest & Hq & Hp).
      rewrite Hq, <- Hp. constructor. apply IH.
      rewrite (pq_pop_size q x Ht) in Hn. lia.
    + apply pq_top_None in Ht. rewrite pq_size_elems, Ht in Hn. done.
Qed.

Lemma pop_order_perm q : pop_order q ≡ₚ pq_elems q.
Proof. by apply drain_perm. Qed.

(** No element is handed out before a greater one. *)
Lemma drain_sorted n q :
  n = pq_size q → StronglySorted (λ a b, less a b = false) (drain n q).
Proof.
  revert q. induction n as [|n IH]; intros q Hn; [constructor|].
  cbn. destruct (pq_top q) as [x|] eqn:Ht; [|constructor].
  destruct (pq_top_Some q x Ht) as (Hmax & rest & Hq & Hp).
  assert (Hn' : n = pq_size (pq_pop q)).
  { rewrite (pq_pop_size q x Ht) in Hn. lia. }
  constructor; [by apply IH|].
  apply Forall_forall. intros y Hy. apply Hmax.
  rewrite Hq. right. by rewrite <- Hp, <- (drain_perm n).
Qed.

Lemma pq_push_all_elems (l : list E) q :
  pq_elems (foldl (λ q x, pq_push x q) q l) ≡ₚ l ++ pq_elems q.
Proof.
  revert q. induction l as [|x l IH]; intros q; [done|].
  cbn [foldl]. rewrite IH, pq_push_elems. symmetry. apply Permutation_middle.
Qed.

(** An element greater than all others is the one [top()] returns. *)
Lemma pq_top_greatest q (x : E) (rest : list E) :
  pq_elems q ≡ₚ x :: rest →
  (∀ y, y ∈ rest → less y x = true) →
  pq_top q = Some x ∧ pq_elems (pq_pop q) ≡ₚ rest.
Proof.
  intros Hq Hgt. destruct (pq_top q) as [m|] eqn:Ht.
  - destruct (pq_top_Some q m Ht) as (Hmax & rest' & Hq' & Hp).
    assert (Hm : m ∈ x :: rest) by (rewrite <- Hq, Hq'; left).
    assert (Hx : less m x = false) by (apply Hmax; rewrite Hq; left).
    apply elem_of_cons in Hm as [->|Hm].
    + split; [done|]. rewrite Hp. apply (Permutation_cons_inv (a := x)).
      by rewrite <- Hq', Hq.
    + rewrite (Hgt m Hm) in Hx. done.
  - apply pq_top_None in Ht. rewrite Ht in Hq. by apply Permutation_nil_cons in Hq.
Qed.



End PriorityQueueFacts.

(** A priority queue to compute with: the elements in the order of
    their insertion, [top()] being the first of the greatest ones. *)
Section ListPriorityQueue.
Context {E : Type} (less : E → E → bool).

(** The greatest element of [x :: l] and the others. *)
Fixpoint extract_max (x : E) (l : list E) : E * list E :=
  match l with
  | [] => (x, [])
  | y :: l' =>
      let '(m, r) := extract_max y l' in
      if less x m then (m, x :: r) else (x, y :: l')
  end.

Definition list_top (l : list E) : option E :=
  match l with
  | [] => None
  | x :: l' => Some (fst (extract_max x l'))
  end.

Definition list_pop (l : list E) : list E :=
  match l with
  | [] => []
  | x :: l' => snd (extract_max x l')
  end.

Hypothesis less_asym : ∀ x y, less x y = true → less y x = false.
Hypothesis less_negtrans : ∀ x y z, less x y = false → less y z = false → less x z = false.

Lemma less_irrefl x : less x x = false.
Proof. destruct (less x x) eqn:E'; [|done]. by rewrite (less_asym x x E') in E'. Qed.

Lemma extract_max_spec x l m r :
  extract_max x l = (m, r) →
  x :: l ≡ₚ m :: r ∧ ∀ y, y ∈ x :: l → less m y = false.
Proof.
  revert x m r. induction l as [|y l IH]; intros x m r Hx; cbn in Hx.
  - injection Hx as <- <-. split; [done|]. intros y Hy.
    apply list_elem_of_singleton in Hy as ->. apply less_irrefl.
  - destruct (extract_max y l) as [m' r'] eqn:Hy.
    destruct (IH y m' r' Hy) as [Hperm Hmax].
    destruct (less x m') eqn:Hlt; injection Hx as <- <-.
    + split.
      * rewrite Hperm. apply perm_swap.
      * intros z Hz. apply elem_of_cons in Hz as [->|Hz]; [by apply less_asym|by apply Hmax].
    + split; [done|]. intros z Hz.
      apply elem_of_cons in Hz as [->|Hz]; [apply less_irrefl|].
      eapply less_negtrans; [exact Hlt|by apply Hmax].
Qed.

#[refine] Instance list_priority_queue : PriorityQueue E less (list E) := {
  pq_new := [];
  pq_push x l := l ++ [x];
  pq_top := list_top;
  pq_pop := list_pop;
  pq_size := length;
  pq_elems l := l
}.
Proof.
  - done.
  - done.
  - intros x l. by rewrite Permutation_app_comm.
  - intros [|x l]; cbn; done.
  - intros [|x l] m Hm; [done|]. cbn in Hm. injection Hm as Hm.
    destruct (extract_max x l) as [m' r] eqn:Hx. cbn in Hm. subst m'.
    destruct (extract_max_spec x l m r Hx) as [Hperm Hmax].
    split; [done|]. exists r. split; [done|]. cbn. by rewrite Hx.
Defined.

End ListPriorityQueue.

(** ** scheduler/priority_scheduler.hpp

    The callables act on some shared memory of type [W]: a callable is
    the function that says what a call does to it (an exception the
    callable throws is caught and dropped by the worker, so a call always
    comes back).  Times are readings of [steady_clock], as integers, and
    an [int] priority is the integer it denotes. *)

Module PriorityScheduler.

Record Task (W : Type) := mkTask {
  func : W → W;
  priority : Z;
  schedule_time : Z;
  task_id : Z
}.
Arguments mkTask {W}.
Arguments func {W}.
Arguments priority {W}.
Arguments schedule_time {W}.
Arguments task_id {W}.

(** [bool operator<(const Task& other) const] *)
Definition Task_less {W} (this other : Task W) : bool :=
  if decide (priority this ≠ priority other)
  then bool_decide (priority this < priority other)
  else bool_decide (schedule_time this > schedule_time other).

(** A worker thread is inside [worker_loop], or has returned from it. *)
Inductive worker := Running | Returned.

Global Instance worker_eq_dec : EqDecision worker.
Proof. solve_decision. Defined.

Record t (Q : Type) := mk {
  tasks_ : Q;
  stop_ : bool;
  next_task_id_ : Z;
  workers_ : list worker
}.
Arguments mk {Q}.
Arguments tasks_ {Q}.
Arguments stop_ {Q}.
Arguments next_task_id_ {Q}.
Arguments workers_ {Q}.

(** The scheduler with what surrounds it: the memory the callables act
    on and the ids of the tasks whose callable has been called, oldest
    first. *)
Record system (W Q : Type) := mkSystem {
  sched : t Q;
  shared : W;
  executed : list Z
}.
Arguments mkSystem {W Q}.
Arguments sched {W Q}.
Arguments shared {W Q}.
Arguments executed {W Q}.

(** What one pass through the body of [worker_loop] does: it stays in
    [condition_.wait], returns, calls the task it popped, or goes round
    again without a task. *)
Inductive outcome := Waiting | Return | Ran (id : Z) | Idle.

Section Ops.
Context {W Q : Type} `{PriorityQueue (Task W) Task_less Q}.
Implicit Type s : t Q.
Implicit Type st : system W Q.

Definition with_tasks (q : Q) s : t Q :=
  mk q (stop_ s) (next_task_id_ s) (workers_ s).

(** [explicit PriorityScheduler(size_t thread_count)] *)
Definition new (thread_count : nat) : t Q :=
  mk pq_new false 0 (replicate thread_count Running).

Definition schedule_at (f : W → W) (time : Z) (priority : Z) s : Z * t Q :=
  let task := mkTask f priority time (next_task_id_ s) in
  (task_id task,
   mk (pq_push task (tasks_ s)) (stop_ s) (fetch_add1 (next_task_id_ s)) (workers_ s)).

(** [now] is what [steady_clock::now()] returns in the call. *)
Definition schedule (f : W → W) (priority : Z) (now : Z) s : Z * t Q :=
  schedule_at f now priority s.

Definition schedule_after (f : W → W) (delay : Z) (priority : Z) (now : Z) s : Z * t Q :=
  schedule_at f (now + delay) priority s.

(** The [while (!tasks_.empty())] of [cancel], which pops one task per
    pass; [fuel] is the number of tasks at its start. *)
Fixpoint cancel_loop (fuel : nat) (id : Z) (tasks : Q) (temp : list (Task W))
    (found : bool) : Q * list (Task W) * bool :=
  match fuel with
  | O => (tasks, temp, found)
  | S fuel =>
      match pq_top tasks with
      | None => (tasks, temp, found)
      | Some task =>
          let tasks := pq_pop tasks in
          if decide (task_id task ≠ id)
          then cancel_loop fuel id tasks (temp ++ [task]) found
          else cancel_loop fuel id tasks temp true
      end
  end.

Definition cancel (id : Z) s : bool * t Q :=
  let '(tasks, temp, found) :=
    cancel_loop (pq_size (tasks_ s)) id (tasks_ s) [] false in
  (found, with_tasks (foldl (λ q task, pq_push task q) tasks temp) s).

Definition pending_tasks s : nat := pq_size (tasks_ s).

(** [!tasks_.empty() && tasks_.top().schedule_time <= now] *)
Definition top_due (now : Z) (q : Q) : bool :=
  negb (pq_empty q) &&
  match pq_top q with
  | Some task => bool_decide (schedule_time task ≤ now)
  | None => false
  end.

(** One pass through the body of [worker_loop].  [now_wait] is the
    clock as the wait predicate reads it and [now_run] as the [if] after
    it does. *)
Definition worker_loop_body (now_wait now_run : Z) st : outcome * system W Q :=
  let s := sched st in
  if negb (stop_ s || top_due now_wait (tasks_ s)) then (Waiting, st)
  else if stop_ s && pq_empty (tasks_ s) then (Return, st)
  else if top_due now_run (tasks_ s) then
    match pq_top (tasks_ s) with
    | Some task =>
        (Ran (task_id task),
         mkSystem (with_tasks (pq_pop (tasks_ s)) s)
                  (func task (shared st))
                  (executed st ++ [task_id task]))
    | None => (Idle, st)
    end
  else (Idle, st).

(** Worker [i] makes one pass, if it has not returned yet. *)
Definition worker_step (i : nat) (now_wait now_run : Z) st : system W Q :=
  match workers_ (sched st) !! i with
  | Some Running =>
      let '(o, st1) := worker_loop_body now_wait now_run st in
      match o with
      | Return =>
          let s := sched st1 in
          mkSystem (mk (tasks_ s) (stop_ s) (next_task_id_ s)
                       (<[i := Returned]> (workers_ s)))
                   (shared st1) (executed st1)
      | _ => st1
      end
  | _ => st
  end.

Definition run_workers (steps : list (nat * Z * Z)) st : system W Q :=
  foldl (λ st '(i, now_wait, now_run), worker_step i now_wait now_run st) st steps.

(** [~PriorityScheduler()]: [stop_ = true] under the lock and
    [notify_all], then the joins.  [steps] are the passes the workers
    make while the destructor waits in [join]; the destructor is through
    once every worker has returned, and [None] says it still waits. *)
Definition request_stop st : system W Q :=
  let s := sched st in
  mkSystem (mk (tasks_ s) true (next_task_id_ s) (workers_ s)) (shared st) (executed st).

Definition joined st : bool :=
  forallb (λ w, bool_decide (w = Returned)) (workers_ (sched st)).

Definition destructor (steps : list (nat * Z * Z)) st : option (system W Q) :=
  let st1 := run_workers steps (request_stop st) in
  if joined st1 then Some st1 else None.

(** A run of the scheduler: calls by its client and passes of its
    workers, in the order in which they take the lock. *)
Inductive action :=
  | Schedule (f : W → W) (priority : Z) (now : Z)
  | Cancel (id : Z)
  | Step (i : nat) (now_wait now_run : Z).

Definition act (a : action) st : system W Q :=
  match a with
  | Schedule f priority now =>
      mkSystem (schedule f priority now (sched st)).2 (shared st) (executed st)
  | Cancel id =>
      mkSystem (cancel id (sched st)).2 (shared st) (executed st)
  | Step i now_wait now_run => worker_step i now_wait now_run st
  end.

Definition run (l : list action) st : system W Q := foldl (λ st a, act a st) st l.

End Ops.

(** The callable of the ordering scenario: it appends [p] to the shared
    vector. *)
Definition appender (p : Z) : list Z → list Z := λ v, v ++ [p].

Section Order.
Context {W : Type}.
Implicit Type a b : Task W.

Lemma Task_less_true a b :
  Task_less a b = true ↔
  priority a < priority b
  ∨ (priority a = priority b ∧ schedule_time b < schedule_time a).
Proof.
  unfold Task_less. destruct (decide (priority a ≠ priority b)).
  - rewrite bool_decide_eq_true. lia.
  - rewrite bool_decide_eq_true. lia.
Qed.

Lemma Task_less_false a b :
  Task_less a b = false ↔
  priority b < priority a
  ∨ (priority a = priority b ∧ schedule_time a ≤ schedule_time b).
Proof.
  unfold Task_less. destruct (decide (priority a ≠ priority b)).
  - rewrite bool_decide_eq_false. lia.
  - rewrite bool_decide_eq_false. lia.
Qed.

Lemma Task_less_asym a b : Task_less a b = true → Task_less b a = false.
Proof. rewrite Task_less_true, Task_less_false. lia. Qed.

Lemma Task_less_negtrans a b c :
  Task_less a b = false → Task_less b c = false → Task_less a c = false.
Proof. rewrite !Task_less_false. lia. Qed.

(** The key [operator<] compares, and the order in which keys are
    handed out: greater priority first, then earlier time. *)
Definition key a : Z * Z := (priority a, schedule_time a).

Definition key_before (k1 k2 : Z * Z) : Prop :=
  k2.1 < k1.1 ∨ (k1.1 = k2.1 ∧ k1.2 ≤ k2.2).

Global Instance key_before_antisymm : AntiSymm (=) key_before.
Proof. intros [p1 t1] [p2 t2]; unfold key_before; cbn. intros ? ?. f_equal; lia. Qed.

Lemma Task_less_key a b : Task_less a b = false ↔ key_before (key a) (key b).
Proof. rewrite Task_less_false. unfold key_before, key. cbn. lia. Qed.

End Order.

Section Facts.
Context {W Q : Type} `{PriorityQueue (Task W) Task_less Q}.
Implicit Type s : t Q.
Implicit Type st : system W Q.

Lemma top_due_true now (q : Q) :
  top_due now q = true ↔ ∃ task, pq_top q = Some task ∧ schedule_time task ≤ now.
Proof.
  unfold top_due. split.
  - intros [_ Ht]%andb_true_iff. destruct (pq_top q) as [task|]; [|done].
    exists task. split; [done|]. by apply bool_decide_eq_true in Ht.
  - intros (task & Ht & Hdue). apply andb_true_iff. split.
    + apply negb_true_iff. destruct (pq_empty q) eqn:He; [|done].
      apply pq_empty_top in He. congruence.
    + rewrite Ht. by apply bool_decide_eq_true.
Qed.

(** What a pass of a worker does, case by case. *)
Lemma worker_loop_body_cases now_wait now_run st :
  let r := worker_loop_body now_wait now_run st in
  (r = (Waiting, st) ∧ stop_ (sched st) = false)
  ∨ r = (Idle, st)
  ∨ (r = (Return, st) ∧ stop_ (sched st) = true ∧ pq_elems (tasks_ (sched st)) = [])
  ∨ (∃ task, pq_top (tasks_ (sched st)) = Some task
       ∧ schedule_time task ≤ now_run
       ∧ r = (Ran (task_id task),
              mkSystem (with_tasks (pq_pop (tasks_ (sched st))) (sched st))
                       (func task (shared st))
                       (executed st ++ [task_id task]))).
Proof.
  cbv zeta. unfold worker_loop_body.
  destruct (stop_ (sched st) || top_due now_wait (tasks_ (sched st))) eqn:Hpred; cbn [negb].
  2:{ left. apply orb_false_iff in Hpred as [-> _]. done. }
  destruct (stop_ (sched st) && pq_empty (tasks_ (sched st))) eqn:Hret.
  { apply andb_true_iff in Hret as [Hs He]. right; right; left.
    split_and!; [done..|]. by apply pq_empty_elems. }
  destruct (top_due now_run (tasks_ (sched st))) eqn:Hdue; [|by right; left].
  apply top_due_true in Hdue as (task & Ht & Hdue). rewrite Ht.
  right; right; right. by exists task.
Qed.

(** A worker that finds a due task on top calls it. *)
Lemma worker_step_runs i now_wait now_run st task :
  workers_ (sched st) !! i = Some Running →
  pq_top (tasks_ (sched st)) = Some task →
  schedule_time task ≤ now_wait → schedule_time task ≤ now_run →
  worker_step i now_wait now_run st =
    mkSystem (with_tasks (pq_pop (tasks_ (sched st))) (sched st))
             (func task (shared st))
             (executed st ++ [task_id task]).
Proof.
  intros Hw Ht Hwait Hrun. unfold worker_step. rewrite Hw. unfold worker_loop_body.
  assert (top_due now_wait (tasks_ (sched st)) = true) as -> by (apply top_due_true; eauto).
  assert (top_due now_run (tasks_ (sched st)) = true) as -> by (apply top_due_true; eauto).
  rewrite orb_true_r. cbn [negb].
  assert (pq_empty (tasks_ (sched st)) = false) as ->.
  { destruct (pq_empty _) eqn:He; [|done]. apply pq_empty_top in He. congruence. }
  rewrite andb_false_r, Ht. done.
Qed.

(** The task a worker pops is due, no pending task has a greater
    priority, and none of the same priority has an earlier time. *)
Lemma worker_pops_greatest now_wait now_run st id st' :
  worker_loop_body now_wait now_run st = (Ran id, st') →
  ∃ task, pq_top (tasks_ (sched st)) = Some task
    ∧ task_id task = id
    ∧ schedule_time task ≤ now_run
    ∧ executed st' = executed st ++ [id]
    ∧ ∀ other, other ∈ pq_elems (tasks_ (sched st)) →
        priority other ≤ priority task
        ∧ (priority other = priority task →
           schedule_time task ≤ schedule_time other).
Proof.
  intros Hr.
  destruct (worker_loop_body_cases now_wait now_run st)
    as [[E _]|[E|[[E _]|(task & Ht & Hdue & E)]]]; rewrite Hr in E; try done.
  injection E as -> ->. exists task. split_and!; [done..|].
  intros other Hin. destruct (pq_top_Some _ _ Ht) as [Hmax _].
  specialize (Hmax other Hin). apply Task_less_false in Hmax. lia.
Qed.

(** The loop of [cancel] empties the heap; it collects, in the order in
    which they are popped, the tasks with another id, and notes whether
    it met the id. *)
Lemma cancel_loop_spec (id : Z) fuel :
  ∀ (q : Q) temp found,
    fuel = pq_size q →
    ∃ q', cancel_loop fuel id q temp found =
            (q', temp ++ filter (λ task, task_id task ≠ id) (drain fuel q),
             found || existsb (λ task, bool_decide (task_id task = id)) (drain fuel q))
      ∧ pq_elems q' = [].
Proof.
  induction fuel as [|fuel IH]; intros q temp found Hn.
  - exists q. cbn. rewrite app_nil_r, orb_false_r. split; [done|].
    symmetry in Hn. rewrite pq_size_elems in Hn. by apply nil_length_inv in Hn.
  - cbn [cancel_loop drain]. destruct (pq_top q) as [task|] eqn:Ht.
    2:{ apply pq_top_None in Ht. rewrite pq_size_elems, Ht in Hn. done. }
    assert (Hn' : fuel = pq_size (pq_pop q)).
    { rewrite (pq_pop_size q task Ht) in Hn. lia. }
    destruct (decide (task_id task ≠ id)) as [Hne|Heq].
    + destruct (IH (pq_pop q) (temp ++ [task]) found Hn') as (q' & -> & Hq').
      exists q'. split; [|done]. rewrite filter_cons_True by done.
      cbn [existsb]. rewrite bool_decide_eq_false_2 by done. cbn [orb].
      by rewrite <- app_assoc.
    + destruct (IH (pq_pop q) temp true Hn') as (q' & -> & Hq').
      exists q'. split; [|done]. rewrite filter_cons_False by done.
      cbn [existsb]. rewrite bool_decide_eq_true_2 by (by destruct (decide (task_id task = id)); [|contradict Heq]).
      cbn [orb]. by rewrite orb_true_r.
Qed.

Lemma cancel_spec (id : Z) s :
  (cancel id s).1 = existsb (λ task, bool_decide (task_id task = id)) (pop_order (tasks_ s))
  ∧ pq_elems (tasks_ (cancel id s).2)
      ≡ₚ filter (λ task, task_id task ≠ id) (pop_order (tasks_ s))
  ∧ stop_ (cancel id s).2 = stop_ s
  ∧ next_task_id_ (cancel id s).2 = next_task_id_ s
  ∧ workers_ (cancel id s).2 = workers_ s.
Proof.
  unfold cancel.
  destruct (cancel_loop_spec id (pq_size (tasks_ s)) (tasks_ s) [] false eq_refl)
    as (q' & -> & Hq').
  cbn. split_and!; [done| |done..].
  rewrite pq_push_all_elems, Hq', app_nil_r. done.
Qed.


Lemma pop_order_sorted (q : Q) :
  StronglySorted (λ a b, Task_less a b = false) (pop_order q).
Proof. by apply drain_sorted. Qed.



(** What a pass of worker [i] does to the system. *)
Lemma worker_step_cases i now_wait now_run st :
  let st' := worker_step i now_wait now_run st in
  st' = st
  ∨ (stop_ (sched st) = true ∧ pq_elems (tasks_ (sched st)) = []
     ∧ workers_ (sched st) !! i = Some Running
     ∧ st' = mkSystem (mk (tasks_ (sched st)) (stop_ (sched st)) (next_task_id_ (sched st))
                          (<[i := Returned]> (workers_ (sched st))))
                      (shared st) (executed st))
  ∨ (∃ task rest,
       pq_top (tasks_ (sched st)) = Some task
       ∧ pq_elems (tasks_ (sched st)) ≡ₚ task :: rest
       ∧ pq_elems (pq_pop (tasks_ (sched st))) ≡ₚ rest
       ∧ st' = mkSystem (with_tasks (pq_pop (tasks_ (sched st))) (sched st))
                        (func task (shared st))
                        (executed st ++ [task_id task])).
Proof.
  cbv zeta. unfold worker_step.
  destruct (workers_ (sched st) !! i) as [[|]|] eqn:Hw; [|by left..].
  destruct (worker_loop_body_cases now_wait now_run st)
    as [[-> _]|[->|[(-> & Hs & He)|(task & Ht & Hdue & ->)]]]; [by left..| |].
  - right; left. done.
  - right; right. destruct (pq_top_Some _ _ Ht) as (_ & rest & Hq & Hp).
    by exists task, rest.
Qed.

(** How the system [st] stands to the system [st0] the workers started
    from: the stop flag is the same, the tasks called since then and the
    tasks still pending are the tasks that were pending, and no worker
    has returned unless the heap is empty. *)
Record worked_from st0 st : Prop := {
  worked_stop : stop_ (sched st) = stop_ (sched st0);
  worked_count : length (workers_ (sched st)) = length (workers_ (sched st0));
  worked_called : ∃ ids, executed st = executed st0 ++ ids
      ∧ ids ++ (task_id <$> pq_elems (tasks_ (sched st)))
          ≡ₚ task_id <$> pq_elems (tasks_ (sched st0));
  worked_workers : workers_ (sched st) = workers_ (sched st0)
      ∨ pq_elems (tasks_ (sched st)) = []
}.

Lemma worked_from_refl st : worked_from st st.
Proof. split; [done|done| |by left]. exists []. by rewrite app_nil_r. Qed.

Lemma worked_from_step st0 st i now_wait now_run :
  worked_from st0 st → worked_from st0 (worker_step i now_wait now_run st).
Proof.
  intros [Hs Hl (ids & He & Hp) Hw].
  destruct (worker_step_cases i now_wait now_run st)
    as [->|[(Hst & Hel & _ & ->)|(task & rest & Ht & Hq & Hpop & ->)]].
  - split; eauto.
  - split; cbn; [done|by rewrite length_insert|by exists ids|by right].
  - split; cbn.
    + done.
    + done.
    + exists (ids ++ [task_id task]). split; [by rewrite He, app_assoc|].
      rewrite <- Hp, Hq, Hpop. rewrite <- app_assoc. done.
    + destruct Hw as [Hw|Hw]; [by left|].
      rewrite Hw in Hq. by apply Permutation_nil_cons in Hq.
Qed.

Lemma worked_from_run steps st0 :
  ∀ st, worked_from st0 st → worked_from st0 (run_workers steps st).
Proof.
  induction steps as [|[[i a] b] steps IH]; intros st Hst; [done|].
  apply IH. by apply worked_from_step.
Qed.

Lemma joined_true st :
  joined st = true ↔ ∀ j w, workers_ (sched st) !! j = Some w → w = Returned.
Proof.
  unfold joined. rewrite forallb_forall. split.
  - intros Hall j w Hj. eapply bool_decide_eq_true_1, Hall, list_elem_of_In.
    by eapply list_elem_of_lookup_2.
  - intros Hall w Hw. apply list_elem_of_In, list_elem_of_lookup_1 in Hw as [j Hj].
    apply bool_decide_eq_true_2. by eapply Hall.
Qed.

(** With the stop flag set, a worker that finds every pending task due
    calls them all. *)
Lemma stopped_worker_drains i now n :
  ∀ st,
    n = pq_size (tasks_ (sched st)) →
    workers_ (sched st) !! i = Some Running →
    (∀ task, task ∈ pq_elems (tasks_ (sched st)) → schedule_time task ≤ now) →
    let st' := run_workers (replicate n (i, now, now)) st in
    pq_elems (tasks_ (sched st')) = []
    ∧ stop_ (sched st') = stop_ (sched st)
    ∧ workers_ (sched st') = workers_ (sched st).
Proof.
  induction n as [|n IH]; intros st Hn Hw Hdue; cbv zeta.
  - cbn. split; [|done]. symmetry in Hn. rewrite pq_size_elems in Hn.
    by apply nil_length_inv in Hn.
  - cbn [replicate run_workers foldl].
    destruct (pq_top (tasks_ (sched st))) as [task|] eqn:Ht.
    2:{ apply pq_top_None in Ht. rewrite pq_size_elems, Ht in Hn. done. }
    destruct (pq_top_Some _ _ Ht) as (_ & rest & Hq & Hp).
    assert (Htd : schedule_time task ≤ now) by (apply Hdue; rewrite Hq; left).
    rewrite (worker_step_runs i now now st task) by done.
    set (st1 := mkSystem _ _ _).
    destruct (IH st1) as (A & B & C).
    + cbn. rewrite (pq_pop_size _ _ Ht) in Hn. lia.
    + done.
    + cbn. intros other Hin. apply Hdue. rewrite Hq. right. by rewrite <- Hp.
    + split_and!; [exact A|exact B|exact C].
Qed.

(** With the stop flag set and the heap empty, every worker that makes
    a pass returns, and a worker that has returned stays so. *)
Lemma stopped_workers_return (steps : list (nat * Z * Z)) :
  ∀ st,
    stop_ (sched st) = true → pq_elems (tasks_ (sched st)) = [] →
    ∀ j w, workers_ (sched st) !! j = Some w →
      (w = Returned ∨ j ∈ (λ x, x.1.1) <$> steps) →
      workers_ (sched (run_workers steps st)) !! j = Some Returned.
Proof.
  induction steps as [|[[i a] b] steps IH]; intros st Hs He j w Hj Hor.
  - cbn in *. destruct Hor as [->|Hin]; [done|]. by apply elem_of_nil in Hin.
  - change (run_workers ((i, a, b) :: steps) st)
      with (run_workers steps (worker_step i a b st)).
    destruct (worker_step_cases i a b st)
      as [Hsame|[(_ & _ & Hi & Hret)|(task & rest & Ht & Hq & _)]].
    + assert (Hnr : workers_ (sched st) !! i ≠ Some Running).
      { unfold worker_step in Hsame. intros Hi. rewrite Hi in Hsame.
        unfold worker_loop_body in Hsame. rewrite Hs in Hsame. cbn in Hsame.
        assert (pq_empty (tasks_ (sched st)) = true) as Hem by (by apply pq_empty_elems).
        rewrite Hem in Hsame. cbn in Hsame.
        apply (f_equal (λ st, workers_ (sched st) !! i)) in Hsame. cbn in Hsame.
        rewrite list_lookup_insert_eq in Hsame by (by eapply lookup_lt_Some).
        congruence. }
      rewrite Hsame.
      apply (IH st Hs He j w Hj). destruct Hor as [->|Hin]; [by left|].
      cbn in Hin. apply elem_of_cons in Hin as [->|Hin]; [|by right].
      left. destruct w; [congruence|done].
    + rewrite Hret.
      destruct (decide (i = j)) as [->|Hne].
      * eapply IH with (w := Returned); [exact Hs|exact He| |by left]. cbn.
        apply list_lookup_insert_eq. by eapply lookup_lt_Some.
      * eapply IH with (w := w); [exact Hs|exact He| |].
        { cbn. by rewrite list_lookup_insert_ne. }
        destruct Hor as [->|Hin]; [by left|]. cbn in Hin.
        apply elem_of_cons in Hin as [->|Hin]; [done|by right].
    + rewrite He in Hq. by apply Permutation_nil_cons in Hq.
Qed.

(** The passes that let the destructor through once every pending task
    is due at [now]: worker 0 makes one pass per pending task, then every
    worker makes one more. *)
Definition drain_steps (now : Z) st : list (nat * Z * Z) :=
  replicate (pending_tasks (sched st)) (0%nat, now, now)
  ++ ((λ i, (i, now, now)) <$> seq 0 (length (workers_ (sched st)))).

Lemma run_workers_app (l1 l2 : list (nat * Z * Z)) st :
  run_workers (l1 ++ l2) st = run_workers l2 (run_workers l1 st).
Proof. apply foldl_app. Qed.

(** C2, as amended.  The destructor sets the stop flag, which leaves the
    heap as it is, and joins the workers.  A worker returns only when
    the flag is set and the heap is empty; until then it goes on popping
    and calling the pending tasks as they become due.  So, with at least
    one worker, when the destructor is through the heap is empty and
    every task that was pending when the flag was set has been called
    exactly once; and once every pending task is due the workers do get
    there. *)
Theorem destructor_runs_pending (steps : list (nat * Z * Z)) (now : Z) st :
  workers_ (sched st) ≠ [] →
  Forall (λ w, w = Running) (workers_ (sched st)) →
  (stop_ (sched (request_stop st)) = true
   ∧ tasks_ (sched (request_stop st)) = tasks_ (sched st))
  ∧ (∀ now_wait now_run st1 st2,
       worker_loop_body now_wait now_run st1 = (Return, st2) →
       stop_ (sched st1) = true ∧ pq_elems (tasks_ (sched st1)) = [])
  ∧ (∀ st', destructor steps st = Some st' →
       pq_elems (tasks_ (sched st')) = []
       ∧ ∃ ids, executed st' = executed st ++ ids
           ∧ ids ≡ₚ task_id <$> pq_elems (tasks_ (sched st)))
  ∧ ((∀ task, task ∈ pq_elems (tasks_ (sched st)) → schedule_time task ≤ now) →
     ∃ st', destructor (drain_steps now st) st = Some st').
Proof.
  intros Hne Hrun. split_and!.
  - done.
  - done.
  - intros now_wait now_run st1 st2 Hr.
    destruct (worker_loop_body_cases now_wait now_run st1)
      as [[E _]|[E|[(E & Hs & He)|(task & _ & _ & E)]]]; rewrite Hr in E; done.
  - intros st'. unfold destructor.
    destruct (joined _) eqn:Hj; [|done]. intros [= <-].
    pose proof (worked_from_run steps (request_stop st) _ (worked_from_refl _))
      as [_ Hl (ids & He & Hp) Hw].
    cbn in He, Hp, Hw, Hl.
    assert (Hempty : pq_elems (tasks_ (sched (run_workers steps (request_stop st)))) = []).
    { destruct Hw as [Hw|Hw]; [|done]. exfalso.
      destruct (workers_ (sched st)) as [|w ws] eqn:Hws; [done|].
      apply Forall_cons in Hrun as [-> _].
      assert (Running = Returned); [|done].
      eapply (proj1 (joined_true _) Hj 0%nat). by rewrite Hw. }
    split; [done|]. exists ids. split; [done|].
    rewrite Hempty in Hp. cbn in Hp. by rewrite app_nil_r in Hp.
  - intros Hdue. unfold destructor, drain_steps. rewrite run_workers_app.
    assert (H0 : workers_ (sched (request_stop st)) !! 0%nat = Some Running).
    { cbn. destruct (workers_ (sched st)) as [|w ws]; [done|].
      by apply Forall_cons in Hrun as [-> _]. }
    destruct (stopped_worker_drains 0 now (pending_tasks (sched st)) (request_stop st)
                eq_refl H0 Hdue) as (He & Hs & Hw).
    set (st1 := run_workers _ (request_stop st)) in *. cbn in Hs, Hw.
    rewrite (proj2 (joined_true _)); [eauto|].
    intros j w Hj.
    pose proof (worked_from_run ((λ i, (i, now, now)) <$> seq 0 (length (workers_ (sched st))))
                  st1 _ (worked_from_refl _)) as [_ Hl _ _].
    assert (Hlt : (j < length (workers_ (sched st)))%nat).
    { apply lookup_lt_Some in Hj. rewrite Hl, Hw in Hj. done. }
    destruct (lookup_lt_is_Some_2 (workers_ (sched st1)) j) as [w0 Hw0]; [by rewrite Hw|].
    rewrite (stopped_workers_return _ st1 Hs He j w0 Hw0) in Hj; [congruence|].
    right. rewrite <- list_fmap_compose. apply list_elem_of_fmap.
    exists j. split; [done|]. apply elem_of_seq. lia.
Qed.

(** A scheduler without workers has nobody to join: its destructor is
    through at once and the pending tasks are dropped uncalled. *)
Lemma destructor_without_workers st :
  workers_ (sched st) = [] →
  destructor [] st = Some (request_stop st)
  ∧ executed (request_stop st) = executed st.
Proof. intros Hw. unfold destructor, joined. cbn. by rewrite Hw. Qed.

End Facts.

Section Scenario.
Context {Q : Type} `{PriorityQueue (Task (list Z)) Task_less Q}.

(** C5, as amended.  A worker pops the pending task of greatest
    priority and, among those, of earliest time, once that task is due.
    On a scheduler with one worker, three tasks of priorities 1, 5 and 3
    that append their priority to a shared vector leave [5; 3; 1] when
    all three have been submitted before the worker makes its first
    pass. *)
Theorem dispatch_order (t1 t2 t3 w1 r1 w2 r2 w3 r3 : Z) :
  t1 ≤ t2 → t2 ≤ t3 → t3 ≤ w1 → w1 ≤ r1 → r1 ≤ w2 → w2 ≤ r2 → r2 ≤ w3 → w3 ≤ r3 →
  (∀ now_wait now_run (st st' : system (list Z) Q) id,
     worker_loop_body now_wait now_run st = (Ran id, st') →
     ∃ task, pq_top (tasks_ (sched st)) = Some task
       ∧ task_id task = id
       ∧ schedule_time task ≤ now_run
       ∧ executed st' = executed st ++ [id]
       ∧ ∀ other, other ∈ pq_elems (tasks_ (sched st)) →
           priority other ≤ priority task
           ∧ (priority other = priority task →
              schedule_time task ≤ schedule_time other))
  ∧ shared (run [Schedule (appender 1) 1 t1;
                 Schedule (appender 5) 5 t2;
                 Schedule (appender 3) 3 t3;
                 Step 0 w1 r1; Step 0 w2 r2; Step 0 w3 r3]
              (mkSystem (new 1) [] [])) = [5; 3; 1].
Proof.
  intros H12 H23 H3w Hw1 Hr1 Hw2 Hr2 Hw3.
  split; [intros; by eapply worker_pops_greatest|].
  unfold run. cbn [foldl act schedule schedule_at snd sched shared executed new
                   tasks_ stop_ next_task_id_ workers_ task_id].
  set (T1 := mkTask (appender 1) 1 t1 0).
  set (T5 := mkTask (appender 5) 5 t2 (fetch_add1 0)).
  set (T3 := mkTask (appender 3) 3 t3 (fetch_add1 (fetch_add1 0))).
  set (q3 := pq_push T3 (pq_push T5 (pq_push T1 pq_new))).
  assert (Hq3 : pq_elems q3 ≡ₚ T5 :: [T3; T1]).
  { unfold q3. rewrite !pq_push_elems, pq_new_elems. apply perm_swap. }
  destruct (pq_top_greatest q3 T5 [T3; T1] Hq3) as [Htop5 Hq2].
  { intros y Hy. apply Task_less_true. left.
    repeat (apply elem_of_cons in Hy as [->|Hy]); cbn; try lia. by apply elem_of_nil in Hy. }
  rewrite (worker_step_runs 0 w1 r1 _ T5); [|done|done|cbn; lia|cbn; lia].
  cbn [sched shared executed with_tasks tasks_ stop_ next_task_id_ workers_ func].
  destruct (pq_top_greatest (pq_pop q3) T3 [T1] Hq2) as [Htop3 Hq1].
  { intros y Hy. apply Task_less_true. left.
    repeat (apply elem_of_cons in Hy as [->|Hy]); cbn; try lia. by apply elem_of_nil in Hy. }
  rewrite (worker_step_runs 0 w2 r2 _ T3); [|done|done|cbn; lia|cbn; lia].
  cbn [sched shared executed with_tasks tasks_ stop_ next_task_id_ workers_ func].
  destruct (pq_top_greatest (pq_pop (pq_pop q3)) T1 [] Hq1) as [Htop1 _].
  { intros y Hy. by apply elem_of_nil in Hy. }
  rewrite (worker_step_runs 0 w3 r3 _ T1); [|done|done|cbn; lia|cbn; lia].
  reflexivity.
Qed.

End Scenario.

(** ** Runs of the scheduler *)

Section Runs.
Context {W Q : Type} `{PriorityQueue (Task W) Task_less Q}.
Implicit Type s : t Q.
Implicit Type st : system W Q.

(** The calls of the clients, by any of the three ways to submit, and
    the passes of the workers, in the order in which they take the
    lock. *)
Inductive call :=
  | ScheduleNow (f : W → W) (priority : Z) (now : Z)
  | ScheduleAfter (f : W → W) (delay : Z) (priority : Z) (now : Z)
  | ScheduleAt (f : W → W) (time : Z) (priority : Z)
  | CancelId (id : Z)
  | Pass (i : nat) (now_wait now_run : Z).

Definition with_sched (s : t Q) st : system W Q :=
  mkSystem s (shared st) (executed st).

Definition do_call (c : call) st : system W Q :=
  match c with
  | ScheduleNow f priority now =>
      with_sched (schedule f priority now (sched st)).2 st
  | ScheduleAfter f delay priority now =>
      with_sched (schedule_after f delay priority now (sched st)).2 st
  | ScheduleAt f time priority =>
      with_sched (schedule_at f time priority (sched st)).2 st
  | CancelId id => with_sched (cancel id (sched st)).2 st
  | Pass i now_wait now_run => worker_step i now_wait now_run st
  end.

Definition do_calls (l : list call) st : system W Q :=
  foldl (λ st c, do_call c st) st l.

Definition pending_ids st : list Z := task_id <$> pq_elems (tasks_ (sched st)).

(** The ids in use are those of the pending tasks and of the tasks
    called; they are pairwise different and below the next id. *)
Record ids_fresh st : Prop := {
  fresh_below : ∀ id, id ∈ pending_ids st ++ executed st →
                  0 ≤ id < next_task_id_ (sched st);
  fresh_nodup : NoDup (pending_ids st ++ executed st)
}.

Lemma scheduler_calls_app (l1 l2 : list call) st :
  do_calls (l1 ++ l2) st = do_calls l2 (do_calls l1 st).
Proof. apply foldl_app. Qed.

Lemma new_fresh (thread_count : nat) (w : W) :
  ids_fresh (mkSystem (new thread_count) w []).
Proof.
  split; unfold pending_ids; cbn; rewrite pq_new_elems; cbn.
  - intros id Hid. by apply elem_of_nil in Hid.
  - constructor.
Qed.

Lemma schedule_at_fresh (f : W → W) (time priority : Z) st :
  ids_fresh st →
  0 ≤ next_task_id_ (sched st) →
  next_task_id_ (sched st) + 1 < size_t_modulus →
  let st' := with_sched (schedule_at f time priority (sched st)).2 st in
  ids_fresh st'
  ∧ next_task_id_ (sched st') = next_task_id_ (sched st) + 1
  ∧ executed st' = executed st
  ∧ pending_ids st' ≡ₚ next_task_id_ (sched st) :: pending_ids st.
Proof.
  intros [Hb Hnd] H0 Hn. cbv zeta.
  assert (Hp : pending_ids (with_sched (schedule_at f time priority (sched st)).2 st)
               ≡ₚ next_task_id_ (sched st) :: pending_ids st).
  { unfold pending_ids. cbn. by rewrite pq_push_elems. }
  assert (Hx : next_task_id_ (sched (with_sched (schedule_at f time priority (sched st)).2 st))
               = next_task_id_ (sched st) + 1).
  { cbn. unfold fetch_add1. apply wrap_small. lia. }
  split_and!; [|done|done|done].
  split.
  - intros id. rewrite Hx, Hp. cbn [executed with_sched app].
    intros [->|Hid]%elem_of_cons; [lia|]. specialize (Hb id Hid). lia.
  - rewrite Hp. cbn [executed with_sched app]. constructor; [|done].
    intros Hin. specialize (Hb _ Hin). lia.
Qed.

Lemma cancel_pending (id : Z) st :
  let st' := with_sched (cancel id (sched st)).2 st in
  pending_ids st' ≡ₚ filter (λ x, x ≠ id) (pending_ids st)
  ∧ next_task_id_ (sched st') = next_task_id_ (sched st)
  ∧ executed st' = executed st.
Proof.
  cbv zeta. destruct (cancel_spec id (sched st)) as (_ & He & _ & Hn & _).
  split_and!; [|done|done].
  unfold pending_ids. cbn [sched with_sched]. rewrite He.
  rewrite (filter_Permutation _ _ _ (pop_order_perm (tasks_ (sched st)))).
  generalize (pq_elems (tasks_ (sched st))). intros l.
  induction l as [|x l IH]; [done|]. rewrite filter_cons. cbn [fmap list_fmap].
  rewrite filter_cons. destruct (decide (task_id x ≠ id)); cbn; by rewrite IH.
Qed.

Lemma pass_pending i now_wait now_run st :
  let st' := worker_step i now_wait now_run st in
  next_task_id_ (sched st') = next_task_id_ (sched st)
  ∧ ((executed st' = executed st ∧ pending_ids st' = pending_ids st)
     ∨ ∃ id, executed st' = executed st ++ [id]
         ∧ pending_ids st ≡ₚ id :: pending_ids st').
Proof.
  cbv zeta.
  destruct (worker_step_cases i now_wait now_run st)
    as [->|[(_ & _ & _ & ->)|(task & rest & Ht & Hq & Hpop & ->)]].
  - split; [done|by left].
  - split; [done|by left].
  - split; [done|]. right. exists (task_id task). split; [done|].
    unfold pending_ids. cbn. by rewrite Hq, Hpop.
Qed.

Lemma do_call_fresh (c : call) st :
  ids_fresh st →
  0 ≤ next_task_id_ (sched st) →
  next_task_id_ (sched st) + 1 < size_t_modulus →
  ids_fresh (do_call c st)
  ∧ next_task_id_ (sched st) ≤ next_task_id_ (sched (do_call c st))
      ≤ next_task_id_ (sched st) + 1.
Proof.
  intros Hf H0 Hn. destruct c as [f p now|f d p now|f time p|id|i a b]; cbn [do_call].
  - destruct (schedule_at_fresh f now p st Hf H0 Hn) as (A & B & _). split; [exact A|].
    unfold schedule. lia.
  - destruct (schedule_at_fresh f (now + d) p st Hf H0 Hn) as (A & B & _).
    split; [exact A|]. unfold schedule_after. lia.
  - destruct (schedule_at_fresh f time p st Hf H0 Hn) as (A & B & _). split; [exact A|]. lia.
  - destruct (cancel_pending id st) as (Hp & Hx & He). split; [|lia].
    destruct Hf as [Hb Hnd].
    assert (Hsub : filter (λ x, x ≠ id) (pending_ids st) ++ executed st
                   `sublist_of` pending_ids st ++ executed st).
    { apply sublist_app; [apply sublist_filter|done]. }
    split.
    + intros x. rewrite Hx, He, Hp. intros Hin. apply Hb.
      eapply elem_of_submseteq; [exact Hin|by apply sublist_submseteq].
    + rewrite He, Hp. by eapply sublist_NoDup.
  - destruct (pass_pending i a b st) as (Hx & [[He Hp]|(id & He & Hp)]); (split; [|lia]).
    + destruct Hf as [Hb Hnd]. split.
      * intros x. rewrite Hx, He, Hp. apply Hb.
      * by rewrite He, Hp.
    + destruct Hf as [Hb Hnd].
      assert (Hperm : pending_ids (worker_step i a b st) ++ executed (worker_step i a b st)
                      ≡ₚ pending_ids st ++ executed st).
      { rewrite He, Hp. rewrite app_assoc. cbn [app].
        symmetry. apply Permutation_cons_append. }
      split.
      * intros x. rewrite Hx, Hperm. apply Hb.
      * by rewrite Hperm.
Qed.

Lemma do_calls_fresh (l : list call) :
  ∀ st,
    ids_fresh st →
    0 ≤ next_task_id_ (sched st) →
    next_task_id_ (sched st) + Z.of_nat (length l) < size_t_modulus →
    ids_fresh (do_calls l st)
    ∧ next_task_id_ (sched st) ≤ next_task_id_ (sched (do_calls l st))
        ≤ next_task_id_ (sched st) + Z.of_nat (length l).
Proof.
  induction l as [|c l IH]; intros st Hf H0 Hn.
  - cbn. split; [done|lia].
  - change (do_calls (c :: l) st) with (do_calls l (do_call c st)).
    cbn [length] in *.
    destruct (do_call_fresh c st Hf H0) as [Hf1 Hn1]; [lia|].
    destruct (IH (do_call c st) Hf1) as [Hf2 Hn2]; [lia|lia|].
    split; [done|lia].
Qed.

(** X13.  However clients submit and cancel and workers pass, fewer than
    2^64 calls in all, no task is called twice, no two pending tasks
    have the same id, and no task that has been called is still
    pending. *)
Theorem no_task_runs_twice (l : list call) (thread_count : nat) (w : W) :
  Z.of_nat (length l) < size_t_modulus →
  let st := do_calls l (mkSystem (new thread_count) w []) in
  NoDup (executed st)
  ∧ NoDup (pending_ids st)
  ∧ (∀ id, id ∈ executed st → id ∉ pending_ids st)
  ∧ ∀ id, id ∈ pending_ids st ++ executed st → 0 ≤ id < Z.of_nat (length l).
Proof.
  intros Hl. cbv zeta.
  destruct (do_calls_fresh l (mkSystem (new thread_count) w []))
    as [[Hb Hnd] Hn]; [apply new_fresh|done|cbn; lia|].
  cbn in Hn. apply NoDup_app in Hnd as (Hp & Hdis & He).
  split_and!; [done|done| |].
  - intros id Hin Hin'. by apply (Hdis id).
  - intros id Hin. specialize (Hb id Hin). lia.
Qed.





(** X15.  A pending task that is not due yet holds back every due task
    of smaller priority: while such a task is pending, a pass calls
    nothing and changes nothing; the worker stays in the wait or, with
    the stop flag set, goes round the loop. *)
Theorem delayed_task_blocks_due_tasks (now_wait now_run now : Z) st (blocker : Task W) :
  blocker ∈ pq_elems (tasks_ (sched st)) →
  now < schedule_time blocker →
  (∀ task, task ∈ pq_elems (tasks_ (sched st)) →
     schedule_time task ≤ now → priority task < priority blocker) →
  now_wait ≤ now → now_run ≤ now →
  worker_loop_body now_wait now_run st
    = (if stop_ (sched st) then Idle else Waiting, st).
Proof.
  intros Hin Hlate Hlow Hw Hr.
  destruct (pq_top (tasks_ (sched st))) as [top|] eqn:Ht.
  2:{ apply pq_top_None in Ht. rewrite Ht in Hin. by apply elem_of_nil in Hin. }
  destruct (pq_top_Some _ _ Ht) as (Hmax & rest & Hq & _).
  assert (Hnd : now < schedule_time top).
  { destruct (decide (schedule_time top ≤ now)) as [Hdue|]; [|lia].
    assert (Htop : top ∈ pq_elems (tasks_ (sched st))) by (rewrite Hq; left).
    specialize (Hlow top Htop Hdue). specialize (Hmax blocker Hin).
    apply Task_less_false in Hmax. lia. }
  assert (Hdue : ∀ t, t ≤ now → top_due t (tasks_ (sched st)) = false).
  { intros t Hle. apply not_true_is_false. intros (task & Ht' & Hd)%top_due_true.
    rewrite Ht in Ht'. injection Ht' as <-. lia. }
  assert (Hne : pq_empty (tasks_ (sched st)) = false).
  { apply not_true_is_false. intros He%pq_empty_top. congruence. }
  unfold worker_loop_body. rewrite !Hdue, Hne by done.
  by destruct (stop_ (sched st)).
Qed.

Lemma pop_order_cons (q : Q) (task : Task W) :
  pq_top q = Some task → pop_order q = task :: pop_order (pq_pop q).
Proof.
  intros Ht. unfold pop_order. rewrite (pq_pop_size q task Ht). cbn [drain].
  by rewrite Ht.
Qed.

Lemma worker_runs_backlog (i : nat) (now : Z) (steps : list (nat * Z * Z)) :
  ∀ st,
    length steps = pq_size (tasks_ (sched st)) →
    workers_ (sched st) !! i = Some Running →
    Forall (λ x, x.1.1 = i ∧ now ≤ x.1.2 ∧ now ≤ x.2) steps →
    (∀ task, task ∈ pq_elems (tasks_ (sched st)) → schedule_time task ≤ now) →
    let st' := run_workers steps st in
    executed st' = executed st ++ (task_id <$> pop_order (tasks_ (sched st)))
    ∧ shared st' = foldl (λ w task, func task w) (shared st) (pop_order (tasks_ (sched st)))
    ∧ pq_elems (tasks_ (sched st')) = []
    ∧ workers_ (sched st') = workers_ (sched st).
Proof.
  induction steps as [|[[j a] b] steps IH]; intros st Hn Hw Hsteps Hdue; cbv zeta.
  - cbn [length] in Hn. unfold pop_order. rewrite <- Hn. cbn.
    rewrite app_nil_r. split_and!; [done|done| |done].
    symmetry in Hn. rewrite pq_size_elems in Hn. by apply nil_length_inv in Hn.
  - change (run_workers ((j, a, b) :: steps) st)
      with (run_workers steps (worker_step j a b st)).
    apply Forall_cons in Hsteps as [(Hj & Ha & Hb) Hsteps]. cbn in Hj, Ha, Hb. subst j.
    destruct (pq_top (tasks_ (sched st))) as [task|] eqn:Ht.
    2:{ apply pq_top_None in Ht. rewrite pq_size_elems, Ht in Hn. done. }
    destruct (pq_top_Some _ _ Ht) as (_ & rest & Hq & Hp).
    assert (Htd : schedule_time task ≤ now) by (apply Hdue; rewrite Hq; left).
    rewrite (worker_step_runs i a b st task) by (done || lia).
    set (st1 := mkSystem _ _ _).
    destruct (IH st1) as (A & B & C & D).
    + unfold st1. cbn. rewrite (pq_pop_size _ _ Ht) in Hn. cbn [length] in Hn. lia.
    + done.
    + done.
    + unfold st1. cbn. intros other Hin. apply Hdue. rewrite Hq. right. by rewrite <- Hp.
    + rewrite (pop_order_cons _ _ Ht). subst st1.
      cbn [sched shared executed tasks_ workers_ with_tasks] in A, B, C, D.
      split_and!; [|done|done|done].
      rewrite A. cbn [fmap list_fmap]. by rewrite <- app_assoc.
Qed.

(** X16.  One worker that finds a backlog of due tasks calls all of
    them, one per pass, in the order of the heap: a task of greater
    priority before one of smaller, and among tasks of one priority the
    one with the earlier time first; what they leave in the shared
    memory is what calling them in that order leaves. *)
Theorem worker_runs_backlog_in_order (i : nat) (now : Z) (steps : list (nat * Z * Z)) st :
  length steps = pending_tasks (sched st) →
  workers_ (sched st) !! i = Some Running →
  Forall (λ x, x.1.1 = i ∧ now ≤ x.1.2 ∧ now ≤ x.2) steps →
  (∀ task, task ∈ pq_elems (tasks_ (sched st)) → schedule_time task ≤ now) →
  let st' := run_workers steps st in
  let order := pop_order (tasks_ (sched st)) in
  order ≡ₚ pq_elems (tasks_ (sched st))
  ∧ StronglySorted (λ a b, key_before (key a) (key b)) order
  ∧ executed st' = executed st ++ (task_id <$> order)
  ∧ shared st' = foldl (λ w task, func task w) (shared st) order
  ∧ pending_tasks (sched st') = 0%nat.
Proof.
  intros Hn Hw Hsteps Hdue. cbv zeta.
  destruct (worker_runs_backlog i now steps st Hn Hw Hsteps Hdue) as (A & B & C & _).
  split_and!; [apply pop_order_perm| |done|done|].
  - pose proof (pop_order_sorted (tasks_ (sched st))) as Hs. clear A B.
    induction Hs as [|a l Hl IH Ha]; constructor; [done|].
    eapply Forall_impl; [exact Ha|]. intros b Hb. by apply Task_less_key.
  - unfold pending_tasks. by rewrite pq_size_elems, C.
Qed.

End Runs.

(** The scheduler over the list priority queue. *)
Definition list_queue (W : Type) : PriorityQueue (Task W) Task_less (list (Task W)) :=
  list_priority_queue Task_less Task_less_asym Task_less_negtrans.


(** A scheduler with one worker and one pending task, of id 0, which
    appends 42 to the shared vector: what the constructor and one
    [schedule] at time 0 leave. *)
Definition one_pending : system (list Z) (list (Task (list Z))) :=
  mkSystem (mk [mkTask (appender 42) 0 0 0] false 1 [Running]) [] [].

Lemma one_pending_built :
  act (H := list_queue _) (Schedule (appender 42) 0 0)
      (mkSystem (new (H := list_queue _) 1) [] []) = one_pending.
Proof. reflexivity. Qed.

(** C2 as stated fails: the task that is pending when the destructor
    sets the stop flag is called by the worker before it returns. *)
Lemma destructor_calls_pending_task :
  pq_elems (PriorityQueue := list_queue _) (tasks_ (sched one_pending))
    = [mkTask (appender 42) 0 0 0]
  ∧ destructor (H := list_queue _) [(0%nat, 1, 1); (0%nat, 2, 2)] one_pending
    = Some (mkSystem (mk [] true 1 [Returned]) [42] [0]).
Proof. split; reflexivity. Qed.

Lemma destructor_runs_pending_witness :
  ∃ st', destructor (H := list_queue _) (drain_steps (H := list_queue _) 1 one_pending)
           one_pending = Some st'.
Proof.
  apply (destructor_runs_pending (H := list_queue _) [] 1 one_pending).
  - done.
  - repeat constructor.
  - intros task Hin. apply list_elem_of_singleton in Hin as ->. cbn. lia.
Defined.

(** C5 as stated fails: the worker, woken by the first [schedule], may
    make its pass before the other two tasks are submitted, and then the
    task of priority 1 is called first. *)
Lemma worker_runs_first_submission :
  shared (run (H := list_queue _)
            [Schedule (appender 1) 1 0;
             Step 0 1 2;
             Schedule (appender 5) 5 3;
             Schedule (appender 3) 3 4;
             Step 0 5 6; Step 0 7 8; Step 0 9 10]
            (mkSystem (new (H := list_queue _) 1) [] [])) = [1; 5; 3].
Proof. vm_compute. reflexivity. Qed.

Lemma dispatch_order_witness :
  shared (run (H := list_queue _)
            [Schedule (appender 1) 1 0;
             Schedule (appender 5) 5 1;
             Schedule (appender 3) 3 2;
             Step 0 3 4; Step 0 5 6; Step 0 7 8]
            (mkSystem (new (H := list_queue _) 1) [] [])) = [5; 3; 1].
Proof.
  apply (dispatch_order (H := list_queue _) 0 1 2 3 4 5 6 7 8); lia.
Defined.

(** Three pending tasks of ids 0, 1 and 2. *)
Definition three_pending : t (list (Task (list Z))) :=
  mk [mkTask (appender 1) 1 0 0; mkTask (appender 5) 5 1 1; mkTask (appender 3) 3 2 2]
     false 3 [Running].


(** The clients submit three tasks and cancel the second one while the
    worker [0] makes two passes. *)
Definition busy_calls : list (call (W := list Z)) :=
  [ScheduleNow (appender 1) 1 0; ScheduleAfter (appender 2) 5 2 0;
   ScheduleAt (appender 3) 0 3; Pass 0 1 1; CancelId 1; Pass 0 9 9].

Lemma no_task_runs_twice_witness :
  let st := do_calls (H := list_queue _) busy_calls
              (mkSystem (new (H := list_queue _) 1) [] []) in
  NoDup (executed st)
  ∧ NoDup (pending_ids (H := list_queue _) st)
  ∧ (∀ id, id ∈ executed st → id ∉ pending_ids (H := list_queue _) st)
  ∧ ∀ id, id ∈ pending_ids (H := list_queue _) st ++ executed st
      → 0 ≤ id < Z.of_nat (length busy_calls).
Proof.
  apply (no_task_runs_twice (H := list_queue _) busy_calls 1 []).
  vm_compute. reflexivity.
Defined.


(** A task of priority 9 that is due at time 100, and a task of priority
    1 that has been due since time 0. *)
Definition held_back : system (list Z) (list (Task (list Z))) :=
  mkSystem (mk [mkTask (appender 1) 1 0 0; mkTask (appender 9) 9 100 1] false 2 [Running])
           [] [].

Lemma delayed_task_blocks_due_tasks_witness :
  worker_loop_body (H := list_queue _) 5 5 held_back = (Waiting, held_back).
Proof.
  apply (delayed_task_blocks_due_tasks (H := list_queue _) 5 5 5 held_back
           (mkTask (appender 9) 9 100 1)).
  - right. left.
  - cbn. lia.
  - intros task Hin. cbn in Hin.
    apply elem_of_cons in Hin as [->|Hin]; [cbn; lia|].
    apply list_elem_of_singleton in Hin as ->. cbn. lia.
  - lia.
  - lia.
Defined.

Lemma worker_runs_backlog_in_order_witness :
  let st := mkSystem three_pending [] [] in
  let st' := run_workers (H := list_queue _) [(0%nat, 2, 2); (0%nat, 3, 4); (0%nat, 5, 5)] st in
  let order := pop_order (H := list_queue _) (tasks_ three_pending) in
  order ≡ₚ tasks_ three_pending
  ∧ StronglySorted (λ a b, key_before (key a) (key b)) order
  ∧ executed st' = [] ++ (task_id <$> order)
  ∧ shared st' = foldl (λ w task, func task w) [] order
  ∧ pending_tasks (H := list_queue _) (sched st') = 0%nat.
Proof.
  apply (worker_runs_backlog_in_order (H := list_queue _) 0 2
           [(0%nat, 2, 2); (0%nat, 3, 4); (0%nat, 5, 5)] (mkSystem three_pending [] [])).
  - reflexivity.
  - reflexivity.
  - repeat constructor; cbn; lia.
  - intros task Hin. cbn in Hin.
    repeat (apply elem_of_cons in Hin as [->|Hin]; [cbn; lia|]).
    by apply elem_of_nil in Hin.
Defined.

End PriorityScheduler.

(** ** executor/thread_pool_executor.hpp *)

Module ThreadPoolExecutor.

Record Task (W : Type) := mkTask {
  func : W → W;
  priority : Z;
  schedule_time : Z
}.
Arguments mkTask {W}.
Arguments func {W}.
Arguments priority {W}.
Arguments schedule_time {W}.

(** [bool operator<(const Task& other) const] *)
Definition Task_less {W} (this other : Task W) : bool :=
  if decide (priority this ≠ priority other)
  then bool_decide (priority this < priority other)
  else bool_decide (schedule_time this > schedule_time other).

(** [std::runtime_error] with its message. *)
Inductive exception := runtime_error (what : string).

(** ["Task queue is full"] *)
Definition queue_full : exception :=
  runtime_error "Task queue is full"%string.

(** A call returns (with its future) or throws. *)
Inductive completion := Returns | Throws (e : exception).

Record t (W Q : Type) := mk {
  workers_ : nat;
  tasks_ : Q;
  stop_ : bool;
  max_queue_size_ : Z;
  task_pool_ : MemoryPool.t (Task W)
}.
Arguments mk {W Q}.
Arguments workers_ {W Q}.
Arguments tasks_ {W Q}.
Arguments stop_ {W Q}.
Arguments max_queue_size_ {W Q}.
Arguments task_pool_ {W Q}.

Section Ops.
Context {W Q : Type} `{PriorityQueue (Task W) Task_less Q}.
Implicit Type s : t W Q.


(** [explicit ThreadPoolExecutor(size_t thread_count, size_t max_queue_size = 10000)] *)
Definition new (thread_count : nat) (max_queue_size : Z) : t W Q :=
  mk thread_count pq_new false max_queue_size (MemoryPool.new (Task W)).

Definition queue_size s : nat := pq_size (tasks_ s).
Definition thread_count s : nat := workers_ s.

(** [submit(f, args...)].  [f] is the callable with its arguments
    bound and [now] the reading of the clock that the [Task] constructor
    takes by default.  Under the lock: the test against
    [max_queue_size_], then the task built in a block of [task_pool_]
    and pushed. *)
Definition submit (f : W → W) (now : Z) s : option (completion * t W Q) :=
  if decide (max_queue_size_ s ≤ Z.of_nat (pq_size (tasks_ s)))
  then Some (Throws queue_full, s)
  else
    let task := mkTask f 0 now in
    '(_, pool) ← MemoryPool.allocate task (task_pool_ s);
    Some (Returns,
          mk (workers_ s) (pq_push task (tasks_ s)) (stop_ s) (max_queue_size_ s) pool).

Definition submit_with_priority (priority : Z) (f : W → W) (now : Z) s
  : option (completion * t W Q) :=
  if decide (max_queue_size_ s ≤ Z.of_nat (pq_size (tasks_ s)))
  then Some (Throws queue_full, s)
  else
    let task := mkTask f priority now in
    '(_, pool) ← MemoryPool.allocate task (task_pool_ s);
    Some (Returns,
          mk (workers_ s) (pq_push task (tasks_ s)) (stop_ s) (max_queue_size_ s) pool).

Definition schedule_after (delay : Z) (f : W → W) (now : Z) s
  : option (completion * t W Q) :=
  let schedule_time := now + delay in
  if decide (max_queue_size_ s ≤ Z.of_nat (pq_size (tasks_ s)))
  then Some (Throws queue_full, s)
  else
    let task := mkTask f 0 schedule_time in
    '(_, pool) ← MemoryPool.allocate task (task_pool_ s);
    Some (Returns,
          mk (workers_ s) (pq_push task (tasks_ s)) (stop_ s) (max_queue_size_ s) pool).

End Ops.

Section Facts.
Context {W Q : Type} `{PriorityQueue (Task W) Task_less Q}.
Implicit Type s : t W Q.







End Facts.

(** ** The workers of the executor *)

(** What one pass through the body of [worker_loop] does: it stays in
    [condition_.wait], returns, calls the task it popped, or goes round
    again without a task. *)
Inductive outcome := Waiting | Return | Ran | Spin.

(** The executor with what surrounds it: the memory the callables act
    on, the tasks called so far, oldest first, the workers that have
    returned from [worker_loop], and the number of submissions that have
    returned a future. *)
Record system (W Q : Type) := mkSystem {
  executor : t W Q;
  shared : W;
  called : list (Task W);
  returned : list nat;
  accepted : nat
}.
Arguments mkSystem {W Q}.
Arguments executor {W Q}.
Arguments shared {W Q}.
Arguments called {W Q}.
Arguments returned {W Q}.
Arguments accepted {W Q}.

Section Workers.
Context {W Q : Type} `{PriorityQueue (Task W) Task_less Q}.
Implicit Type s : t W Q.
Implicit Type st : system W Q.

Definition with_tasks (q : Q) s : t W Q :=
  mk (workers_ s) q (stop_ s) (max_queue_size_ s) (task_pool_ s).

(** [!tasks_.empty() && tasks_.top().schedule_time <= current_time] *)
Definition top_due (current_time : Z) (q : Q) : bool :=
  negb (pq_empty q) &&
  match pq_top q with
  | Some task => bool_decide (schedule_time task ≤ current_time)
  | None => false
  end.

(** One pass through the [while (true)] of [worker_loop]; [now] is what
    [steady_clock::now()] returns in it. *)
Definition worker_loop_body (now : Z) st : outcome * system W Q :=
  let s := executor st in
  if negb (stop_ s || negb (pq_empty (tasks_ s))) then (Waiting, st)
  else if stop_ s && pq_empty (tasks_ s) then (Return, st)
  else
    let current_time := now in
    if top_due current_time (tasks_ s) then
      match pq_top (tasks_ s) with
      | Some task =>
          (Ran,
           mkSystem (with_tasks (pq_pop (tasks_ s)) s) (func task (shared st))
                    (called st ++ [task]) (returned st) (accepted st))
      | None => (Spin, st)
      end
    else (Spin, st).

(** Worker [i] makes one pass, if there is such a worker and it has not
    returned yet. *)
Definition worker_step (i : nat) (now : Z) st : system W Q :=
  if decide ((i < workers_ (executor st))%nat ∧ i ∉ returned st) then
    let '(o, st1) := worker_loop_body now st in
    match o with
    | Return =>
        mkSystem (executor st1) (shared st1) (called st1) (i :: returned st1) (accepted st1)
    | _ => st1
    end
  else st.

Definition run_workers (steps : list (nat * Z)) st : system W Q :=
  foldl (λ st '(i, now), worker_step i now st) st steps.

(** [~ThreadPoolExecutor()]: [stop_ = true] under the lock and
    [notify_all], then the joins.  [steps] are the passes the workers
    make while the destructor waits in [join]; [None] says that it still
    waits after them. *)
Definition request_stop st : system W Q :=
  let s := executor st in
  mkSystem (mk (workers_ s) (tasks_ s) true (max_queue_size_ s) (task_pool_ s))
           (shared st) (called st) (returned st) (accepted st).

Definition joined st : bool :=
  forallb (λ i, bool_decide (i ∈ returned st)) (seq 0 (workers_ (executor st))).

Definition destructor (steps : list (nat * Z)) st : option (system W Q) :=
  let st1 := run_workers steps (request_stop st) in
  if joined st1 then Some st1 else None.

(** A run of the executor: the submissions of its clients and the passes
    of its workers, in the order in which they take the lock.  A
    submission that throws leaves the run going, as a client that catches
    the exception does. *)
Inductive call :=
  | Submit (f : W → W) (now : Z)
  | SubmitWithPriority (priority : Z) (f : W → W) (now : Z)
  | ScheduleAfter (delay : Z) (f : W → W) (now : Z)
  | Pass (i : nat) (now : Z).

Definition submitted (r : option (completion * t W Q)) st : option (system W Q) :=
  '(c, s) ← r;
  Some (mkSystem s (shared st) (called st) (returned st)
          (match c with Returns => S (accepted st) | Throws _ => accepted st end)).

Definition do_call (c : call) st : option (system W Q) :=
  match c with
  | Submit f now => submitted (submit f now (executor st)) st
  | SubmitWithPriority p f now => submitted (submit_with_priority p f now (executor st)) st
  | ScheduleAfter delay f now => submitted (schedule_after delay f now (executor st)) st
  | Pass i now => Some (worker_step i now st)
  end.

Fixpoint do_calls (l : list call) st : option (system W Q) :=
  match l with
  | [] => Some st
  | c :: l => st1 ← do_call c st; do_calls l st1
  end.


Lemma executor_top_due now (q : Q) :
  top_due now q = true ↔ ∃ task, pq_top q = Some task ∧ schedule_time task ≤ now.
Proof.
  unfold top_due. split.
  - intros [_ Ht]%andb_true_iff. destruct (pq_top q) as [task|]; [|done].
    exists task. split; [done|]. by apply bool_decide_eq_true in Ht.
  - intros (task & Ht & Hdue). apply andb_true_iff. split.
    + apply negb_true_iff. apply not_true_is_false. intros He%pq_empty_top. congruence.
    + rewrite Ht. by apply bool_decide_eq_true.
Qed.

(** What a pass does, case by case. *)
Lemma executor_pass_cases now st :
  let r := worker_loop_body now st in
  (r = (Waiting, st) ∧ stop_ (executor st) = false ∧ pq_elems (tasks_ (executor st)) = [])
  ∨ (r = (Spin, st) ∧ pq_elems (tasks_ (executor st)) ≠ [])
  ∨ (r = (Return, st) ∧ stop_ (executor st) = true ∧ pq_elems (tasks_ (executor st)) = [])
  ∨ (∃ task, pq_top (tasks_ (executor st)) = Some task
       ∧ schedule_time task ≤ now
       ∧ r = (Ran,
              mkSystem (with_tasks (pq_pop (tasks_ (executor st))) (executor st))
                       (func task (shared st)) (called st ++ [task])
                       (returned st) (accepted st))).
Proof.
  cbv zeta. unfold worker_loop_body.
  destruct (pq_empty (tasks_ (executor st))) eqn:He.
  - pose proof He as He'. apply pq_empty_elems in He'.
    destruct (stop_ (executor st)); cbn [orb negb andb].
    + right; right; left. done.
    + left. done.
  - assert (Hne : pq_elems (tasks_ (executor st)) ≠ []).
    { intros Hnil. apply pq_empty_elems in Hnil. congruence. }
    rewrite orb_true_r, andb_false_r. cbn [negb].
    destruct (top_due now (tasks_ (executor st))) eqn:Hd.
    + apply executor_top_due in Hd as (task & Ht & Hdue). rewrite Ht.
      right; right; right. by exists task.
    + right; left. done.
Qed.








(** X18.  The wait of a worker ends as soon as a task is pending, due
    or not.  While a pending task that is not due yet has a greater
    priority than every due one, a pass calls nothing and changes
    nothing, and the worker goes round the loop instead of waiting. *)
Theorem delayed_task_makes_worker_spin (now : Z) st (blocker : Task W) :
  blocker ∈ pq_elems (tasks_ (executor st)) →
  now < schedule_time blocker →
  (∀ task, task ∈ pq_elems (tasks_ (executor st)) →
     schedule_time task ≤ now → priority task < priority blocker) →
  worker_loop_body now st = (Spin, st).
Proof.
  intros Hin Hlate Hlow.
  destruct (executor_pass_cases now st)
    as [(_ & _ & He)|[(-> & _)|[(_ & _ & He)|(task & Ht & Hdue & _)]]]; [|done| |].
  - rewrite He in Hin. by apply elem_of_nil in Hin.
  - rewrite He in Hin. by apply elem_of_nil in Hin.
  - exfalso. destruct (pq_top_Some _ _ Ht) as (Hmax & rest & Hq & _).
    assert (Htop : task ∈ pq_elems (tasks_ (executor st))) by (rewrite Hq; left).
    specialize (Hlow task Htop Hdue). specialize (Hmax blocker Hin).
    unfold Task_less in Hmax. case_decide; [|lia].
    apply bool_decide_eq_false in Hmax. lia.
Qed.


Lemma executor_pop_order_cons (q : Q) (task : Task W) :
  pq_top q = Some task → pop_order q = task :: pop_order (pq_pop q).
Proof.
  intros Ht. unfold pop_order. rewrite (pq_pop_size q task Ht). cbn [drain].
  by rewrite Ht.
Qed.

Lemma executor_worker_runs (i : nat) (now : Z) st task :
  (i < workers_ (executor st))%nat → i ∉ returned st →
  pq_top (tasks_ (executor st)) = Some task →
  schedule_time task ≤ now →
  worker_step i now st
  = mkSystem (with_tasks (pq_pop (tasks_ (executor st))) (executor st))
             (func task (shared st)) (called st ++ [task]) (returned st) (accepted st).
Proof.
  intros Hi Hr Ht Hdue. unfold worker_step. rewrite decide_True by done.
  destruct (executor_pass_cases now st)
    as [(_ & _ & He)|[(E & _)|[(_ & _ & He)|(task' & Ht' & _ & ->)]]].
  - apply pq_top_None in He. congruence.
  - exfalso. unfold worker_loop_body in E.
    assert (Hd : top_due now (tasks_ (executor st)) = true).
    { apply executor_top_due. by exists task. }
    rewrite Hd, Ht in E.
    destruct (negb _); [done|]. destruct (_ && _); done.
  - apply pq_top_None in He. congruence.
  - rewrite Ht in Ht'. by injection Ht' as <-.
Qed.

(** One worker calls a backlog of due tasks in the order of the heap. *)
Lemma executor_runs_backlog (i : nat) (now : Z) (n : nat) :
  ∀ st,
    n = pq_size (tasks_ (executor st)) →
    (i < workers_ (executor st))%nat → i ∉ returned st →
    (∀ task, task ∈ pq_elems (tasks_ (executor st)) → schedule_time task ≤ now) →
    let st' := run_workers (replicate n (i, now)) st in
    called st' = called st ++ pop_order (tasks_ (executor st))
    ∧ shared st' = foldl (λ w task, func task w) (shared st) (pop_order (tasks_ (executor st)))
    ∧ pq_elems (tasks_ (executor st')) = []
    ∧ returned st' = returned st
    ∧ workers_ (executor st') = workers_ (executor st)
    ∧ stop_ (executor st') = stop_ (executor st).
Proof.
  induction n as [|n IH]; intros st Hn Hi Hr Hdue; cbv zeta.
  - unfold pop_order. rewrite <- Hn. cbn. rewrite app_nil_r.
    split_and!; [done|done| |done|done|done].
    symmetry in Hn. rewrite pq_size_elems in Hn. by apply nil_length_inv in Hn.
  - change (run_workers (replicate (S n) (i, now)) st)
      with (run_workers (replicate n (i, now)) (worker_step i now st)).
    destruct (pq_top (tasks_ (executor st))) as [task|] eqn:Ht.
    2:{ apply pq_top_None in Ht. rewrite pq_size_elems, Ht in Hn. done. }
    destruct (pq_top_Some _ _ Ht) as (_ & rest & Hq & Hp).
    assert (Htd : schedule_time task ≤ now) by (apply Hdue; rewrite Hq; left).
    rewrite (executor_worker_runs i now st task) by done.
    set (st1 := mkSystem _ _ _ _ _).
    destruct (IH st1) as (A & B & C & D & E & F).
    + unfold st1. cbn. rewrite (pq_pop_size _ _ Ht) in Hn. lia.
    + done.
    + done.
    + unfold st1. cbn. intros other Hin. apply Hdue. rewrite Hq. right. by rewrite <- Hp.
    + rewrite (executor_pop_order_cons _ _ Ht). subst st1.
      cbn [executor shared called returned accepted tasks_ workers_ stop_ with_tasks]
        in A, B, C, D, E, F.
      split_and!; [|done..].
      rewrite A. by rewrite <- app_assoc.
Qed.

(** With the stop flag set and nothing pending, the workers return one
    after the other. *)
Lemma executor_workers_return (k : nat) :
  ∀ st,
    stop_ (executor st) = true → pq_elems (tasks_ (executor st)) = [] →
    (k ≤ workers_ (executor st))%nat →
    (∀ j, (j < k)%nat → j ∈ returned st) →
    ∀ now m, (k + m = workers_ (executor st))%nat →
    let st' := run_workers ((λ j, (j, now)) <$> seq k m) st in
    joined st' = true
    ∧ executor st' = executor st ∧ shared st' = shared st ∧ called st' = called st.
Proof.
  intros st Hs He Hk Hret now m. revert k st Hs He Hk Hret.
  induction m as [|m IH]; intros k st Hs He Hk Hret Hkm; cbv zeta.
  - cbn. split_and!; [|done..]. unfold joined. apply forallb_forall.
    intros j Hj. apply in_seq in Hj. apply bool_decide_eq_true. apply Hret. lia.
  - cbn [seq fmap list_fmap].
    change (run_workers ((k, now) :: ((λ j, (j, now)) <$> seq (S k) m)) st)
      with (run_workers ((λ j, (j, now)) <$> seq (S k) m) (worker_step k now st)).
    assert (Hstep : ∃ r, worker_step k now st
                         = mkSystem (executor st) (shared st) (called st) r (accepted st)
                         ∧ ∀ j, (j < S k)%nat → j ∈ r).
    { unfold worker_step. case_decide as Hd.
      - destruct (executor_pass_cases now st)
          as [(_ & Hf & _)|[(_ & Hne)|[(-> & _)|(task & Ht & _)]]].
        + congruence.
        + done.
        + eexists. split; [reflexivity|]. intros j Hj.
          destruct (decide (j = k)) as [->|]; [left|right; apply Hret; lia].
        + apply pq_top_None in He. congruence.
      - exists (returned st). split; [by destruct st|]. intros j Hj.
        destruct (decide (j = k)) as [->|]; [|apply Hret; lia].
        destruct (decide (k ∈ returned st)); [done|]. exfalso. apply Hd. split; [lia|done]. }
    destruct Hstep as (r & -> & Hr).
    set (st1 := mkSystem _ _ _ _ _).
    destruct (IH (S k) st1) as (A & B & C & D); [done|done|cbn; lia|done|cbn; lia|].
    split_and!; done.
Qed.

(** X20.  The destructor of an executor with at least one worker, called
    when every pending task is due, comes to its end: the workers call
    every pending task, in the order of the heap, and then return. *)
Theorem destructor_runs_backlog (now : Z) st :
  (0 < workers_ (executor st))%nat →
  returned st = [] →
  (∀ task, task ∈ pq_elems (tasks_ (executor st)) → schedule_time task ≤ now) →
  let steps := replicate (queue_size (executor st)) (0%nat, now)
               ++ ((λ j, (j, now)) <$> seq 0 (workers_ (executor st))) in
  ∃ st', destructor steps st = Some st'
    ∧ called st' = called st ++ pop_order (tasks_ (executor st))
    ∧ shared st' = foldl (λ w task, func task w) (shared st) (pop_order (tasks_ (executor st)))
    ∧ queue_size (executor st') = 0%nat.
Proof.
  intros Hw Hr Hdue. cbv zeta. unfold destructor, run_workers. rewrite foldl_app.
  fold (run_workers (replicate (queue_size (executor st)) (0%nat, now)) (request_stop st)).
  destruct (executor_runs_backlog 0 now (queue_size (executor st)) (request_stop st))
    as (A & B & C & D & E & F); [done|done|cbn; rewrite Hr; apply not_elem_of_nil|done|].
  set (st1 := run_workers _ (request_stop st)) in *.
  fold (run_workers ((λ j, (j, now)) <$> seq 0 (workers_ (executor st))) st1).
  destruct (executor_workers_return 0 st1) with (now := now) (m := workers_ (executor st))
    as (J & G & I & K); [by rewrite F|done|lia|intros j Hj; lia|by rewrite E|].
  rewrite J. eexists. split; [reflexivity|]. rewrite K, I, G.
  split_and!; [done|done|]. unfold queue_size. by rewrite pq_size_elems, C.
Qed.

End Workers.

Definition list_queue (W : Type) : PriorityQueue (Task W) Task_less (list (Task W)).
Proof.
  refine (list_priority_queue Task_less _ _).
  - intros a b. unfold Task_less. repeat case_decide; rewrite ?bool_decide_eq_true, ?bool_decide_eq_false; lia.
  - intros a b c. unfold Task_less. repeat case_decide; rewrite ?bool_decide_eq_true, ?bool_decide_eq_false; lia.
Defined.

(** An executor for at most one pending task. *)
Definition tiny : t (list Z) (list (Task (list Z))) := new (H := list_queue _) 0 1.


(** On the executor [tiny] the second submission is refused. *)
Lemma tiny_second_submit_throws :
  ∃ s', submit (H := list_queue _) (λ v, v ++ [1]) 0 tiny = Some (Returns, s')
    ∧ submit (H := list_queue _) (λ v, v ++ [2]) 0 s' = Some (Throws queue_full, s').
Proof. eexists. split; reflexivity. Qed.


(** An executor with one worker, a task of priority 9 that is due at
    time 100 and a task of priority 1 that has been due since time 0. *)
Definition held_back : system (list Z) (list (Task (list Z))) :=
  mkSystem (mk 1 [mkTask (λ v, v ++ [1]) 1 0; mkTask (λ v, v ++ [9]) 9 100] false 10
               (MemoryPool.new _))
           [] [] [] 2.

Lemma delayed_task_makes_worker_spin_witness :
  worker_loop_body (H := list_queue _) 5 held_back = (Spin, held_back).
Proof.
  apply (delayed_task_makes_worker_spin (H := list_queue _) 5 held_back
           (mkTask (λ v, v ++ [9]) 9 100)).
  - right. left.
  - cbn. lia.
  - intros task Hin. cbn in Hin.
    apply elem_of_cons in Hin as [->|Hin]; [cbn; lia|].
    apply list_elem_of_singleton in Hin as ->. cbn. lia.
Defined.


Lemma destructor_runs_backlog_witness :
  ∃ st',
    destructor (H := list_queue _) [(0%nat, 100); (0%nat, 100); (0%nat, 100)] held_back
      = Some st'
    ∧ called st' = [mkTask (λ v, v ++ [9]) 9 100; mkTask (λ v, v ++ [1]) 1 0]
    ∧ shared st' = [9; 1]
    ∧ queue_size (H := list_queue _) (executor st') = 0%nat.
Proof.
  apply (destructor_runs_backlog (H := list_queue _) 100 held_back).
  - cbn. lia.
  - reflexivity.
  - intros task Hin. cbn in Hin.
    apply elem_of_cons in Hin as [->|Hin]; [cbn; lia|].
    apply list_elem_of_singleton in Hin as ->. cbn. lia.
Defined.

End ThreadPoolExecutor.

(** ** scheduler/work_stealing_scheduler.hpp: [WorkStealingQueue]

    Every member function holds the mutex of the deque for its whole
    body, so a call is one step.  The deque is the list of its elements,
    front first. *)

Module WorkStealingQueue.

Section Ops.
Context {T : Type}.

Definition t : Type := list T.

Definition new : t := [].

Definition empty (tasks_ : t) : bool :=
  match tasks_ with [] => true | _ => false end.

(** [tasks_.push_back(std::move(task))] *)
Definition push (task : T) (tasks_ : t) : t := tasks_ ++ [task].

(** [bool try_pop(T& task)]: the result, the caller's variable
    afterwards, the deque. *)
Definition try_pop (task : T) (tasks_ : t) : bool * T * t :=
  if empty tasks_ then (false, task, tasks_)
  else
    match last tasks_ with
    | Some back => (true, back, take (length tasks_ - 1) tasks_)
    | None => (false, task, tasks_)
    end.

Definition try_steal (task : T) (tasks_ : t) : bool * T * t :=
  if empty tasks_ then (false, task, tasks_)
  else
    match tasks_ with
    | front :: rest => (true, front, rest)
    | [] => (false, task, tasks_)
    end.

(** A sequence of calls on one deque. *)
Inductive call := Push (task : T) | Pop | Steal.

Definition do_call (tasks_ : t) (task : T) (c : call) : t :=
  match c with
  | Push x => push x tasks_
  | Pop => (try_pop task tasks_).2
  | Steal => (try_steal task tasks_).2
  end.

(** The tasks pushed by a sequence of calls, oldest first. *)
Definition pushed (cs : list call) : list T :=
  omap (λ c, match c with Push x => Some x | _ => None end) cs.

End Ops.
Arguments t : clear implicits.

Section Facts.
Context {T : Type}.
Implicit Type q : t T.

Lemma try_pop_snoc (task x : T) q : try_pop task (q ++ [x]) = (true, x, q).
Proof.
  unfold try_pop. rewrite last_snoc, length_app. cbn.
  replace (length q + 1 - 1)%nat with (length q) by lia.
  rewrite take_app_length. by destruct q.
Qed.

(** The deque holds, in the order of their pushes, tasks that were
    pushed. *)
Lemma remaining_in_push_order (task : T) (cs : list call) :
  sublist (foldl (λ q c, do_call q task c) new cs) (pushed cs).
Proof.
  induction cs as [|c cs IH] using rev_ind; [done|].
  rewrite foldl_app. cbn [foldl]. unfold pushed in *. rewrite omap_app. cbn [omap].
  set (q := foldl _ new cs) in *. destruct c as [x| |]; cbn.
  - by apply sublist_app.
  - rewrite app_nil_r. etrans; [|exact IH].
    unfold try_pop. destruct (empty q); [done|].
    destruct (last q); [|done]. cbn. apply sublist_take.
  - rewrite app_nil_r. etrans; [|exact IH].
    unfold try_steal. destruct q; cbn; [done|]. by apply sublist_cons.
Qed.

(** C9.  On the deque that any sequence of calls leaves, [push] puts
    the task at the tail; [try_pop] takes the task at the tail, the last
    pushed of those remaining; [try_steal] takes the task at the head,
    the first pushed of those remaining; and each fails exactly on the
    empty deque, leaving it and the caller's variable alone. *)
Theorem pop_lifo_steal_fifo (task x : T) (cs : list call) :
  let q := foldl (λ q c, do_call q task c) new cs in
  sublist q (pushed cs)
  ∧ push x q = q ++ [x]
  ∧ try_pop task (push x q) = (true, x, q)
  ∧ (∀ q' back, q = q' ++ [back] → try_pop task q = (true, back, q'))
  ∧ (∀ front q', q = front :: q' → try_steal task q = (true, front, q'))
  ∧ ((try_pop task q).1.1 = false ↔ q = [])
  ∧ ((try_steal task q).1.1 = false ↔ q = [])
  ∧ (q = [] → try_pop task q = (false, task, q) ∧ try_steal task q = (false, task, q)).
Proof.
  cbv zeta. set (q := foldl _ new cs). split_and!.
  - apply remaining_in_push_order.
  - done.
  - apply try_pop_snoc.
  - intros q' back ->. apply try_pop_snoc.
  - by intros front q' ->.
  - split; [|by intros ->]. destruct q as [|y q'] using rev_ind; [done|].
    by rewrite try_pop_snoc.
  - split; [|by intros ->]. by destruct q.
  - by intros ->.
Qed.

End Facts.
End WorkStealingQueue.

(** ** scheduler/work_stealing_scheduler.hpp: the scheduler

    [Task] is [std::function<void()>]; a task acts on the memory [W] its
    captures refer to.  Threads are numbered.  The function-local
    [thread_local static size_t index] of [get_worker_index] is kept per
    thread in [index_of]: a thread has an entry once it has gone through
    the declaration. *)

Module WorkStealingScheduler.

Record t (W : Type) := mk {
  queues_ : list (WorkStealingQueue.t (W → W));
  running_ : bool;
  thread_index_ : Z;
  index_of : gmap nat Z
}.
Arguments mk {W}.
Arguments queues_ {W}.
Arguments running_ {W}.
Arguments thread_index_ {W}.
Arguments index_of {W}.

(** The scheduler with the memory its tasks act on and the tasks called
    so far, oldest first. *)
Record system (W : Type) := mkSystem {
  sched : t W;
  shared : W;
  ran : list (W → W)
}.
Arguments mkSystem {W}.
Arguments sched {W}.
Arguments shared {W}.
Arguments ran {W}.

(** What one pass through the body of [worker_loop] does. *)
Inductive outcome := Stopped | RanOwn | Stole | Waited.

Section Ops.
Context {W : Type}.
Implicit Type s : t W.
Implicit Type st : system W.

Definition with_queues (qs : list (WorkStealingQueue.t (W → W))) s : t W :=
  mk qs (running_ s) (thread_index_ s) (index_of s).

(** [explicit WorkStealingScheduler(size_t thread_count)] *)
Definition new (thread_count : nat) : t W :=
  mk (replicate thread_count WorkStealingQueue.new) true 0 ∅.

(** [get_worker_index()], called by thread [tid].  [None] is the
    remainder of a division by zero. *)
Definition get_worker_index (tid : nat) s : option (nat * t W) :=
  let '(index, s1) :=
    match index_of s !! tid with
    | Some index => (index, s)
    | None =>
        (thread_index_ s,
         mk (queues_ s) (running_ s) (fetch_add1 (thread_index_ s))
            (<[tid := thread_index_ s]> (index_of s)))
    end in
  if decide (length (queues_ s) = 0%nat) then None
  else Some (Z.to_nat (index mod Z.of_nat (length (queues_ s))), s1).

(** [submit(task)], called by thread [tid] *)
Definition submit (tid : nat) (task : W → W) s : option (t W) :=
  '(index, s1) ← get_worker_index tid s;
  Some (with_queues (alter (WorkStealingQueue.push task) index (queues_ s1)) s1).

(** [submit_with_priority(task, priority)]: the wrapped task yields and
    then calls [task]. *)
Definition submit_with_priority (tid : nat) (task : W → W) (priority : Z) s : option (t W) :=
  let wrapped_task : (W → W) := λ w, task w in
  submit tid wrapped_task s.

(** The inner loop of [submit_batch]:
    [for (j = 0; j < tasks_for_this_queue && it != end; ++j)] *)
Fixpoint batch_push (tasks_for_this_queue : nat) (current_queue : nat) (it : list (W → W))
    (queues : list (WorkStealingQueue.t (W → W)))
  : list (W → W) * list (WorkStealingQueue.t (W → W)) :=
  match tasks_for_this_queue, it with
  | S n, task :: it =>
      batch_push n current_queue it (alter (WorkStealingQueue.push task) current_queue queues)
  | _, _ => (it, queues)
  end.

(** The outer loop, from its [i]-th pass on:
    [for (i = 0; i < queues_.size() && it != end; ++i)] *)
Fixpoint batch_loop (fuel : nat) (i current_queue tasks_per_queue : nat) (it : list (W → W))
    (queues : list (WorkStealingQueue.t (W → W)))
  : option (list (WorkStealingQueue.t (W → W))) :=
  match fuel with
  | O => None
  | S fuel =>
      if decide ((i < length queues)%nat ∧ it ≠ []) then
        let tasks_for_this_queue :=
          if decide (i = (length queues - 1)%nat) then length it else tasks_per_queue in
        let '(it1, queues1) := batch_push tasks_for_this_queue current_queue it queues in
        batch_loop fuel (S i) ((current_queue + 1) `mod` length queues)%nat
                   tasks_per_queue it1 queues1
      else Some queues
  end.

(** [submit_batch(begin, end)], called by thread [tid] *)
Definition submit_batch (tid : nat) (tasks : list (W → W)) s : option (t W) :=
  '(index, s1) ← get_worker_index tid s;
  let count := length tasks in
  let tasks_per_queue := (count `div` length (queues_ s1))%nat in
  queues ← batch_loop (S (length (queues_ s1))) 0 index tasks_per_queue tasks (queues_ s1);
  Some (with_queues queues s1).


(** One pass through the [while (running_)] of [worker_loop(index)].
    [victim_index] is what the generator draws from [0, size - 1].  The
    wait at the end of the body ends after 100 ms at the latest. *)
Definition worker_loop_body (index victim_index : nat) st : option (outcome * system W) :=
  let s := sched st in
  if negb (running_ s) then Some (Stopped, st)
  else
    own ← queues_ s !! index;
    let '(ok, task, own1) := WorkStealingQueue.try_pop (λ w, w) own in
    if ok : bool then
      Some (RanOwn,
            mkSystem (with_queues (<[index := own1]> (queues_ s)) s)
                     (task (shared st)) (ran st ++ [task]))
    else if decide (victim_index ≠ index) then
      other ← queues_ s !! victim_index;
      let '(ok, task, other1) := WorkStealingQueue.try_steal task other in
      if ok : bool then
        Some (Stole,
              mkSystem (with_queues (<[victim_index := other1]> (queues_ s)) s)
                       (task (shared st)) (ran st ++ [task]))
      else Some (Waited, st)
    else Some (Waited, st).

(** [~WorkStealingScheduler()] up to the joins *)
Definition request_stop st : system W :=
  let s := sched st in
  mkSystem (mk (queues_ s) false (thread_index_ s) (index_of s)) (shared st) (ran st).

(** A run: the calls of the client threads and the passes of the
    workers, in the order in which they happen. *)
Inductive call :=
  | Submit (tid : nat) (task : W → W)
  | SubmitWithPriority (tid : nat) (task : W → W) (priority : Z)
  | SubmitBatch (tid : nat) (tasks : list (W → W))
  | Pass (index victim_index : nat).

Definition with_sched (s : t W) st : system W := mkSystem s (shared st) (ran st).

Definition do_call (c : call) st : option (system W) :=
  match c with
  | Submit tid task => s ← submit tid task (sched st); Some (with_sched s st)
  | SubmitWithPriority tid task priority =>
      s ← submit_with_priority tid task priority (sched st); Some (with_sched s st)
  | SubmitBatch tid tasks => s ← submit_batch tid tasks (sched st); Some (with_sched s st)
  | Pass index victim_index =>
      '(_, st1) ← worker_loop_body index victim_index st; Some st1
  end.

Fixpoint do_calls (l : list call) st : option (system W) :=
  match l with
  | [] => Some st
  | c :: l => st1 ← do_call c st; do_calls l st1
  end.

(** The tasks a call hands over. *)
Definition tasks_of (c : call) : list (W → W) :=
  match c with
  | Submit _ task => [task]
  | SubmitWithPriority _ task _ => [task]
  | SubmitBatch _ tasks => tasks
  | Pass _ _ => []
  end.

(** A pass by a worker that exists, with a victim in the range of the
    generator. *)
Definition in_range (n : nat) (c : call) : Prop :=
  match c with
  | Pass index victim_index => (index < n)%nat ∧ (victim_index < n)%nat
  | _ => True
  end.

Definition pending s : list (W → W) := concat (queues_ s).

End Ops.

Section Facts.
Context {W : Type}.
Implicit Type s : t W.
Implicit Type st : system W.
Implicit Type qs : list (WorkStealingQueue.t (W → W)).

Lemma concat_insert_perm qs (i : nat) (q q' : list (W → W)) :
  qs !! i = Some q → concat (<[i := q']> qs) ++ q ≡ₚ concat qs ++ q'.
Proof.
  revert i. induction qs as [|a qs IH]; intros i Hi; [by rewrite lookup_nil in Hi|].
  destruct i as [|i]; cbn in *.
  - injection Hi as ->. rewrite <- !app_assoc.
    etrans; [apply Permutation_app_comm|].
    rewrite (Permutation_app_comm (concat qs) q). by rewrite app_assoc.
  - rewrite <- !app_assoc. by rewrite (IH i Hi).
Qed.

Lemma concat_push_perm qs (i : nat) (task : W → W) :
  (i < length qs)%nat →
  concat (alter (WorkStealingQueue.push task) i qs) ≡ₚ task :: concat qs.
Proof.
  revert i. induction qs as [|a qs IH]; intros i Hi; cbn in Hi; [lia|].
  destruct i as [|i]; cbn.
  - unfold WorkStealingQueue.push. rewrite <- app_assoc. cbn.
    by rewrite <- Permutation_middle.
  - rewrite IH by lia. by rewrite <- Permutation_middle.
Qed.

Lemma get_worker_index_spec (tid : nat) s :
  length (queues_ s) ≠ 0%nat →
  ∃ index s1,
    get_worker_index tid s = Some (index, s1)
    ∧ (index < length (queues_ s))%nat
    ∧ queues_ s1 = queues_ s ∧ running_ s1 = running_ s.
Proof.
  intros Hn. unfold get_worker_index.
  destruct (index_of s !! tid) as [k|]; rewrite decide_False by done;
    (eexists _, _; split; [reflexivity|]; split; [|done]).
  all: apply Nat2Z.inj_lt; rewrite Z2Nat.id by (apply Z.mod_pos_bound; lia);
    apply Z.mod_pos_bound; lia.
Qed.

Lemma batch_push_spec (n : nat) (current_queue : nat) :
  ∀ (it : list (W → W)) qs,
    batch_push n current_queue it qs
    = (drop n it, alter (λ q, q ++ take n it) current_queue qs).
Proof.
  induction n as [|n IH]; intros it qs.
  - cbn. rewrite drop_0. f_equal. symmetry. apply list_alter_id. intros q.
    by rewrite app_nil_r.
  - destruct it as [|task it]; cbn [batch_push].
    + cbn. f_equal. symmetry. apply list_alter_id. intros q. by rewrite app_nil_r.
    + rewrite IH. cbn [drop take]. f_equal. rewrite list_alter_alter_eq.
      apply list_alter_ext; [|done]. intros q _. cbn. unfold WorkStealingQueue.push.
      by rewrite <- app_assoc.
Qed.

Lemma concat_alter_app qs (i : nat) (l : list (W → W)) :
  (i < length qs)%nat →
  concat (alter (λ q, q ++ l) i qs) ≡ₚ concat qs ++ l.
Proof.
  revert i. induction qs as [|a qs IH]; intros i Hi; cbn in Hi; [lia|].
  destruct i as [|i]; cbn.
  - rewrite <- !app_assoc. f_equiv. apply Permutation_app_comm.
  - rewrite IH by lia. by rewrite <- app_assoc.
Qed.

(** The outer loop pushes every task of the batch once. *)
Lemma batch_loop_perm (fuel : nat) :
  ∀ (i cq per : nat) (it : list (W → W)) qs,
    (length qs - i < fuel)%nat → (cq < length qs)%nat →
    (i < length qs)%nat ∨ it = [] →
    ∃ qs', batch_loop fuel i cq per it qs = Some qs'
      ∧ length qs' = length qs
      ∧ concat qs' ≡ₚ concat qs ++ it.
Proof.
  induction fuel as [|fuel IH]; intros i cq per it qs Hf Hcq Hi; [lia|].
  cbn [batch_loop]. case_decide as Hc.
  - destruct Hc as [Hlt Hne]. rewrite batch_push_spec.
    set (n := if decide (i = (length qs - 1)%nat) then length it else per).
    set (qs1 := alter _ cq qs).
    assert (Hl1 : length qs1 = length qs) by apply length_alter.
    assert (Hp1 : concat qs1 ≡ₚ concat qs ++ take n it) by by apply concat_alter_app.
    destruct (IH (S i) ((cq + 1) `mod` length qs1)%nat per (drop n it) qs1)
      as (qs' & He & Hl & Hp).
    + rewrite Hl1. lia.
    + rewrite Hl1. apply Nat.mod_upper_bound. lia.
    + rewrite Hl1. destruct (decide (i = (length qs - 1)%nat)) as [Hlast|Hnl].
      * right. subst n. cbn. apply drop_all.
      * left. lia.
    + rewrite Hl1 in He. exists qs'. split; [exact He|]. split; [congruence|].
      rewrite Hp, Hp1, <- app_assoc. by rewrite take_drop.
  - exists qs. split_and!; [done|done|].
    destruct Hi as [Hi| ->]; [|by rewrite app_nil_r].
    destruct (decide (it = [])) as [->|Hne]; [by rewrite app_nil_r|].
    exfalso. apply Hc. done.
Qed.

Lemma concat_take_perm qs (i : nat) (q0 q : list (W → W)) (x : W → W) :
  qs !! i = Some q0 → q0 ≡ₚ x :: q →
  concat qs ≡ₚ x :: concat (<[i := q]> qs).
Proof.
  revert i. induction qs as [|a qs IH]; intros i Hi Hq; [by rewrite lookup_nil in Hi|].
  destruct i as [|i]; cbn in *.
  - injection Hi as ->. by rewrite Hq.
  - rewrite (IH i Hi Hq). by rewrite <- Permutation_middle.
Qed.

Lemma submit_spec (tid : nat) (task : W → W) s :
  length (queues_ s) ≠ 0%nat →
  ∃ index s', submit tid task s = Some s'
    ∧ (index < length (queues_ s))%nat
    ∧ queues_ s' = alter (WorkStealingQueue.push task) index (queues_ s)
    ∧ running_ s' = running_ s.
Proof.
  intros Hn. unfold submit.
  destruct (get_worker_index_spec tid s Hn) as (index & s1 & -> & Hi & Hq & Hr).
  cbn. exists index. eexists. split; [reflexivity|]. cbn. by rewrite Hq.
Qed.

Lemma submit_batch_spec (tid : nat) (tasks : list (W → W)) s :
  length (queues_ s) ≠ 0%nat →
  ∃ s', submit_batch tid tasks s = Some s'
    ∧ length (queues_ s') = length (queues_ s)
    ∧ pending s' ≡ₚ pending s ++ tasks
    ∧ running_ s' = running_ s.
Proof.
  intros Hn. unfold submit_batch.
  destruct (get_worker_index_spec tid s Hn) as (index & s1 & -> & Hi & Hq & Hr).
  cbn [mbind option_bind]. cbv zeta.
  destruct (batch_loop_perm (S (length (queues_ s1))) 0 index
              (length tasks `div` length (queues_ s1))%nat tasks (queues_ s1))
    as (qs' & -> & Hl & Hp); [lia|by rewrite Hq|left; rewrite Hq; lia|].
  cbn. eexists. split; [reflexivity|]. unfold pending. cbn.
  rewrite Hl, Hp, Hq. done.
Qed.

(** What a pass of a running worker does, by what it finds in its own
    queue and in the queue of its victim. *)
Lemma pass_cases (index victim_index : nat) st (own other : WorkStealingQueue.t (W → W)) :
  running_ (sched st) = true →
  queues_ (sched st) !! index = Some own →
  queues_ (sched st) !! victim_index = Some other →
  worker_loop_body index victim_index st
  = match reverse own with
    | task :: rest =>
        Some (RanOwn,
              mkSystem (with_queues (<[index := reverse rest]> (queues_ (sched st))) (sched st))
                       (task (shared st)) (ran st ++ [task]))
    | [] =>
        match other with
        | task :: rest =>
            if decide (victim_index ≠ index) then
              Some (Stole,
                    mkSystem (with_queues (<[victim_index := rest]> (queues_ (sched st)))
                                (sched st))
                             (task (shared st)) (ran st ++ [task]))
            else Some (Waited, st)
        | [] => Some (Waited, st)
        end
    end.
Proof.
  intros Hr Ho Hv. unfold worker_loop_body. cbv zeta. rewrite Hr. cbn [negb].
  rewrite Ho. cbn [mbind option_bind].
  destruct own as [|x own _] using rev_ind.
  - cbn. case_decide as Hne; [|by destruct other].
    rewrite Hv. cbn. by destruct other.
  - rewrite WorkStealingQueue.try_pop_snoc, reverse_snoc. cbn.
    by rewrite reverse_involutive.
Qed.

Lemma do_call_conserves (n : nat) (c : call) st :
  length (queues_ (sched st)) = n → n ≠ 0%nat → in_range n c →
  ∃ st' new_ran,
    do_call c st = Some st'
    ∧ length (queues_ (sched st')) = n
    ∧ running_ (sched st') = running_ (sched st)
    ∧ ran st' = ran st ++ new_ran
    ∧ shared st' = foldl (λ w f, f w) (shared st) new_ran
    ∧ new_ran ++ pending (sched st') ≡ₚ pending (sched st) ++ tasks_of c.
Proof.
  intros Hl Hn Hc.
  assert (Hs : ∀ tid task, ∃ st' new_ran,
    (s ← submit tid task (sched st); Some (with_sched s st)) = Some st'
    ∧ length (queues_ (sched st')) = n
    ∧ running_ (sched st') = running_ (sched st)
    ∧ ran st' = ran st ++ new_ran
    ∧ shared st' = foldl (λ w f, f w) (shared st) new_ran
    ∧ new_ran ++ pending (sched st') ≡ₚ pending (sched st) ++ [task]).
  { intros tid task.
    destruct (submit_spec tid task (sched st)) as (index & s' & -> & Hi & Hq & Hr);
      [by rewrite Hl|].
    eexists _, []. split; [reflexivity|]. cbn. rewrite app_nil_r.
    split_and!; [by rewrite Hq, length_alter|done|done|done|].
    unfold pending. rewrite Hq, concat_push_perm by done.
    apply Permutation_cons_append. }
  destruct c as [tid task|tid task p|tid tasks|index victim]; cbn [do_call tasks_of].
  - apply Hs.
  - apply (Hs tid (λ w, task w)).
  - destruct (submit_batch_spec tid tasks (sched st)) as (s' & -> & Hl' & Hp & Hr);
      [by rewrite Hl|].
    eexists _, []. split; [reflexivity|]. cbn. rewrite app_nil_r.
    split_and!; [congruence|done|done|done|done].
  - destruct Hc as [Hi Hv]. rewrite app_nil_r.
    destruct (running_ (sched st)) eqn:Hr.
    2:{ unfold worker_loop_body. rewrite Hr. cbn. exists st, [].
        rewrite app_nil_r. done. }
    destruct (lookup_lt_is_Some_2 (queues_ (sched st)) index) as [own Ho]; [lia|].
    destruct (lookup_lt_is_Some_2 (queues_ (sched st)) victim) as [other Hv']; [lia|].
    rewrite (pass_cases index victim st own other Hr Ho Hv').
    destruct (reverse own) as [|task rest] eqn:Hrev.
    + destruct other as [|task rest].
      * exists st, []. cbn. rewrite app_nil_r. done.
      * case_decide as Hne.
        -- eexists _, [task]. split; [reflexivity|]. cbn. split_and!; [|done|done|done|].
           ++ by rewrite length_insert.
           ++ unfold pending. cbn. symmetry. by eapply concat_take_perm.
        -- exists st, []. cbn. rewrite app_nil_r. done.
    + eexists _, [task]. split; [reflexivity|]. cbn. split_and!; [|done|done|done|].
      * by rewrite length_insert.
      * unfold pending. cbn. symmetry. eapply concat_take_perm; [exact Ho|].
        rewrite <- (reverse_involutive own), Hrev, reverse_cons.
        rewrite <- Permutation_cons_append. done.
Qed.

Lemma do_calls_conserves (n : nat) (l : list call) :
  ∀ st,
    length (queues_ (sched st)) = n → n ≠ 0%nat → Forall (in_range n) l →
    ∃ st' new_ran,
      do_calls l st = Some st'
      ∧ length (queues_ (sched st')) = n
      ∧ running_ (sched st') = running_ (sched st)
      ∧ ran st' = ran st ++ new_ran
      ∧ shared st' = foldl (λ w f, f w) (shared st) new_ran
      ∧ new_ran ++ pending (sched st') ≡ₚ pending (sched st) ++ concat (tasks_of <$> l).
Proof.
  induction l as [|c l IH]; intros st Hl Hn Hin.
  - exists st, []. cbn. rewrite !app_nil_r. done.
  - apply Forall_cons in Hin as [Hc Hin]. cbn [do_calls].
    destruct (do_call_conserves n c st Hl Hn Hc) as (st1 & r1 & -> & Hl1 & Hr1 & He1 & Hs1 & Hp1).
    cbn [mbind option_bind].
    destruct (IH st1 Hl1 Hn Hin) as (st2 & r2 & -> & Hl2 & Hr2 & He2 & Hs2 & Hp2).
    exists st2, (r1 ++ r2). split_and!; [done|done|congruence| | |].
    + by rewrite He2, He1, app_assoc.
    + by rewrite Hs2, Hs1, foldl_app.
    + cbn [fmap list_fmap concat]. rewrite <- app_assoc, Hp2.
      rewrite !app_assoc. by rewrite Hp1.
Qed.

(** X21.  A run of submissions, single or in batches, and of worker
    passes never gets stuck, and at any time every task handed over is
    either in exactly one queue or has been called, once; the memory is
    what the tasks called so far leave, in the order of their calls. *)
Theorem every_task_is_queued_or_called (l : list call) (thread_count : nat) (w : W) :
  thread_count ≠ 0%nat →
  Forall (in_range thread_count) l →
  ∃ st,
    do_calls l (mkSystem (new thread_count) w []) = Some st
    ∧ ran st ++ pending (sched st) ≡ₚ concat (tasks_of <$> l)
    ∧ shared st = foldl (λ w f, f w) w (ran st)
    ∧ length (queues_ (sched st)) = thread_count.
Proof.
  intros Hn Hin.
  destruct (do_calls_conserves thread_count l (mkSystem (new thread_count) w []))
    as (st & r & Hd & Hl & _ & He & Hs & Hp); [apply length_replicate|done|done|].
  exists st. cbn in He, Hs, Hp. subst r. split_and!; [done| |done|done].
  rewrite Hp. unfold pending. cbn.
  assert (concat (replicate thread_count (@WorkStealingQueue.new (W → W))) = []) as ->; [|done].
  clear. induction thread_count as [|n IH]; [done|]. cbn. exact IH.
Qed.


Lemma own_queue_newest_first (i v : nat) (mine : WorkStealingQueue.t (W → W)) :
  ∀ st,
    running_ (sched st) = true →
    queues_ (sched st) !! i = Some mine →
    (v < length (queues_ (sched st)))%nat →
    do_calls (replicate (length mine) (Pass i v)) st
    = Some (mkSystem (with_queues (<[i := []]> (queues_ (sched st))) (sched st))
                     (foldl (λ w f, f w) (shared st) (reverse mine))
                     (ran st ++ reverse mine)).
Proof.
  induction mine as [|x mine IH] using rev_ind; intros st Hr Ho Hv.
  - cbn. rewrite app_nil_r. rewrite list_insert_id by done. by destruct st as [[]].
  - rewrite length_app, Nat.add_1_r. cbn [replicate do_calls do_call length].
    destruct (lookup_lt_is_Some_2 (queues_ (sched st)) v) as [other Hv']; [lia|].
    rewrite (pass_cases i v st _ other Hr Ho Hv'). rewrite reverse_snoc.
    cbn [mbind option_bind]. rewrite reverse_involutive.
    set (st1 := mkSystem _ _ _).
    rewrite (IH st1); [| done | | ].
    + unfold st1. cbn. rewrite list_insert_insert_eq. by rewrite <- app_assoc.
    + unfold st1. cbn. apply list_lookup_insert_eq. by eapply lookup_lt_Some.
    + unfold st1. cbn. by rewrite length_insert.
Qed.

Lemma victim_queue_oldest_first (i v : nat) (theirs : WorkStealingQueue.t (W → W)) :
  ∀ st,
    running_ (sched st) = true →
    i ≠ v →
    queues_ (sched st) !! i = Some [] →
    queues_ (sched st) !! v = Some theirs →
    do_calls (replicate (length theirs) (Pass i v)) st
    = Some (mkSystem (with_queues (<[v := []]> (queues_ (sched st))) (sched st))
                     (foldl (λ w f, f w) (shared st) theirs)
                     (ran st ++ theirs)).
Proof.
  induction theirs as [|x theirs IH]; intros st Hr Hne Ho Hv.
  - cbn. rewrite app_nil_r. rewrite list_insert_id by done. by destruct st as [[]].
  - cbn [replicate do_calls do_call length].
    rewrite (pass_cases i v st _ _ Hr Ho Hv). cbn [reverse rev_append].
    rewrite decide_True by done. cbn [mbind option_bind].
    set (st1 := mkSystem _ _ _).
    rewrite (IH st1); [| done | done | | ].
    + unfold st1. cbn. rewrite list_insert_insert_eq. by rewrite <- app_assoc.
    + unfold st1. cbn. by rewrite list_lookup_insert_ne.
    + unfold st1. cbn. apply list_lookup_insert_eq. by eapply lookup_lt_Some.
Qed.

Lemma stealing_calls_app (l1 l2 : list call) st :
  do_calls (l1 ++ l2) st = (st1 ← do_calls l1 st; do_calls l2 st1).
Proof.
  revert st. induction l1 as [|c l1 IH]; intros st; [done|].
  cbn [app do_calls]. destruct (do_call c st) as [st1|]; [|done]. cbn. apply IH.
Qed.

(** X23.  A worker takes from its own queue as long as there is a task
    in it, the newest first, whatever victim it draws; only then does it
    steal, and from its victim it takes the oldest task first. *)
Theorem worker_pops_newest_steals_oldest (i v : nat)
    (mine theirs : WorkStealingQueue.t (W → W)) st :
  running_ (sched st) = true →
  i ≠ v →
  queues_ (sched st) !! i = Some mine →
  queues_ (sched st) !! v = Some theirs →
  ∃ st',
    do_calls (replicate (length mine + length theirs) (Pass i v)) st = Some st'
    ∧ ran st' = ran st ++ reverse mine ++ theirs
    ∧ shared st' = foldl (λ w f, f w) (shared st) (reverse mine ++ theirs)
    ∧ queues_ (sched st') = <[v := []]> (<[i := []]> (queues_ (sched st))).
Proof.
  intros Hr Hne Ho Hv.
  rewrite replicate_add, stealing_calls_app.
  rewrite (own_queue_newest_first i v mine st Hr Ho) by (by eapply lookup_lt_Some).
  cbn [mbind option_bind].
  set (st1 := mkSystem _ _ _).
  rewrite (victim_queue_oldest_first i v theirs st1); [| done | done | | ].
  - eexists. split; [reflexivity|]. unfold st1. cbn.
    split_and!; [by rewrite <- app_assoc|by rewrite foldl_app|done].
  - unfold st1. cbn. apply list_lookup_insert_eq. by eapply lookup_lt_Some.
  - unfold st1. cbn. by rewrite list_lookup_insert_ne.
Qed.







(** The part of a batch that the [d]-th queue after the caller's gets:
    [count / size] tasks each, and the last queue all that is left. *)
Definition batch_slice (n : nat) (tasks : list (W → W)) (d : nat) : list (W → W) :=
  let per := (length tasks `div` n)%nat in
  if decide (d = (n - 1)%nat) then drop (d * per) tasks
  else take per (drop (d * per) tasks).

Lemma mod_shift_ne (n cq e : nat) :
  (cq < n)%nat → (0 < e < n)%nat → ((cq + e) `mod` n)%nat ≠ cq.
Proof.
  intros Hcq He Heq. destruct (decide (cq + e < n)%nat) as [Hlt|Hge].
  - rewrite Nat.mod_small in Heq by done. lia.
  - assert (Hm : (cq + e - n)%nat = ((cq + e) `mod` n)%nat).
    { apply (Nat.mod_unique _ _ 1); lia. }
    lia.
Qed.

Lemma batch_loop_spec (fuel : nat) :
  ∀ (i cq per : nat) (it : list (W → W)) qs,
    (length qs - i < fuel)%nat → (cq < length qs)%nat →
    (i < length qs)%nat ∨ it = [] →
    ∃ qs', batch_loop fuel i cq per it qs = Some qs'
      ∧ length qs' = length qs
      ∧ (∀ d, (d < length qs - i)%nat →
           qs' !! ((cq + d) `mod` length qs)%nat
           = (λ q, q ++ (if decide ((i + d)%nat = (length qs - 1)%nat)
                         then drop (d * per) it else take per (drop (d * per) it)))
             <$> qs !! ((cq + d) `mod` length qs)%nat)
      ∧ (∀ c, (∀ d, (d < length qs - i)%nat → c ≠ ((cq + d) `mod` length qs)%nat) →
           qs' !! c = qs !! c).
Proof.
  induction fuel as [|fuel IH]; intros i cq per it qs Hf Hcq Hi; [lia|].
  cbn [batch_loop]. case_decide as Hc.
  - destruct Hc as [Hlt Hne]. rewrite batch_push_spec.
    set (n := if decide (i = (length qs - 1)%nat) then length it else per).
    set (qs1 := alter _ cq qs).
    assert (Hl1 : length qs1 = length qs) by apply length_alter.
    destruct (IH (S i) ((cq + 1) `mod` length qs1)%nat per (drop n it) qs1)
      as (qs' & He & Hl & Hin & Hout).
    { rewrite Hl1. lia. }
    { rewrite Hl1. apply Nat.mod_upper_bound. lia. }
    { rewrite Hl1. destruct (decide (i = (length qs - 1)%nat)) as [Hlast|Hnl].
      - right. subst n. cbn. apply drop_all.
      - left. lia. }
    rewrite Hl1 in He, Hl, Hin, Hout.
    assert (Hshift : ∀ d, (((cq + 1) `mod` length qs + d) `mod` length qs
                           = (cq + S d) `mod` length qs)%nat).
    { intros d. rewrite Nat.Div0.add_mod_idemp_l. f_equal. lia. }
    exists qs'. split; [exact He|]. split; [congruence|]. split.
    + intros d Hd. destruct d as [|d].
      * rewrite Nat.add_0_r, Nat.mod_small by done.
        rewrite Hout.
        2:{ intros d' Hd'. rewrite Hshift. intros Heq. symmetry in Heq.
            revert Heq. apply mod_shift_ne; lia. }
        unfold qs1. rewrite list_lookup_alter_eq. cbn [Nat.mul drop].
        destruct (qs !! cq) as [q|]; [|done]. cbn. do 2 f_equal.
        subst n. rewrite Nat.add_0_r. case_decide; [|done]. by rewrite firstn_all.
      * rewrite <- Hshift, Hin by lia. rewrite Hshift.
        unfold qs1. rewrite list_lookup_alter_ne.
        2:{ intros Heq. symmetry in Heq. revert Heq. apply mod_shift_ne; lia. }
        assert (Hn : n = per).
        { subst n. rewrite decide_False; [done|lia]. }
        rewrite Hn, drop_drop.
        replace (per + d * per)%nat with (S d * per)%nat by lia.
        replace (S i + d)%nat with (i + S d)%nat by lia. done.
    + intros c Hc'.
      rewrite Hout.
      2:{ intros d' Hd'. rewrite Hshift. apply Hc'. lia. }
      unfold qs1. rewrite list_lookup_alter_ne; [done|].
      specialize (Hc' 0%nat). rewrite Nat.add_0_r, Nat.mod_small in Hc' by done.
      intros ->. apply Hc'; [lia|done].
  - exists qs. split; [done|]. split; [done|]. split; [|done].
    intros d Hd. assert (it = []) as ->.
    { destruct Hi as [Hi|Hi]; [|done]. destruct (decide (it = [])); [done|].
      exfalso. apply Hc. done. }
    rewrite drop_nil, take_nil.
    destruct (qs !! _) as [q|]; [|done]. cbn. f_equal.
    case_decide; by rewrite app_nil_r.
Qed.

(** X26.  [submit_batch] deals the batch out in consecutive runs of
    [count / size] tasks, the first run to the caller's queue and the
    next ones to the queues after it, and gives the last queue of the
    round, which is the one before the caller's, all that is left.  So a
    batch of fewer tasks than there are queues goes to that one queue as
    a whole. *)
Theorem submit_batch_deals_in_runs (tid : nat) (tasks : list (W → W)) s :
  length (queues_ s) ≠ 0%nat →
  ∃ index s1 s',
    get_worker_index tid s = Some (index, s1)
    ∧ submit_batch tid tasks s = Some s'
    ∧ length (queues_ s') = length (queues_ s)
    ∧ (∀ d, (d < length (queues_ s))%nat →
         queues_ s' !! ((index + d) `mod` length (queues_ s))%nat
         = (λ q, q ++ batch_slice (length (queues_ s)) tasks d)
           <$> queues_ s !! ((index + d) `mod` length (queues_ s))%nat)
    ∧ ((length tasks < length (queues_ s))%nat →
         ∀ d, (d < length (queues_ s))%nat →
           batch_slice (length (queues_ s)) tasks d
           = if decide (d = (length (queues_ s) - 1)%nat) then tasks else []).
Proof.
  intros Hn.
  destruct (get_worker_index_spec tid s Hn) as (index & s1 & Hg & Hi & Hq & Hr).
  exists index, s1. unfold submit_batch. rewrite Hg. cbn [mbind option_bind]. cbv zeta.
  destruct (batch_loop_spec (S (length (queues_ s1))) 0 index
              (length tasks `div` length (queues_ s1))%nat tasks (queues_ s1))
    as (qs' & -> & Hl & Hin & _); [lia|by rewrite Hq|left; rewrite Hq; lia|].
  rewrite Hq in Hl, Hin. cbn [mbind option_bind].
  eexists. split; [reflexivity|]. split; [reflexivity|]. cbn [queues_ with_queues].
  split_and!; [done| |].
  - intros d Hd. rewrite Hin by lia. unfold batch_slice. cbn [Nat.add]. done.
  - intros Hsmall d Hd. unfold batch_slice.
    rewrite Nat.div_small by done. rewrite Nat.mul_0_r, drop_0, take_0. done.
Qed.

End Facts.

(** Tasks that append their number to a vector. *)
Definition note (k : Z) : list Z → list Z := λ v, v ++ [k].

(** A scheduler of three workers right after its construction. *)
Definition three_workers : system (list Z) := mkSystem (new 3) [] [].

Lemma every_task_is_queued_or_called_witness :
  ∃ st,
    do_calls [Submit 7 (note 1); SubmitBatch 8 [note 2; note 3; note 4; note 5];
              Pass 0 1; SubmitWithPriority 7 (note 6) 9; Pass 2 0]
             three_workers = Some st
    ∧ ran st ++ pending (sched st)
        ≡ₚ [note 1; note 2; note 3; note 4; note 5; note 6]
    ∧ shared st = foldl (λ w f, f w) [] (ran st)
    ∧ length (queues_ (sched st)) = 3%nat.
Proof.
  apply (every_task_is_queued_or_called
           [Submit 7 (note 1); SubmitBatch 8 [note 2; note 3; note 4; note 5];
            Pass 0 1; SubmitWithPriority 7 (note 6) 9; Pass 2 0] 3 []).
  - lia.
  - repeat constructor; cbn; lia.
Defined.

(** Worker 0 has the tasks 1 and 2 in its queue, worker 1 the tasks 3
    and 4, and worker 2 nothing. *)
Definition two_busy : system (list Z) :=
  mkSystem (mk [[note 1; note 2]; [note 3; note 4]; []] true 2 ∅) [] [].

Lemma worker_pops_newest_steals_oldest_witness :
  ∃ st',
    do_calls (replicate 4 (Pass 0 1)) two_busy = Some st'
    ∧ ran st' = [note 2; note 1; note 3; note 4]
    ∧ shared st' = [2; 1; 3; 4]
    ∧ queues_ (sched st') = [[]; []; []].
Proof.
  apply (worker_pops_newest_steals_oldest 0 1 [note 1; note 2] [note 3; note 4] two_busy).
  - reflexivity.
  - lia.
  - reflexivity.
  - reflexivity.
Defined.



Lemma submit_batch_deals_in_runs_witness :
  ∃ index s1 s',
    get_worker_index 7 (sched three_workers) = Some (index, s1)
    ∧ submit_batch 7 [note 1; note 2] (sched three_workers) = Some s'
    ∧ length (queues_ s') = 3%nat
    ∧ (∀ d, (d < 3)%nat →
         queues_ s' !! ((index + d) `mod` 3)%nat
         = (λ q, q ++ batch_slice 3 [note 1; note 2] d)
           <$> queues_ (sched three_workers) !! ((index + d) `mod` 3)%nat)
    ∧ ((2 < 3)%nat →
         ∀ d, (d < 3)%nat →
           batch_slice 3 [note 1; note 2] d = if decide (d = 2%nat) then [note 1; note 2] else []).
Proof.
  apply (submit_batch_deals_in_runs 7 [note 1; note 2] (sched three_workers)).
  cbn. lia.
Defined.

End WorkStealingScheduler.

(** ** logging/async_logger.hpp

    The logger puts its messages in an [MPMCQueue] and has one worker
    thread, which runs [process_logs].  The file is the list of the
    entries streamed to it since it was opened; [closed_] keeps what was
    streamed before each rotation, oldest first, and [batch] is the
    local vector of [process_logs]. *)

Module AsyncLogger.

Inductive LogLevel := TRACE | DEBUG | INFO | WARN | ERROR | FATAL.

Record LogMessage := mkLogMessage {
  level : LogLevel;
  timestamp : Z;
  message : string;
  file : string;
  line : Z;
  function : string;
  thread_id : option nat
}.

(** [LogMessage{}] *)
Definition LogMessage_default : LogMessage :=
  mkLogMessage TRACE 0 ""%string ""%string 0 ""%string None.

Definition DEFAULT_QUEUE_SIZE : Z := 8192.
Definition MAX_FILE_SIZE : Z := 100 * 1024 * 1024.

Record t := mk {
  queue_ : MPMCQueue.t LogMessage;
  running_ : bool;
  log_file_ : option (list string);
  current_file_size_ : Z;
  closed_ : list (list string);
  batch : list LogMessage;
  worker_returned : bool
}.

(** What one pass through the loop of [process_logs] does: it writes the
    batch, keeps the message for later, sleeps, or leaves the loop. *)
Inductive outcome := Wrote | Kept | Slept | Left.

Section Ops.
(** [format_log_entry], and the value of the local [LogMessage msg;]
    before [try_dequeue] assigns to it. *)
Variable format_log_entry : LogMessage → string.
Variable uninitialised : LogMessage.

Definition with_queue (q : MPMCQueue.t LogMessage) (st : t) : t :=
  mk q (running_ st) (log_file_ st) (current_file_size_ st) (closed_ st) (batch st)
     (worker_returned st).

Definition with_batch (b : list LogMessage) (st : t) : t :=
  mk (queue_ st) (running_ st) (log_file_ st) (current_file_size_ st) (closed_ st) b
     (worker_returned st).

Definition is_open (st : t) : bool := bool_decide (is_Some (log_file_ st)).

Definition rotate_log_file (st : t) : t :=
  mk (queue_ st) (running_ st) (Some [])
     0
     (closed_ st ++ match log_file_ st with Some entries => [entries] | None => [] end)
     (batch st) (worker_returned st).

(** [log_file_ << log_entry; current_file_size_ += log_entry.size();] *)
Definition stream (log_entry : string) (st : t) : t :=
  mk (queue_ st) (running_ st) ((λ entries, entries ++ [log_entry]) <$> log_file_ st)
     (wrap (current_file_size_ st + Z.of_nat (String.length log_entry)))
     (closed_ st) (batch st) (worker_returned st).

Definition write_batch (b : list LogMessage) (st : t) : t :=
  let st := if is_open st then st else rotate_log_file st in
  foldl (λ st msg,
           let st := stream (format_log_entry msg) st in
           if decide (MAX_FILE_SIZE ≤ current_file_size_ st) then rotate_log_file st else st)
        st b.

(** The constructor, up to the start of the worker. *)
Definition new (queue_size : Z) : option t :=
  q ← MPMCQueue.new LogMessage_default queue_size;
  Some (rotate_log_file (mk q true None 0 [] [] false)).

(** One pass through [while (running_ || !queue_.empty())], and what
    follows the loop when it is left. *)
Definition process_logs_body (fuel : nat) (st : t) : option (outcome * t) :=
  if negb (running_ st || negb (MPMCQueue.empty (queue_ st))) then
    let st1 := if decide (batch st ≠ []) then write_batch (batch st) st else st in
    Some (Left,
          mk (queue_ st1) (running_ st1) (log_file_ st1) (current_file_size_ st1)
             (closed_ st1) (batch st1) true)
  else
    '(ok, msg, q1) ← MPMCQueue.try_dequeue fuel uninitialised (queue_ st);
    let st1 := with_queue q1 st in
    if ok : bool then
      let batch1 := batch st1 ++ [msg] in
      if bool_decide (100 ≤ length batch1)%nat || MPMCQueue.empty (queue_ st1) then
        Some (Wrote, with_batch [] (write_batch batch1 (with_batch batch1 st1)))
      else Some (Kept, with_batch batch1 st1)
    else Some (Slept, st1).

(** The worker makes a pass, if it has not left [process_logs] yet. *)
Definition worker_pass (st : t) : t :=
  if worker_returned st then st
  else match process_logs_body 1 st with
       | Some (_, st1) => st1
       | None => st
       end.

(** The [while (!queue_.try_enqueue(std::move(msg))) yield();] of [log],
    from its [k]-th pass on; [others k] is what the other threads do
    during the [k]-th yield. *)
Fixpoint log_loop (fuel : nat) (k : nat) (msg : LogMessage) (others : nat → t → t)
    (st : t) : option t :=
  match fuel with
  | O => None
  | S fuel =>
      '(ok, q1) ← MPMCQueue.try_enqueue LogMessage_default 1 msg (queue_ st);
      if ok : bool then Some (with_queue q1 st)
      else log_loop fuel (S k) msg others (others k (with_queue q1 st))
  end.

(** [log(level, file, line, function, format, args...)]; [formatted] is
    what [std::vformat] returns, [None] when it throws [format_error],
    [now] the reading of the clock and [tid] the calling thread. *)
Definition log (fuel : nat) (level : LogLevel) (file : string) (line : Z) (function : string)
    (format : string) (formatted : option string) (now : Z) (tid : nat)
    (others : nat → t → t) (st : t) : option t :=
  let formatted_message := match formatted with Some m => m | None => format end in
  let msg := mkLogMessage level now formatted_message file line function (Some tid) in
  log_loop fuel 0 msg others st.

(** The destructor sets [running_ = false]. *)
Definition request_stop (st : t) : t :=
  mk (queue_ st) false (log_file_ st) (current_file_size_ st) (closed_ st) (batch st)
     (worker_returned st).

(** All that has been streamed to the files, oldest first. *)
Definition written (st : t) : list string :=
  concat (closed_ st) ++ default [] (log_file_ st).

(** A run of the logger: calls of [log] by one thread, during whose
    yields the worker makes a pass, and passes of the worker. *)
Inductive call :=
  | Log (msg : LogMessage)
  | Pass.

Definition do_call (c : call) (st : t) : option t :=
  match c with
  | Log msg => log_loop 2 0 msg (λ _, worker_pass) st
  | Pass => Some (worker_pass st)
  end.

Fixpoint do_calls (l : list call) (st : t) : option t :=
  match l with
  | [] => Some st
  | c :: l => st1 ← do_call c st; do_calls l st1
  end.

Definition logged (l : list call) : list LogMessage :=
  omap (λ c, match c with Log msg => Some msg | Pass => None end) l.

End Ops.

Section Facts.
Variable format_log_entry : LogMessage → string.
Variable uninitialised : LogMessage.

Lemma write_batch_spec (b : list LogMessage) (st : t) :
  written (write_batch format_log_entry b st) = written st ++ (format_log_entry <$> b)
  ∧ queue_ (write_batch format_log_entry b st) = queue_ st
  ∧ running_ (write_batch format_log_entry b st) = running_ st
  ∧ batch (write_batch format_log_entry b st) = batch st
  ∧ worker_returned (write_batch format_log_entry b st) = worker_returned st.
Proof.
  unfold write_batch.
  set (st0 := if is_open st then st else rotate_log_file st).
  assert (H0 : is_Some (log_file_ st0) ∧ written st0 = written st
               ∧ queue_ st0 = queue_ st ∧ running_ st0 = running_ st
               ∧ batch st0 = batch st ∧ worker_returned st0 = worker_returned st).
  { unfold st0, is_open. case_bool_decide as Ho; [done|].
    split; [by eexists|]. split; [|done].
    unfold written. cbn. destruct (log_file_ st); [exfalso; apply Ho; by eexists|].
    cbn. by rewrite !app_nil_r. }
  clearbody st0. destruct H0 as (Ho & <- & <- & <- & <- & <-).
  revert st0 Ho. induction b as [|msg b IH]; intros st0 Ho.
  - cbn. by rewrite app_nil_r.
  - cbn [foldl fmap list_fmap].
    set (st1 := if decide _ then _ else _).
    assert (H1 : is_Some (log_file_ st1)
                 ∧ written st1 = written st0 ++ [format_log_entry msg]
                 ∧ queue_ st1 = queue_ st0 ∧ running_ st1 = running_ st0
                 ∧ batch st1 = batch st0 ∧ worker_returned st1 = worker_returned st0).
    { destruct Ho as [entries Ho]. unfold st1. case_decide.
      - split; [by eexists|]. split; [|done]. unfold written. cbn. rewrite Ho. cbn.
        rewrite concat_app. cbn. by rewrite !app_nil_r, app_assoc.
      - split; [cbn; rewrite Ho; by eexists|]. split; [|done].
        unfold written. cbn. rewrite Ho. cbn. by rewrite app_assoc. }
    clearbody st1. destruct H1 as (Ho1 & Hw1 & <- & <- & <- & <-).
    destruct (IH st1 Ho1) as (-> & -> & -> & -> & ->).
    rewrite Hw1, <- app_assoc. done.
Qed.

(** The logger at rest between two steps of its threads: the queue
    holds [vs]; the entries written, those of the batch and those of the
    queue are, in this order, the entries of the messages logged; the
    batch is short of 100 and is empty when the queue is. *)
Record inv (running : bool) (st : t) (all : list LogMessage) (vs : list LogMessage)
  : Prop := {
  inv_running : running_ st = running;
  inv_worker : worker_returned st = false;
  inv_queue : MPMCQueue.is_queue (queue_ st) vs;
  inv_capacity : 0 < MPMCQueue.capacity_ (queue_ st);
  inv_order : written st ++ (format_log_entry <$> (batch st ++ vs))
              = format_log_entry <$> all;
  inv_batch : (length (batch st) < 100)%nat;
  inv_flushed : vs = [] → batch st = []
}.

Lemma queue_empty_iff (q : MPMCQueue.t LogMessage) vs :
  MPMCQueue.is_queue q vs → MPMCQueue.empty q = bool_decide (vs = []).
Proof.
  intros Hq. unfold MPMCQueue.empty, MPMCQueue.size.
  rewrite (MPMCQueue.is_queue_size _ _ Hq). destruct vs; cbn [length]; [done|].
  rewrite !bool_decide_eq_false_2; [done|done|lia].
Qed.

Lemma new_inv (queue_size : Z) :
  0 < queue_size < size_t_modulus →
  ∃ st, new queue_size = Some st ∧ inv true st [] []
    ∧ MPMCQueue.capacity_ (queue_ st) = queue_size.
Proof.
  intros Hc. unfold new.
  destruct (MPMCQueue.new_is_queue LogMessage_default queue_size) as (q & -> & Hq & Hcap);
    [lia|].
  eexists. split; [reflexivity|]. split; [|done]. split; cbn; try done; lia.
Qed.

(** A pass of the worker on a queue that is not empty takes the oldest
    message, and writes the batch when it is full or the queue is
    empty. *)
Lemma pass_takes_oldest (r : bool) (st : t) all v vs :
  inv r st all (v :: vs) →
  ∃ o st', process_logs_body format_log_entry uninitialised 1 st = Some (o, st')
    ∧ inv r st' all vs
    ∧ MPMCQueue.capacity_ (queue_ st') = MPMCQueue.capacity_ (queue_ st).
Proof.
  intros [Hr Hw Hq Hcap Hord Hb Hfl]. unfold process_logs_body.
  rewrite (queue_empty_iff _ _ Hq). cbn [bool_decide negb]. rewrite bool_decide_eq_false_2 by done.
  rewrite orb_true_r. cbn [negb].
  destruct (MPMCQueue.try_dequeue_spec 0 uninitialised v (queue_ st) vs Hq)
    as (q' & -> & Hq' & Hsz & Hc').
  cbn [mbind option_bind]. cbv zeta. cbn [queue_ with_queue batch].
  rewrite (queue_empty_iff _ _ Hq').
  destruct (bool_decide (100 ≤ length (batch st ++ [v]))%nat || bool_decide (vs = [])) eqn:Hw'.
  - eexists _, _. split; [reflexivity|].
    destruct (write_batch_spec (batch st ++ [v]) (with_batch (batch st ++ [v]) (with_queue q' st)))
      as (Hwr & Hq2 & Hr2 & Hb2 & Hw2).
    split; [|cbn; by rewrite Hq2].
    split; cbn.
    + by rewrite Hr2.
    + by rewrite Hw2.
    + by rewrite Hq2.
    + rewrite Hq2. cbn. lia.
    + unfold written in *. cbn in *. rewrite Hwr. rewrite <- Hord.
      rewrite <- !app_assoc. f_equal. rewrite !fmap_app. cbn. by rewrite <- app_assoc.
    + lia.
    + done.
  - apply orb_false_iff in Hw' as [Hlen Hne].
    apply bool_decide_eq_false in Hlen. apply bool_decide_eq_false in Hne.
    eexists _, _. split; [reflexivity|]. split; [|done].
    split; cbn; try done.
    + lia.
    + unfold written in *. cbn in *. rewrite <- Hord.
      by rewrite <- (app_assoc (batch st) [v] vs).
    + rewrite length_app in *. cbn in *. lia.
Qed.

Lemma pass_sleeps (st : t) all :
  inv true st all [] →
  process_logs_body format_log_entry uninitialised 1 st = Some (Slept, st).
Proof.
  intros [Hr Hw Hq Hcap Hord Hb Hfl]. unfold process_logs_body.
  rewrite Hr. cbn [orb negb].
  rewrite (MPMCQueue.try_dequeue_empty 1 uninitialised (queue_ st) Hq).
  cbn. by destruct st.
Qed.

Lemma worker_pass_inv (st : t) all vs :
  inv true st all vs →
  ∃ vs', inv true (worker_pass format_log_entry uninitialised st) all vs'
    ∧ MPMCQueue.capacity_ (queue_ (worker_pass format_log_entry uninitialised st))
      = MPMCQueue.capacity_ (queue_ st)
    ∧ (vs ≠ [] → (length vs' < length vs)%nat).
Proof.
  intros Hinv. unfold worker_pass. rewrite (inv_worker _ _ _ _ Hinv).
  destruct vs as [|v vs].
  - rewrite (pass_sleeps st all Hinv). by exists [].
  - destruct (pass_takes_oldest true st all v vs Hinv) as (o & st' & -> & Hinv' & Hc).
    exists vs. split_and!; [done|done|]. intros _. cbn. lia.
Qed.

Lemma log_inv (msg : LogMessage) (st : t) all vs :
  inv true st all vs →
  ∃ st' vs', log_loop 2 0 msg (λ _, worker_pass format_log_entry uninitialised) st = Some st'
    ∧ inv true st' (all ++ [msg]) vs'
    ∧ MPMCQueue.capacity_ (queue_ st') = MPMCQueue.capacity_ (queue_ st).
Proof.
  intros Hinv.
  assert (Hroom : ∀ st vs, inv true st all vs →
            MPMCQueue.size_ (queue_ st) < MPMCQueue.capacity_ (queue_ st) →
            ∃ q', MPMCQueue.try_enqueue LogMessage_default 1 msg (queue_ st) = Some (true, q')
              ∧ inv true (with_queue q' st) (all ++ [msg]) (vs ++ [msg])
              ∧ MPMCQueue.capacity_ q' = MPMCQueue.capacity_ (queue_ st)).
  { clear. intros st vs [Hr Hw Hq Hcap Hord Hb Hfl] Hlt.
    destruct (MPMCQueue.try_enqueue_spec LogMessage_default 0 msg (queue_ st) vs Hq Hlt)
      as (q' & -> & Hq' & _ & Hc').
    exists q'. split; [done|]. split; [|done]. split; cbn; try done.
    - lia.
    - unfold written in *. cbn.
      rewrite (fmap_app _ all), <- Hord, (app_assoc (batch st)), (fmap_app _ (batch st ++ vs)).
      by rewrite app_assoc.
    - intros Hnil. by apply app_nil in Hnil as [_ ?]. }
  cbn [log_loop].
  destruct (decide (MPMCQueue.capacity_ (queue_ st) ≤ MPMCQueue.size_ (queue_ st)))
    as [Hfull|Hlt].
  - rewrite MPMCQueue.try_enqueue_full by done. cbn [mbind option_bind].
    assert (Hsame : with_queue (queue_ st) st = st) by (by destruct st).
    rewrite Hsame.
    destruct (worker_pass_inv st all vs Hinv) as (vs' & Hinv' & Hc' & Hless).
    assert (Hne : vs ≠ []).
    { intros ->. pose proof (MPMCQueue.is_queue_size _ _ (inv_queue _ _ _ _ Hinv)) as Hs.
      pose proof (inv_capacity _ _ _ _ Hinv). cbn in Hs. lia. }
    destruct (Hroom _ vs' Hinv') as (q' & -> & Hinv2 & Hc2).
    { rewrite (MPMCQueue.is_queue_size _ _ (inv_queue _ _ _ _ Hinv')), Hc'.
      pose proof (MPMCQueue.is_queue_size _ _ (inv_queue _ _ _ _ Hinv)) as Hs.
      destruct (inv_queue _ _ _ _ Hinv) as (h & l & R).
      pose proof (MPMCQueue.rep_bound _ _ _ _ R). specialize (Hless Hne). lia. }
    cbn [mbind option_bind]. eexists _, _. split; [reflexivity|]. split; [done|].
    cbn. congruence.
  - destruct (Hroom st vs Hinv) as (q' & -> & Hinv2 & Hc2); [lia|].
    cbn [mbind option_bind]. eexists _, _. split; [reflexivity|]. by split.
Qed.

Lemma do_calls_inv (l : list call) :
  ∀ st all vs,
    inv true st all vs →
    ∃ st' vs',
      do_calls format_log_entry uninitialised l st = Some st'
      ∧ inv true st' (all ++ logged l) vs'
      ∧ MPMCQueue.capacity_ (queue_ st') = MPMCQueue.capacity_ (queue_ st).
Proof.
  induction l as [|c l IH]; intros st all vs Hinv.
  - exists st, vs. cbn. by rewrite app_nil_r.
  - cbn [do_calls]. destruct c as [msg|]; cbn [do_call].
    + destruct (log_inv msg st all vs Hinv) as (st1 & vs1 & -> & Hinv1 & Hc1).
      cbn [mbind option_bind].
      destruct (IH st1 _ vs1 Hinv1) as (st2 & vs2 & -> & Hinv2 & Hc2).
      exists st2, vs2. split; [done|]. split; [|congruence].
      unfold logged in *. cbn [omap]. by rewrite <- app_assoc in Hinv2.
    + cbn [mbind option_bind].
      destruct (worker_pass_inv st all vs Hinv) as (vs1 & Hinv1 & Hc1 & _).
      destruct (IH _ _ vs1 Hinv1) as (st2 & vs2 & -> & Hinv2 & Hc2).
      exists st2, vs2. split; [done|]. split; [done|congruence].
Qed.

(** X27.  While the logger runs, with one thread logging and the
    worker making its passes in any order, [log] always returns, and the
    entries in the files, followed by those of the worker's batch and of
    the queue, are the entries of the messages logged, each once and in
    the order of the calls.  The batch stays short of 100 messages and
    is written whenever the worker leaves the queue empty. *)
Theorem logger_writes_in_order (l : list call) (queue_size : Z) :
  0 < queue_size < size_t_modulus →
  ∃ st0 st vs,
    new queue_size = Some st0
    ∧ do_calls format_log_entry uninitialised l st0 = Some st
    ∧ MPMCQueue.is_queue (queue_ st) vs
    ∧ written st ++ (format_log_entry <$> (batch st ++ vs))
      = format_log_entry <$> logged l
    ∧ (length (batch st) < 100)%nat
    ∧ (MPMCQueue.empty (queue_ st) = true → batch st = []
         ∧ written st = format_log_entry <$> logged l).
Proof.
  intros Hc. destruct (new_inv queue_size Hc) as (st0 & Hn & Hinv0 & _).
  destruct (do_calls_inv l st0 [] [] Hinv0) as (st & vs & Hd & [Hr Hw Hq Hcap Hord Hb Hfl] & _).
  exists st0, st, vs. cbn in Hord. split_and!; [done..|].
  intros He. rewrite (queue_empty_iff _ _ Hq) in He. apply bool_decide_eq_true in He.
  subst vs. specialize (Hfl eq_refl). rewrite Hfl in Hord. cbn in Hord.
  rewrite app_nil_r in Hord. done.
Qed.

(** After [running_ = false] the worker goes on until the queue is
    empty. *)
Lemma stopped_logger_drains (vs : list LogMessage) :
  ∀ st all,
    inv false st all vs →
    let st' := Nat.iter (S (length vs)) (worker_pass format_log_entry uninitialised) st in
    worker_returned st' = true
    ∧ written st' = format_log_entry <$> all
    ∧ MPMCQueue.is_queue (queue_ st') [].
Proof.
  induction vs as [|v vs IH]; intros st all Hinv; cbv zeta.
  - cbn [length Nat.iter nat_rect]. unfold worker_pass. rewrite (inv_worker _ _ _ _ Hinv).
    destruct Hinv as [Hr Hw Hq Hcap Hord Hb Hfl]. unfold process_logs_body.
    rewrite Hr, (queue_empty_iff _ _ Hq). cbn [bool_decide orb negb].
    rewrite bool_decide_eq_true_2 by done. cbn [negb].
    rewrite (Hfl eq_refl). rewrite decide_False by (intros ?; done).
    cbn. rewrite (Hfl eq_refl) in Hord. cbn in Hord. rewrite app_nil_r in Hord. done.
  - cbn [length]. rewrite Nat.iter_succ_r.
    destruct (pass_takes_oldest false st all v vs Hinv) as (o & st1 & Hp & Hinv1 & _).
    assert (Hst1 : worker_pass format_log_entry uninitialised st = st1).
    { unfold worker_pass. by rewrite (inv_worker _ _ _ _ Hinv), Hp. }
    rewrite Hst1. by apply IH.
Qed.

(** X28.  No message is lost at the end: once the destructor has
    cleared [running_], the worker takes what is left in the queue,
    writes it and only then leaves [process_logs]; when it has, the
    files hold the entries of all the messages logged, in order. *)
Theorem destructor_writes_all (l : list call) (queue_size : Z) :
  0 < queue_size < size_t_modulus →
  ∃ st0 st vs,
    new queue_size = Some st0
    ∧ do_calls format_log_entry uninitialised l st0 = Some st
    ∧ MPMCQueue.is_queue (queue_ st) vs
    ∧ let st' := Nat.iter (S (length vs)) (worker_pass format_log_entry uninitialised)
                   (request_stop st) in
      worker_returned st' = true
      ∧ written st' = format_log_entry <$> logged l
      ∧ MPMCQueue.empty (queue_ st') = true.
Proof.
  intros Hc. destruct (new_inv queue_size Hc) as (st0 & Hn & Hinv0 & _).
  destruct (do_calls_inv l st0 [] [] Hinv0) as (st & vs & Hd & Hinv & _).
  exists st0, st, vs. split_and!; [done|done|by destruct Hinv|].
  assert (Hstop : inv false (request_stop st) (logged l) vs).
  { destruct Hinv. by split. }
  destruct (stopped_logger_drains vs _ _ Hstop) as (A & B & C).
  cbv zeta. split_and!; [done|done|]. by rewrite (queue_empty_iff _ _ C).
Qed.

(** X29.  A call of [log] does not return while the queue is full and
    stays full: it yields and tries again without end. *)
Theorem log_waits_on_full_queue (fuel : nat) (msg : LogMessage) (others : nat → t → t) :
  (∀ k st, MPMCQueue.capacity_ (queue_ st) ≤ MPMCQueue.size_ (queue_ st) →
           MPMCQueue.capacity_ (queue_ (others k st)) ≤ MPMCQueue.size_ (queue_ (others k st))) →
  ∀ k st,
    MPMCQueue.capacity_ (queue_ st) ≤ MPMCQueue.size_ (queue_ st) →
    log_loop fuel k msg others st = None.
Proof.
  intros Hothers. induction fuel as [|fuel IH]; intros k st Hfull; [done|].
  cbn [log_loop]. rewrite MPMCQueue.try_enqueue_full by done. cbn [mbind option_bind].
  apply IH. apply Hothers. by destruct st.
Qed.

End Facts.

(** A logger that writes the message text alone. *)
Definition text_of (n : Z) : LogMessage :=
  mkLogMessage INFO n "m"%string "main.cpp"%string n "main"%string (Some 1%nat).

Lemma logger_writes_in_order_witness :
  ∃ st0 st vs,
    new 2 = Some st0
    ∧ do_calls message LogMessage_default
        [Log (text_of 1); Log (text_of 2); Log (text_of 3); Pass; Log (text_of 4)] st0
      = Some st
    ∧ MPMCQueue.is_queue (queue_ st) vs
    ∧ written st ++ (message <$> (batch st ++ vs))
      = message <$> [text_of 1; text_of 2; text_of 3; text_of 4]
    ∧ (length (batch st) < 100)%nat
    ∧ (MPMCQueue.empty (queue_ st) = true → batch st = []
         ∧ written st = message <$> [text_of 1; text_of 2; text_of 3; text_of 4]).
Proof.
  apply (logger_writes_in_order message LogMessage_default
           [Log (text_of 1); Log (text_of 2); Log (text_of 3); Pass; Log (text_of 4)] 2).
  done.
Defined.

Lemma destructor_writes_all_witness :
  ∃ st0 st vs,
    new 2 = Some st0
    ∧ do_calls message LogMessage_default [Log (text_of 1); Log (text_of 2)] st0 = Some st
    ∧ MPMCQueue.is_queue (queue_ st) vs
    ∧ let st' := Nat.iter (S (length vs)) (worker_pass message LogMessage_default)
                   (request_stop st) in
      worker_returned st' = true
      ∧ written st' = message <$> [text_of 1; text_of 2]
      ∧ MPMCQueue.empty (queue_ st') = true.
Proof.
  apply (destructor_writes_all message LogMessage_default
           [Log (text_of 1); Log (text_of 2)] 2).
  done.
Defined.

Lemma log_waits_on_full_queue_witness :
  ∃ st, new 0 = Some st ∧ log_loop 5 0 (text_of 1) (λ _ st, st) st = None.
Proof.
  eexists. split; [vm_compute; reflexivity|].
  apply (log_waits_on_full_queue 5 (text_of 1) (λ _ st, st)).
  - intros _ st Hfull. exact Hfull.
  - vm_compute. discriminate.
Defined.

End AsyncLogger.

(** ** actor/actor.hpp

    The mailbox of an actor is the [channel::MPMCChannel] of
    lockfree/mpmc_channel.hpp.  A [std::type_index] is a number, [None]
    standing for [typeid(void)]; [content] is what the [std::any] holds,
    [None] when it is empty; an [ActorRef] is the number of an actor or
    null.  Handlers act on the memory [W]. *)

Module Actor.

Record Message (C : Type) := mkMessage {
  type : option nat;
  content : option C;
  sender : option nat
}.
Arguments mkMessage {C}.
Arguments type {C}.
Arguments content {C}.
Arguments sender {C}.

Record t (C W : Type) := mk {
  mailbox_ : MPMCChannel.t (Message C);
  running_ : bool;
  handlers_ : gmap nat (Message C → W → W)
}.
Arguments mk {C W}.
Arguments mailbox_ {C W}.
Arguments running_ {C W}.
Arguments handlers_ {C W}.

Section Ops.
Context {C W : Type}.
(** What the move constructor of [Message] leaves in its source, what
    the clock reads and what the other threads do to the mailbox during
    a yield. *)
Variable moved_from : Message C → Message C.
Variable clock : nat → Z.
Variable others : nat → MPMCChannel.t (Message C) → MPMCChannel.t (Message C).
Implicit Type a : t C W.

(** [Message()] and [Message(const T& msg, ActorRef from)] *)
Definition Message_default : Message C := mkMessage None None None.
Definition Message_of (T : nat) (msg : C) (from : option nat) : Message C :=
  mkMessage (Some T) (Some msg) from.

(** [Actor(size_t mailbox_size = 1024)] up to the start of the thread *)
Definition new (mailbox_size : Z) : option (t C W) :=
  q ← MPMCChannel.new Message_default mailbox_size;
  Some (mk q true ∅).

(** [tell<T>(message, sender)]: the result of [try_send] is dropped. *)
Definition tell (T : nat) (message : C) (sender : option nat) a : option (t C W) :=
  '(_, q, _) ← MPMCChannel.try_send clock others 1 1 (Message_of T message sender) 0
                 (mailbox_ a);
  Some (mk q (running_ a) (handlers_ a)).

(** [register_handler<T>(handler)]: the stored function casts the
    content and calls [handler]; a failing [any_cast] throws, and
    [process_messages] catches what a handler throws. *)
Definition register_handler (T : nat) (handler : C → option nat → W → W) a : t C W :=
  mk (mailbox_ a) (running_ a)
     (<[T := λ msg w, match content msg with
                      | Some c => handler c (sender msg) w
                      | None => w
                      end]> (handlers_ a)).

(** One pass through the [while (running_)] of [process_messages]:
    whether the loop goes on, the actor and the memory. *)
Definition process_messages_body (a : t C W) (w : W) : option (bool * t C W * W) :=
  if running_ a then
    '(msg, q, _) ← MPMCChannel.try_receive moved_from clock others 1 1 0 (mailbox_ a);
    let a1 := mk q (running_ a) (handlers_ a) in
    match msg with
    | Some m =>
        match type m ≫= (λ T, handlers_ a !! T) with
        | Some handler => Some (true, a1, handler m w)
        | None => Some (true, a1, w)
        end
    | None => Some (true, a1, w)
    end
  else Some (false, a, w).

Fixpoint tell_all (ms : list (nat * C * option nat)) a : option (t C W) :=
  match ms with
  | [] => Some a
  | (T, message, sender) :: ms => a1 ← tell T message sender a; tell_all ms a1
  end.

Fixpoint passes (n : nat) a (w : W) : option (t C W * W) :=
  match n with
  | O => Some (a, w)
  | S n => '(_, a1, w1) ← process_messages_body a w; passes n a1 w1
  end.

(** What the actor does with a message it receives. *)
Definition handle a (w : W) (m : Message C) : W :=
  match type m ≫= (λ T, handlers_ a !! T) with
  | Some handler => handler m w
  | None => w
  end.

End Ops.

Section Facts.
Context {C W : Type}.
Variable moved_from : Message C → Message C.
Variable clock : nat → Z.
Variable others : nat → MPMCChannel.t (Message C) → MPMCChannel.t (Message C).
Implicit Type a : t C W.

Definition message_of (x : nat * C * option nat) : Message C :=
  Message_of x.1.1 x.1.2 x.2.

Lemma tell_all_spec (ms : list (nat * C * option nat)) :
  ∀ a vs,
    MPMCChannel.is_channel (mailbox_ a) vs →
    ∃ a1,
      tell_all clock others ms a = Some a1
      ∧ MPMCChannel.is_channel (mailbox_ a1)
          (vs ++ take (Z.to_nat (MPMCChannel.capacity_ (mailbox_ a)) - length vs)
                      (message_of <$> ms))
      ∧ MPMCChannel.capacity_ (mailbox_ a1) = MPMCChannel.capacity_ (mailbox_ a)
      ∧ running_ a1 = running_ a ∧ handlers_ a1 = handlers_ a.
Proof.
  induction ms as [|[[T c] s] ms IH]; intros a vs Hq.
  - exists a. cbn. rewrite take_nil, app_nil_r. done.
  - cbn [tell_all fmap list_fmap]. unfold tell, MPMCChannel.try_send.
    cbn [MPMCChannel.send_attempts].
    pose proof (MPMCChannel.is_channel_size _ _ Hq) as Hsz.
    destruct (decide (MPMCChannel.capacity_ (mailbox_ a) ≤ MPMCChannel.size_ (mailbox_ a)))
      as [Hfull|Hroom].
    + rewrite MPMCChannel.try_send_impl_full by done. cbn [mbind option_bind].
      rewrite decide_False by lia. cbn [mbind option_bind].
      destruct (IH (mk (mailbox_ a) (running_ a) (handlers_ a)) vs Hq)
        as (a1 & -> & Hq1 & Hc1 & Hr1 & Hh1).
      exists a1. split; [done|]. cbn in *. split_and!; [|done..].
      replace (Z.to_nat (MPMCChannel.capacity_ (mailbox_ a)) - length vs)%nat with 0%nat in *
        by lia.
      by rewrite take_0 in *.
    + destruct (MPMCChannel.try_send_impl_spec 0 (Message_of T c s) (mailbox_ a) vs Hq)
        as (q' & -> & Hq' & Hs' & Hc'); [lia|].
      cbn [mbind option_bind].
      destruct (IH (mk q' (running_ a) (handlers_ a)) _ Hq')
        as (a1 & -> & Hq1 & Hc1 & Hr1 & Hh1).
      exists a1. split; [done|]. cbn in *. split_and!; [|congruence|done|done].
      rewrite Hc', length_app in Hq1. cbn in Hq1.
      replace (Z.to_nat (MPMCChannel.capacity_ (mailbox_ a)) - length vs)%nat
        with (S (Z.to_nat (MPMCChannel.capacity_ (mailbox_ a)) - (length vs + 1)))%nat by lia.
      cbn [take]. by rewrite <- app_assoc in Hq1.
Qed.

Lemma passes_spec (vs : list (Message C)) :
  ∀ a w,
    running_ a = true →
    MPMCChannel.is_channel (mailbox_ a) vs →
    ∃ a1,
      passes moved_from clock others (length vs) a w = Some (a1, foldl (handle a) w vs)
      ∧ MPMCChannel.is_channel (mailbox_ a1) []
      ∧ running_ a1 = true ∧ handlers_ a1 = handlers_ a.
Proof.
  induction vs as [|m vs IH]; intros a w Hr Hq.
  - exists a. done.
  - cbn [length passes foldl]. unfold process_messages_body, MPMCChannel.try_receive.
    rewrite Hr. cbn [MPMCChannel.receive_attempts].
    destruct (MPMCChannel.try_receive_impl_spec moved_from 0 (mailbox_ a) m vs Hq)
      as (q' & -> & Hq' & _).
    cbn [mbind option_bind].
    set (a1 := mk q' true (handlers_ a)).
    destruct (IH a1 (handle a w m)) as (a2 & Hp & Hq2 & Hr2 & Hh2); [done|done|].
    change (handle a1) with (handle a) in Hp.
    exists a2. split_and!; [|done..].
    assert (Hw : handle a w m = match type m ≫= (λ T, handlers_ a !! T) with
                                | Some handler => handler m w
                                | None => w
                                end) by done.
    rewrite Hw in Hp |- *.
    destruct (type m ≫= _) as [h|]; cbn [mbind option_bind]; exact Hp.
Qed.

(** X30.  The mailbox is first-in first-out and lossy.  Of the
    messages told to an actor whose mailbox is empty, the first
    [mailbox_size] are kept and the others are dropped, and [tell] does
    not report it; the actor then handles the kept ones in the order in
    which they were told, one per pass, each with the handler registered
    for its type, and passes over those for whose type there is none. *)
Theorem mailbox_is_fifo_and_lossy (ms : list (nat * C * option nat)) a (w : W) :
  running_ a = true →
  MPMCChannel.is_channel (mailbox_ a) [] →
  let kept := take (Z.to_nat (MPMCChannel.capacity_ (mailbox_ a))) (message_of <$> ms) in
  ∃ a1 a2,
    tell_all clock others ms a = Some a1
    ∧ MPMCChannel.is_channel (mailbox_ a1) kept
    ∧ handlers_ a1 = handlers_ a
    ∧ passes moved_from clock others (length kept) a1 w = Some (a2, foldl (handle a) w kept)
    ∧ MPMCChannel.is_channel (mailbox_ a2) [].
Proof.
  intros Hr Hq. cbv zeta.
  destruct (tell_all_spec ms a [] Hq) as (a1 & Ht & Hq1 & Hc1 & Hr1 & Hh1).
  cbn [app length] in Hq1. rewrite Nat.sub_0_r in Hq1.
  destruct (passes_spec _ a1 w (eq_trans Hr1 Hr) Hq1) as (a2 & Hp & Hq2 & _).
  exists a1, a2. split_and!; [done|done|done| |done].
  rewrite Hp. do 2 f_equal.
  assert (Hsame : ∀ w' l, foldl (handle a1) w' l = foldl (handle a) w' l); [|apply Hsame].
  intros w' l. revert w'. induction l as [|x l IH]; intros w'; [done|].
  cbn. unfold handle at 2 4. rewrite Hh1. apply IH.
Qed.

End Facts.

(** An actor with a mailbox for two messages, whose handler for the
    type 1 appends the content to a vector; it has no handler for the
    type 2. *)
Definition small_actor : t Z (list Z) :=
  register_handler 1 (λ c _ v, v ++ [c])
    (mk (MPMCChannel.mk 2 0 (Some 0%nat) (Some 0%nat)
           (MemoryPool.mk (seq 1 14) [0%nat]
              (<[0%nat := MPMCChannel.mkNode None Message_default false]> ∅) []))
        true ∅).

Lemma small_actor_built :
  register_handler 1 (λ c _ v, v ++ [c]) <$> new 2 = Some small_actor.
Proof. vm_compute. reflexivity. Qed.

Lemma small_actor_mailbox : MPMCChannel.is_channel (mailbox_ small_actor) [].
Proof.
  destruct (MPMCChannel.new_is_channel (Message_default (C := Z)) 2) as (q & Hn & Hq & _);
    [done|].
  assert (Hb : MPMCChannel.new (Message_default (C := Z)) 2 = Some (mailbox_ small_actor))
    by (vm_compute; reflexivity).
  rewrite Hb in Hn. by injection Hn as <-.
Qed.

Lemma mailbox_is_fifo_and_lossy_witness :
  ∃ a1 a2,
    tell_all MPMCChannel.clock10 (λ (_ : nat) (q : MPMCChannel.t (Message Z)), q)
      [(1%nat, 10, None); (2%nat, 20, Some 3%nat); (1%nat, 30, None)] small_actor = Some a1
    ∧ MPMCChannel.is_channel (mailbox_ a1)
        [Message_of 1 10 None; Message_of 2 20 (Some 3%nat)]
    ∧ handlers_ a1 = handlers_ small_actor
    ∧ passes (λ m, m) MPMCChannel.clock10 (λ (_ : nat) (q : MPMCChannel.t (Message Z)), q) 2 a1 [] = Some (a2, [10])
    ∧ MPMCChannel.is_channel (mailbox_ a2) [].
Proof.
  apply (mailbox_is_fifo_and_lossy (λ m, m) MPMCChannel.clock10 (λ (_ : nat) (q : MPMCChannel.t (Message Z)), q)
           [(1%nat, 10, None); (2%nat, 20, Some 3%nat); (1%nat, 30, None)] small_actor []).
  - reflexivity.
  - exact small_actor_mailbox.
Defined.

End Actor.
